(** * FFFF header codec, structural validator and layout planner

    Shallow embedding of [scripts/ffff.py] (bootrom-tools): the header
    block size, the [Ffff] class with [unpack], [pack], [add_element],
    [validate_element_table], [validate_ffff_header] and [post_process].

    Python integers are unbounded, so they are [Z].  Python 2 strings and
    the [bytearray] flash buffer are lists of 8-bit values kept in [Z].
    A call that raises (struct.error, TypeError on [2 * None], IndexError)
    or leaves through [sys.exit] yields [None]. *)

From Stdlib Require Import ZArith Lia Bool String.
From stdpp Require Import base option list.

Local Open Scope Z_scope.

(** ** Byte buffers: slices and the [struct] module *)

Module Buffer.

(** Python clips a slice bound into [[0, n]]; a negative bound counts
    from the end. *)
Definition slice_index (n i : Z) : Z :=
  if i <? 0 then Z.max 0 (i + n) else Z.min i n.

(** [buf[lo:hi]] *)
Definition py_slice (buf : list Z) (lo hi : Z) : list Z :=
  let n := Z.of_nat (length buf) in
  let lo' := slice_index n lo in
  let hi' := slice_index n hi in
  take (Z.to_nat (hi' - lo')) (drop (Z.to_nat lo') buf).

(** [buf[lo:hi] = v] on a bytearray: the slice is replaced by [v]; an
    upper bound below the lower one is raised to it. *)
Definition py_slice_assign (buf : list Z) (lo hi : Z) (v : list Z)
  : list Z :=
  let n := Z.of_nat (length buf) in
  let lo' := slice_index n lo in
  let hi' := Z.max lo' (slice_index n hi) in
  take (Z.to_nat lo') buf ++ v ++ drop (Z.to_nat hi') buf.

(** Offset handling shared by [pack_into] and [unpack_from]: a negative
    offset is taken from the end, and the [size] bytes must lie inside
    the buffer, otherwise struct.error. *)
Definition struct_offset (buf : list Z) (off : Z) (size : nat)
  : option nat :=
  let n := Z.of_nat (length buf) in
  let off' := if off <? 0 then off + n else off in
  if (0 <=? off') && (off' + Z.of_nat size <=? n)
  then Some (Z.to_nat off') else None.

(** [pack_into(fmt, buf, off, ...)] once the values are laid out as
    [data]. *)
Definition pack_into (buf : list Z) (off : Z) (data : list Z)
  : option (list Z) :=
  o ← struct_offset buf off (length data);
  Some (take o buf ++ data ++ drop (o + length data)%nat buf).

(** [unpack_from(fmt, buf, off)] for a format of [size] bytes: the raw
    bytes, split into fields by the caller. *)
Definition unpack_from (size : nat) (buf : list Z) (off : Z)
  : option (list Z) :=
  o ← struct_offset buf off size;
  Some (take size (drop o buf)).

(** Format ["Ns"]: the string cut or zero-padded to [width] bytes. *)
Definition pack_s (width : nat) (s : list Z) : list Z :=
  take width s ++ replicate (width - length s)%nat 0.

(** Format ["<L"]: four bytes, least significant first; a value
    outside 32 bits is a struct.error. *)
Definition pack_L (v : Z) : option (list Z) :=
  if (0 <=? v) && (v <? 2 ^ 32)
  then Some [v mod 256; (v / 256) mod 256;
             (v / 65536) mod 256; (v / 16777216) mod 256]
  else None.

Definition unpack_L (bs : list Z) : Z :=
  match bs with
  | [b0; b1; b2; b3] => b0 + 256 * b1 + 65536 * b2 + 16777216 * b3
  | _ => 0
  end.

(** Five consecutive ["L"] fields. *)
Definition pack_LLLLL (a b c d e : Z) : option (list Z) :=
  a' ← pack_L a; b' ← pack_L b; c' ← pack_L c; d' ← pack_L d;
  e' ← pack_L e; Some (a' ++ b' ++ c' ++ d' ++ e').

(** The field of [n] bytes starting [at] bytes into unpacked data. *)
Definition field (at_ n : nat) (data : list Z) : list Z :=
  take n (drop at_ data).

End Buffer.
Import Buffer.

(** ** Helpers of [util.py] *)

(** Modelled from the spec: [util.is_constant_fill] is not among the
    sources; the specification reads it as "the region reads as a
    constant fill": every byte of the span equals the fill byte. *)
Definition is_constant_fill (span : list Z) (fill_byte : Z) : bool :=
  forallb (Z.eqb fill_byte) span.

(** Modelled from the spec: [util.is_power_of_2] is not among the
    sources; "erase block size must be a power of two". *)
Definition is_power_of_2 (x : Z) : bool :=
  (0 <? x) && (Z.land x (x - 1) =? 0).

(** Modelled from the spec: [util.next_boundary] is not among the
    sources; "the next erase-block-size boundary at or after"
    a location. *)
Definition next_boundary (location block_size : Z) : Z :=
  (location + (block_size - 1)) / block_size * block_size.

(** ** Constants of [ffff_element.py]

    The module that defines them is not among the sources, so the
    development is parametric in their values. *)
Class FfffConsts := {
  FFFF_HDR_LENGTH : Z;
  FFFF_MAX_HEADER_BLOCK_SIZE : Z;
  FFFF_HDR_OFF_TAIL_SENTINEL : Z;
  FFFF_HDR_OFF_ELEMENT_TBL : Z;
  FFFF_MAX_ELEMENTS : Z;
  FFFF_ELT_LENGTH : Z;
  FFFF_HDR_OFF_FLASH_IMAGE_NAME : Z;
  FFFF_HDR_OFF_FLASH_CAPACITY : Z;
  FFFF_FLASH_IMAGE_NAME_LENGTH : Z;
  FFFF_ELEMENT_END_OF_ELEMENT_TABLE : Z;
  FFFF_HEADER_COLLISION : Z;
  FFFF_SENTINEL : list Z
}.

(** The three header verdicts [FFFF_HDR_VALID], [FFFF_HDR_ERASED] and
    [FFFF_HDR_INVALID]. *)
Inductive hdr_validity : Set :=
  | FFFF_HDR_VALID
  | FFFF_HDR_ERASED
  | FFFF_HDR_INVALID.

#[global] Instance hdr_validity_eq_dec : EqDecision hdr_validity.
Proof. solve_decision. Defined.

(** ** Elements

    The attributes of [FfffElement] that [ffff.py] reads or passes to its
    constructor; [tftf_buf] is the blob [element.tftf_blob.tftf_buf]. *)
Record FfffElement := {
  index : Z;
  elt_flash_capacity : Z;
  elt_erase_block_size : Z;
  element_type : Z;
  element_id : Z;
  element_generation : Z;
  element_location : Z;
  element_length : Z;
  filename : option string;
  tftf_buf : list Z
}.

Definition set_element_location (v : Z) (e : FfffElement) : FfffElement :=
  Build_FfffElement (index e) (elt_flash_capacity e)
    (elt_erase_block_size e) (element_type e) (element_id e)
    (element_generation e) v (element_length e) (filename e) (tftf_buf e).

(** What the header decoder and validator look at in an element. *)
Definition element_entry (e : FfffElement) : Z * Z * Z * Z * Z :=
  (element_type e, element_id e, element_generation e,
   element_location e, element_length e).

(** The methods of [FfffElement] that [ffff.py] calls.  [element_unpack]
    returns the filled element and the "unused entry" flag,
    [element_pack] the buffer and the next free offset, [element_init]
    the element with its blob loaded, or [None] when it reports failure.
    [validate] and [validate_against] only record diagnostics on the
    element, which the record above does not carry; [validate]'s verdict
    is [element_validate]. *)
Class FfffElementOps := {
  element_validate : FfffElement → Z → Z → bool;
  element_unpack : FfffElement → list Z → Z → option (FfffElement * bool);
  element_pack : FfffElement → list Z → Z → option (list Z * Z);
  element_init : FfffElement → option FfffElement
}.

(** ** The header block size *)

Section HeaderBlockSize.
Context `{K : FfffConsts}.

(** [for size in range(start, FFFF_MAX_HEADER_BLOCK_SIZE)] with [n]
    values left; falling off the loop returns [None]. *)
Fixpoint header_block_size_loop (n : nat) (size : Z) : option Z :=
  match n with
  | O => None
  | S n' =>
      if size >? FFFF_HDR_LENGTH then Some size
      else header_block_size_loop n' (size + 1)
  end.

Definition header_block_size (erase_block_size : Z) : option Z :=
  header_block_size_loop
    (Z.to_nat (FFFF_MAX_HEADER_BLOCK_SIZE - erase_block_size))
    erase_block_size.

(** The rule in the words of the specification: the erase block size
    is doubled until it exceeds the header length, and the result is
    capped at the maximum.  [n] bounds the number of doublings. *)
Fixpoint spec_doubling (n : nat) (size : Z) : Z :=
  match n with
  | O => size
  | S n' =>
      if size >? FFFF_HDR_LENGTH then size else spec_doubling n' (2 * size)
  end.

Definition spec_header_block_size (erase_block_size : Z) : Z :=
  Z.min FFFF_MAX_HEADER_BLOCK_SIZE
    (spec_doubling (Z.to_nat FFFF_HDR_LENGTH + 1) erase_block_size).

End HeaderBlockSize.

(** ** The [Ffff] class *)

(** The instance attributes set by [__init__], then the buffer the
    header aliases and the private fields.  [duplicatess_found] (sic) and
    [erase_block_mask] do not exist until [validate_element_table] and
    [post_process] first assign them: [None] is the missing attribute. *)
Record Ffff := {
  sentinel : list Z;
  timestamp : list Z;
  flash_image_name : list Z;
  flash_capacity : Z;
  erase_block_size : Z;
  header_size : Z;
  flash_image_length : Z;
  header_generation_number : Z;
  elements : list FfffElement;
  padding : list Z;
  tail_sentinel : list Z;
  ffff_buf : list Z;
  header_offset : Z;
  collisions : list (list Z);
  collisions_found : bool;
  duplicates : list (list Z);
  duplicates_found : bool;
  invalid_elements_found : bool;
  header_validity : hdr_validity;
  element_location_min : Z;
  element_location_max : Z;
  duplicatess_found : option bool;
  erase_block_mask : option Z
}.

(** Attribute assignments [self.x = v]. *)
Definition set_sentinel (v : list Z) (h : Ffff) : Ffff :=
  Build_Ffff v (timestamp h) (flash_image_name h) (flash_capacity h)
    (erase_block_size h) (header_size h) (flash_image_length h)
    (header_generation_number h) (elements h) (padding h) (tail_sentinel h)
    (ffff_buf h) (header_offset h) (collisions h) (collisions_found h)
    (duplicates h) (duplicates_found h) (invalid_elements_found h)
    (header_validity h) (element_location_min h) (element_location_max h)
    (duplicatess_found h) (erase_block_mask h).

Definition set_timestamp (v : list Z) (h : Ffff) : Ffff :=
  Build_Ffff (sentinel h) v (flash_image_name h) (flash_capacity h)
    (erase_block_size h) (header_size h) (flash_image_length h)
    (header_generation_number h) (elements h) (padding h) (tail_sentinel h)
    (ffff_buf h) (header_offset h) (collisions h) (collisions_found h)
    (duplicates h) (duplicates_found h) (invalid_elements_found h)
    (header_validity h) (element_location_min h) (element_location_max h)
    (duplicatess_found h) (erase_block_mask h).

Definition set_flash_image_name (v : list Z) (h : Ffff) : Ffff :=
  Build_Ffff (sentinel h) (timestamp h) v (flash_capacity h)
    (erase_block_size h) (header_size h) (flash_image_length h)
    (header_generation_number h) (elements h) (padding h) (tail_sentinel h)
    (ffff_buf h) (header_offset h) (collisions h) (collisions_found h)
    (duplicates h) (duplicates_found h) (invalid_elements_found h)
    (header_validity h) (element_location_min h) (element_location_max h)
    (duplicatess_found h) (erase_block_mask h).

Definition set_flash_capacity (v : Z) (h : Ffff) : Ffff :=
  Build_Ffff (sentinel h) (timestamp h) (flash_image_name h) v
    (erase_block_size h) (header_size h) (flash_image_length h)
    (header_generation_number h) (elements h) (padding h) (tail_sentinel h)
    (ffff_buf h) (header_offset h) (collisions h) (collisions_found h)
    (duplicates h) (duplicates_found h) (invalid_elements_found h)
    (header_validity h) (element_location_min h) (element_location_max h)
    (duplicatess_found h) (erase_block_mask h).

Definition set_erase_block_size (v : Z) (h : Ffff) : Ffff :=
  Build_Ffff (sentinel h) (timestamp h) (flash_image_name h)
    (flash_capacity h) v (header_size h) (flash_image_length h)
    (header_generation_number h) (elements h) (padding h) (tail_sentinel h)
    (ffff_buf h) (header_offset h) (collisions h) (collisions_found h)
    (duplicates h) (duplicates_found h) (invalid_elements_found h)
    (header_validity h) (element_location_min h) (element_location_max h)
    (duplicatess_found h) (erase_block_mask h).

Definition set_header_size (v : Z) (h : Ffff) : Ffff :=
  Build_Ffff (sentinel h) (timestamp h) (flash_image_name h)
    (flash_capacity h) (erase_block_size h) v (flash_image_length h)
    (header_generation_number h) (elements h) (padding h) (tail_sentinel h)
    (ffff_buf h) (header_offset h) (collisions h) (collisions_found h)
    (duplicates h) (duplicates_found h) (invalid_elements_found h)
    (header_validity h) (element_location_min h) (element_location_max h)
    (duplicatess_found h) (erase_block_mask h).

Definition set_flash_image_length (v : Z) (h : Ffff) : Ffff :=
  Build_Ffff (sentinel h) (timestamp h) (flash_image_name h)
    (flash_capacity h) (erase_block_size h) (header_size h) v
    (header_generation_number h) (elements h) (padding h) (tail_sentinel h)
    (ffff_buf h) (header_offset h) (collisions h) (collisions_found h)
    (duplicates h) (duplicates_found h) (invalid_elements_found h)
    (header_validity h) (element_location_min h) (element_location_max h)
    (duplicatess_found h) (erase_block_mask h).

Definition set_header_generation_number (v : Z) (h : Ffff) : Ffff :=
  Build_Ffff (sentinel h) (timestamp h) (flash_image_name h)
    (flash_capacity h) (erase_block_size h) (header_size h)
    (flash_image_length h) v (elements h) (padding h) (tail_sentinel h)
    (ffff_buf h) (header_offset h) (collisions h) (collisions_found h)
    (duplicates h) (duplicates_found h) (invalid_elements_found h)
    (header_validity h) (element_location_min h) (element_location_max h)
    (duplicatess_found h) (erase_block_mask h).

Definition set_elements (v : list FfffElement) (h : Ffff) : Ffff :=
  Build_Ffff (sentinel h) (timestamp h) (flash_image_name h)
    (flash_capacity h) (erase_block_size h) (header_size h)
    (flash_image_length h) (header_generation_number h) v (padding h)
    (tail_sentinel h) (ffff_buf h) (header_offset h) (collisions h)
    (collisions_found h) (duplicates h) (duplicates_found h)
    (invalid_elements_found h) (header_validity h) (element_location_min h)
    (element_location_max h) (duplicatess_found h) (erase_block_mask h).

Definition set_tail_sentinel (v : list Z) (h : Ffff) : Ffff :=
  Build_Ffff (sentinel h) (timestamp h) (flash_image_name h)
    (flash_capacity h) (erase_block_size h) (header_size h)
    (flash_image_length h) (header_generation_number h) (elements h)
    (padding h) v (ffff_buf h) (header_offset h) (collisions h)
    (collisions_found h) (duplicates h) (duplicates_found h)
    (invalid_elements_found h) (header_validity h) (element_location_min h)
    (element_location_max h) (duplicatess_found h) (erase_block_mask h).

Definition set_ffff_buf (v : list Z) (h : Ffff) : Ffff :=
  Build_Ffff (sentinel h) (timestamp h) (flash_image_name h)
    (flash_capacity h) (erase_block_size h) (header_size h)
    (flash_image_length h) (header_generation_number h) (elements h)
    (padding h) (tail_sentinel h) v (header_offset h) (collisions h)
    (collisions_found h) (duplicates h) (duplicates_found h)
    (invalid_elements_found h) (header_validity h) (element_location_min h)
    (element_location_max h) (duplicatess_found h) (erase_block_mask h).

Definition set_collisions (v : list (list Z)) (h : Ffff) : Ffff :=
  Build_Ffff (sentinel h) (timestamp h) (flash_image_name h)
    (flash_capacity h) (erase_block_size h) (header_size h)
    (flash_image_length h) (header_generation_number h) (elements h)
    (padding h) (tail_sentinel h) (ffff_buf h) (header_offset h) v
    (collisions_found h) (duplicates h) (duplicates_found h)
    (invalid_elements_found h) (header_validity h) (element_location_min h)
    (element_location_max h) (duplicatess_found h) (erase_block_mask h).

Definition set_collisions_found (v : bool) (h : Ffff) : Ffff :=
  Build_Ffff (sentinel h) (timestamp h) (flash_image_name h)
    (flash_capacity h) (erase_block_size h) (header_size h)
    (flash_image_length h) (header_generation_number h) (elements h)
    (padding h) (tail_sentinel h) (ffff_buf h) (header_offset h)
    (collisions h) v (duplicates h) (duplicates_found h)
    (invalid_elements_found h) (header_validity h) (element_location_min h)
    (element_location_max h) (duplicatess_found h) (erase_block_mask h).

Definition set_duplicates (v : list (list Z)) (h : Ffff) : Ffff :=
  Build_Ffff (sentinel h) (timestamp h) (flash_image_name h)
    (flash_capacity h) (erase_block_size h) (header_size h)
    (flash_image_length h) (header_generation_number h) (elements h)
    (padding h) (tail_sentinel h) (ffff_buf h) (header_offset h)
    (collisions h) (collisions_found h) v (duplicates_found h)
    (invalid_elements_found h) (header_validity h) (element_location_min h)
    (element_location_max h) (duplicatess_found h) (erase_block_mask h).

Definition set_duplicates_found (v : bool) (h : Ffff) : Ffff :=
  Build_Ffff (sentinel h) (timestamp h) (flash_image_name h)
    (flash_capacity h) (erase_block_size h) (header_size h)
    (flash_image_length h) (header_generation_number h) (elements h)
    (padding h) (tail_sentinel h) (ffff_buf h) (header_offset h)
    (collisions h) (collisions_found h) (duplicates h) v
    (invalid_elements_found h) (header_validity h) (element_location_min h)
    (element_location_max h) (duplicatess_found h) (erase_block_mask h).

Definition set_invalid_elements_found (v : bool) (h : Ffff) : Ffff :=
  Build_Ffff (sentinel h) (timestamp h) (flash_image_name h)
    (flash_capacity h) (erase_block_size h) (header_size h)
    (flash_image_length h) (header_generation_number h) (elements h)
    (padding h) (tail_sentinel h) (ffff_buf h) (header_offset h)
    (collisions h) (collisions_found h) (duplicates h) (duplicates_found h)
    v (header_validity h) (element_location_min h) (element_location_max h)
    (duplicatess_found h) (erase_block_mask h).

Definition set_header_validity (v : hdr_validity) (h : Ffff) : Ffff :=
  Build_Ffff (sentinel h) (timestamp h) (flash_image_name h)
    (flash_capacity h) (erase_block_size h) (header_size h)
    (flash_image_length h) (header_generation_number h) (elements h)
    (padding h) (tail_sentinel h) (ffff_buf h) (header_offset h)
    (collisions h) (collisions_found h) (duplicates h) (duplicates_found h)
    (invalid_elements_found h) v (element_location_min h)
    (element_location_max h) (duplicatess_found h) (erase_block_mask h).

Definition set_element_location_min (v : Z) (h : Ffff) : Ffff :=
  Build_Ffff (sentinel h) (timestamp h) (flash_image_name h)
    (flash_capacity h) (erase_block_size h) (header_size h)
    (flash_image_length h) (header_generation_number h) (elements h)
    (padding h) (tail_sentinel h) (ffff_buf h) (header_offset h)
    (collisions h) (collisions_found h) (duplicates h) (duplicates_found h)
    (invalid_elements_found h) (header_validity h) v
    (element_location_max h) (duplicatess_found h) (erase_block_mask h).

Definition set_element_location_max (v : Z) (h : Ffff) : Ffff :=
  Build_Ffff (sentinel h) (timestamp h) (flash_image_name h)
    (flash_capacity h) (erase_block_size h) (header_size h)
    (flash_image_length h) (header_generation_number h) (elements h)
    (padding h) (tail_sentinel h) (ffff_buf h) (header_offset h)
    (collisions h) (collisions_found h) (duplicates h) (duplicates_found h)
    (invalid_elements_found h) (header_validity h) (element_location_min h)
    v (duplicatess_found h) (erase_block_mask h).

Definition set_duplicatess_found (v : option bool) (h : Ffff) : Ffff :=
  Build_Ffff (sentinel h) (timestamp h) (flash_image_name h)
    (flash_capacity h) (erase_block_size h) (header_size h)
    (flash_image_length h) (header_generation_number h) (elements h)
    (padding h) (tail_sentinel h) (ffff_buf h) (header_offset h)
    (collisions h) (collisions_found h) (duplicates h) (duplicates_found h)
    (invalid_elements_found h) (header_validity h) (element_location_min h)
    (element_location_max h) v (erase_block_mask h).

Definition set_erase_block_mask (v : option Z) (h : Ffff) : Ffff :=
  Build_Ffff (sentinel h) (timestamp h) (flash_image_name h)
    (flash_capacity h) (erase_block_size h) (header_size h)
    (flash_image_length h) (header_generation_number h) (elements h)
    (padding h) (tail_sentinel h) (ffff_buf h) (header_offset h)
    (collisions h) (collisions_found h) (duplicates h) (duplicates_found h)
    (invalid_elements_found h) (header_validity h) (element_location_min h)
    (element_location_max h) (duplicatess_found h) v.

Section FfffMethods.
Context `{K : FfffConsts} `{E : FfffElementOps}.

(** [FfffElement(index, buf, capacity, erase_block_size, type, id,
    generation, location, length, filename)] *)
Definition new_element (idx capacity ebs ty id gen loc len : Z)
    (file : option string) : FfffElement :=
  {| index := idx; elt_flash_capacity := capacity;
     elt_erase_block_size := ebs; element_type := ty; element_id := id;
     element_generation := gen; element_location := loc;
     element_length := len; filename := file; tftf_buf := [] |}.

(** [Ffff.__init__]: [2 * self.header_block_size()] raises when the
    block size is [None]. *)
Definition Ffff_init (buf : list Z) (offset : Z) (name : list Z)
    (capacity ebs image_length generation : Z) : option Ffff :=
  hbs ← header_block_size ebs;
  Some {| sentinel := []; timestamp := []; flash_image_name := name;
          flash_capacity := capacity; erase_block_size := ebs;
          header_size := FFFF_HDR_LENGTH;
          flash_image_length := image_length;
          header_generation_number := generation; elements := [];
          padding := []; tail_sentinel := []; ffff_buf := buf;
          header_offset := offset; collisions := [];
          collisions_found := false; duplicates := [];
          duplicates_found := false; invalid_elements_found := false;
          header_validity := FFFF_HDR_VALID;
          element_location_min := 2 * hbs;
          element_location_max := image_length;
          duplicatess_found := None; erase_block_mask := None |}.

(** *** [validate_element_table] *)

(** One pass of the body of the inner loop for [elt_b] at index
    [j ≠ i], after the end-of-table test: the collision check, then the
    duplicate check.  The state is the header with the two lists
    [collision] and [duplicate]. *)
Definition pair_step (elt_a : FfffElement) (j : nat)
    (elt_b : FfffElement) (st : Ffff * list Z * list Z)
  : Ffff * list Z * list Z :=
  let '(h, collision, duplicate) := st in
  let start_a := element_location elt_a in
  let end_a := start_a + element_length elt_a - 1 in
  let start_b := element_location elt_b in
  let end_b := start_b + element_length elt_b - 1 in
  let '(h, collision) :=
    if (end_b >=? start_a) && (start_b <=? end_a)
    then (set_collisions_found true h, collision ++ [Z.of_nat j])
    else (h, collision) in
  let '(h, duplicate) :=
    if (element_type elt_a =? element_type elt_b)
       && (element_id elt_a =? element_id elt_b)
       && (element_generation elt_a =? element_generation elt_b)
    then (set_duplicatess_found (Some true) h, duplicate ++ [Z.of_nat j])
    else (h, duplicate) in
  (h, collision, duplicate).

(** The inner loop [for j, elt_b in enumerate(self.elements)] of the
    element [elt_a] at index [i], from index [j] on. *)
Fixpoint pair_loop (i : nat) (elt_a : FfffElement) (j : nat)
    (rest : list FfffElement) (st : Ffff * list Z * list Z)
  : Ffff * list Z * list Z :=
  match rest with
  | [] => st
  | elt_b :: rest' =>
      if Nat.eqb i j then pair_loop i elt_a (S j) rest' st
      else if element_type elt_b =? FFFF_ELEMENT_END_OF_ELEMENT_TABLE
      then st
      else pair_loop i elt_a (S j) rest' (pair_step elt_a j elt_b st)
  end.

(** The individual validity check of [elt_a]. *)
Definition check_element (elt_a : FfffElement) (h : Ffff) : Ffff :=
  if negb (element_validate elt_a (element_location_min h)
             (element_location_max h))
  then set_invalid_elements_found true h else h.

(** The check of [elt_a] against the two header blocks, each of size
    [hbs]; it opens the list [collision]. *)
Definition check_header_collision (elt_a : FfffElement) (hbs : Z)
    (h : Ffff) : Ffff * list Z :=
  if element_location elt_a <? 2 * hbs
  then (set_collisions_found true h, [FFFF_HEADER_COLLISION])
  else (h, []).

(** The body of the outer loop for [elt_a] at index [i], after the
    end-of-table test.  [2 * self.header_block_size()] raises when the
    block size is [None]. *)
Definition table_step (i : nat) (elt_a : FfffElement) (h : Ffff)
  : option Ffff :=
  let h := check_element elt_a h in
  hbs ← header_block_size (erase_block_size h);
  let '(h, collision) := check_header_collision elt_a hbs h in
  let '(h, collision, duplicate) :=
    pair_loop i elt_a 0 (elements h) (h, collision, []) in
  let h := set_collisions (collisions h ++ [collision]) h in
  let h := set_duplicates (duplicates h ++ [duplicate]) h in
  Some h.

(** The outer loop [for i, elt_a in enumerate(self.elements)], from
    index [i] on. *)
Fixpoint table_loop (i : nat) (rest : list FfffElement) (h : Ffff)
  : option Ffff :=
  match rest with
  | [] => Some h
  | elt_a :: rest' =>
      if element_type elt_a =? FFFF_ELEMENT_END_OF_ELEMENT_TABLE
      then Some h
      else h ← table_step i elt_a h; table_loop (S i) rest' h
  end.

Definition validate_element_table (h : Ffff) : option (Ffff * bool) :=
  let h := set_collisions [] h in
  let h := set_collisions_found false h in
  let h := set_duplicates [] h in
  let h := set_duplicates_found false h in
  let h := set_invalid_elements_found false h in
  h ← table_loop 0 (elements h) h;
  Some (h, negb (collisions_found h) && negb (duplicates_found h)
           && negb (invalid_elements_found h)).

(** *** [validate_ffff_header] *)

(** The bounds of the slice that the padding check reads. *)
Definition padding_span (h : Ffff) : Z * Z :=
  let span_start :=
    header_offset h + FFFF_HDR_OFF_ELEMENT_TBL
    + Z.of_nat (length (elements h)) * FFFF_ELT_LENGTH in
  let span_end :=
    header_offset h + FFFF_HDR_OFF_TAIL_SENTINEL - span_start in
  (span_start, span_end).

Definition validate_ffff_header (h : Ffff)
  : option (Ffff * hdr_validity) :=
  let h := set_header_validity FFFF_HDR_VALID h in
  let span := py_slice (ffff_buf h) (header_offset h)
                (header_offset h + FFFF_HDR_LENGTH) in
  if is_constant_fill span 0 || is_constant_fill span 255
  then Some (set_header_validity FFFF_HDR_ERASED h, FFFF_HDR_ERASED)
  else if negb (bool_decide (sentinel h = FFFF_SENTINEL))
          || negb (bool_decide (tail_sentinel h = FFFF_SENTINEL))
  then Some (set_header_validity FFFF_HDR_INVALID h, FFFF_HDR_INVALID)
  else if negb (is_power_of_2 (erase_block_size h))
  then Some (set_header_validity FFFF_HDR_INVALID h, FFFF_HDR_INVALID)
  else if negb (flash_image_length h `mod` erase_block_size h =? 0)
  then Some (set_header_validity FFFF_HDR_INVALID h, FFFF_HDR_INVALID)
  else
    let '(span_start, span_end) := padding_span h in
    if negb (is_constant_fill (py_slice (ffff_buf h) span_start span_end)
               0)
    then Some (set_header_validity FFFF_HDR_INVALID h, FFFF_HDR_INVALID)
    else
      '(h, ok) ← validate_element_table h;
      if negb ok
      then Some (set_header_validity FFFF_HDR_INVALID h,
                 FFFF_HDR_INVALID)
      else Some (h, header_validity h).

(** *** [unpack] *)

(** [for index in range(FFFF_MAX_ELEMENTS)] with [n] indices left:
    entries are appended until one decodes as unused. *)
Fixpoint unpack_loop (n : nat) (idx offset : Z) (h : Ffff)
  : option Ffff :=
  match n with
  | O => Some h
  | S n' =>
      let element :=
        new_element idx (flash_capacity h) (erase_block_size h)
          0 0 0 0 0 None in
      '(element, unused) ← element_unpack element (ffff_buf h) offset;
      if negb unused
      then unpack_loop n' (idx + 1) (offset + FFFF_ELT_LENGTH)
             (set_elements (elements h ++ [element]) h)
      else Some h
  end.

(** The first part of [unpack]: the fixed fields, the trailing
    sentinel, the range for the elements and the empty table. *)
Definition unpack_fixed (h : Ffff) : option Ffff :=
  (* "<16s16s48sLLLLL" *)
  ffff_hdr ← unpack_from 100 (ffff_buf h) (header_offset h);
  let h := set_sentinel (field 0 16 ffff_hdr) h in
  let h := set_timestamp (field 16 16 ffff_hdr) h in
  let h := set_flash_image_name (field 32 48 ffff_hdr) h in
  let h := set_flash_capacity (unpack_L (field 80 4 ffff_hdr)) h in
  let h := set_erase_block_size (unpack_L (field 84 4 ffff_hdr)) h in
  let h := set_header_size (unpack_L (field 88 4 ffff_hdr)) h in
  let h := set_flash_image_length (unpack_L (field 92 4 ffff_hdr)) h in
  let h :=
    set_header_generation_number (unpack_L (field 96 4 ffff_hdr)) h in
  ffff_hdr ← unpack_from 16 (ffff_buf h)
               (header_offset h + FFFF_HDR_OFF_TAIL_SENTINEL);
  let h := set_tail_sentinel ffff_hdr h in
  hbs ← header_block_size (erase_block_size h);
  let h := set_element_location_min (2 * hbs) h in
  let h := set_element_location_max (flash_capacity h) h in
  Some (set_elements [] h).

Definition unpack (h : Ffff) : option Ffff :=
  h ← unpack_fixed h;
  h ← unpack_loop (Z.to_nat FFFF_MAX_ELEMENTS) 0
        FFFF_HDR_OFF_ELEMENT_TBL h;
  '(h, _) ← validate_ffff_header h;
  Some h.

(** *** [pack] *)

(** [for element in self.elements: offset = element.pack(buf, offset)] *)
Fixpoint pack_elements (elts : list FfffElement) (buf : list Z)
    (offset : Z) : option (list Z * Z) :=
  match elts with
  | [] => Some (buf, offset)
  | element :: rest =>
      '(buf, offset) ← element_pack element buf offset;
      pack_elements rest buf offset
  end.

(** Python's truth value of a string. *)
Definition nonempty (s : list Z) : bool :=
  match s with [] => false | _ => true end.

(** [now] is the value of [strftime("%Y%m%d %H%M%S", gmtime())] at
    the time of the call. *)
Definition pack (now : list Z) (h : Ffff) : option Ffff :=
  buf ← pack_into (ffff_buf h) (header_offset h)
          (pack_s 16 (sentinel h) ++ pack_s 16 now);
  buf ← (if nonempty (flash_image_name h)
         then pack_into buf
                (header_offset h + FFFF_HDR_OFF_FLASH_IMAGE_NAME)
                (pack_s 48 (flash_image_name h))
         else Some buf);
  sizes ← pack_LLLLL (flash_capacity h) (erase_block_size h)
            FFFF_HDR_LENGTH (flash_image_length h)
            (header_generation_number h);
  buf ← pack_into buf (header_offset h + FFFF_HDR_OFF_FLASH_CAPACITY)
          sizes;
  buf ← pack_into buf (header_offset h + FFFF_HDR_OFF_TAIL_SENTINEL)
          (pack_s 16 (tail_sentinel h));
  '(buf, _) ← pack_elements (elements h) buf
                (header_offset h + FFFF_HDR_OFF_ELEMENT_TBL);
  Some (set_ffff_buf buf h).

(** *** [add_element] *)

(** The header after the call and the success flag.  [error] only
    prints. *)
Definition add_element (h : Ffff)
    (ty id gen loc len : Z) (file : string) : Ffff * bool :=
  if Z.of_nat (length (elements h)) <? FFFF_MAX_ELEMENTS then
    let element :=
      new_element (Z.of_nat (length (elements h))) (flash_capacity h)
        (erase_block_size h) ty id gen loc len (Some file) in
    match element_init element with
    | Some element =>
        let h := set_elements (elements h ++ [element]) h in
        let span_start := element_location element in
        let span_end :=
          span_start + Z.of_nat (length (tftf_buf element)) in
        (set_ffff_buf
           (py_slice_assign (ffff_buf h) span_start span_end
              (tftf_buf element)) h, true)
    | None => (h, false)
    end
  else (h, false).

(** *** [post_process] *)

(** The scan that fills in missing start locations; [location] is the
    running cursor.  [None] is [sys.exit(PROGRAM_ERRORS)]. *)
Fixpoint layout_loop (image_length ebs : Z) (elts : list FfffElement)
    (location : Z) : option (list FfffElement * Z) :=
  match elts with
  | [] => Some ([], location)
  | element :: rest =>
      let element :=
        if element_location element =? 0
        then set_element_location location element else element in
      if negb (image_length =? 0)
         && (element_location element + element_length element
             >=? image_length)
      then None
      else
        let location :=
          next_boundary
            (element_location element + element_length element) ebs in
        '(rest, location) ← layout_loop image_length ebs rest location;
        Some (element :: rest, location)
  end.

(** The first part of [post_process]: the scan, and the image length
    when it was left at 0.  [self.elements[0]] raises on an empty
    table. *)
Definition post_process_layout (h : Ffff) : option Ffff :=
  let h := set_erase_block_mask (Some (erase_block_size h - 1)) h in
  first ← elements h !! 0%nat;
  '(elts, location) ←
    layout_loop (flash_image_length h) (erase_block_size h)
      (elements h) (element_location first);
  let h := set_elements elts h in
  Some (if flash_image_length h =? 0
        then set_flash_image_length location h else h).

(** "fill in and/or trim selected FFFF fields" *)
Definition post_process_fields (now_field : list Z) (h : Ffff) : Ffff :=
  let h := set_sentinel FFFF_SENTINEL h in
  let h := set_timestamp now_field h in
  let h :=
    if nonempty (flash_image_name h)
    then set_flash_image_name
           (py_slice (flash_image_name h) 0
              FFFF_FLASH_IMAGE_NAME_LENGTH) h
    else h in
  set_tail_sentinel FFFF_SENTINEL h.

(** [now_field] and [now_pack] are the two clock readings, the first
    stored in the instance, the second taken by [pack]. *)
Definition post_process (now_field now_pack : list Z) (h : Ffff)
  : option Ffff :=
  h ← post_process_layout h;
  '(h, _) ← validate_element_table h;
  let h := post_process_fields now_field h in
  h ← pack now_pack h;
  '(h, _) ← validate_ffff_header h;
  Some h.

End FfffMethods.

(** ** A concrete layout and element codec *)

Module Sample.

(** Modelled from the spec: the module [ffff_element.py] with the
    constants is missing, so a layout is fixed here for running the
    code on concrete inputs.  The widths 16, 16, 48 and five 32-bit
    fields of the binary layout put the image name at 32, the capacity
    at 80 and the end of the fixed part at 100; the header length 512,
    the trailing sentinel in its last 16 bytes, 19 entries of 20 bytes,
    the end-of-table type 0 and the other values are sample values.
    No general theorem depends on them. *)
#[export] Instance consts : FfffConsts := {|
  FFFF_HDR_LENGTH := 512;
  FFFF_MAX_HEADER_BLOCK_SIZE := 65536;
  FFFF_HDR_OFF_TAIL_SENTINEL := 496;
  FFFF_HDR_OFF_ELEMENT_TBL := 100;
  FFFF_MAX_ELEMENTS := 19;
  FFFF_ELT_LENGTH := 20;
  FFFF_HDR_OFF_FLASH_IMAGE_NAME := 32;
  FFFF_HDR_OFF_FLASH_CAPACITY := 80;
  FFFF_FLASH_IMAGE_NAME_LENGTH := 48;
  FFFF_ELEMENT_END_OF_ELEMENT_TABLE := 0;
  FFFF_HEADER_COLLISION := -1;
  (* "FlashFormatForFW" *)
  FFFF_SENTINEL := [70; 108; 97; 115; 104; 70; 111; 114; 109; 97; 116;
                    70; 111; 114; 70; 87]
|}.

(** Modelled from the spec: the class [FfffElement] is missing; this
    codec follows the consumed contract of the specification.  An entry
    is the five 32-bit fields type, id, generation, location and
    length; it decodes as unused when its type is the end-of-table
    marker; encoding returns the offset after the entry; validation
    checks the span against the permitted range; construction loads a
    blob of the claimed length. *)
#[export] Instance ops : FfffElementOps := {|
  element_validate e lo hi :=
    (lo <=? element_location e)
    && (element_location e + element_length e <=? hi);
  element_unpack e buf offset :=
    raw ← unpack_from 20 buf offset;
    let ty := unpack_L (field 0 4 raw) in
    Some (Build_FfffElement (index e) (elt_flash_capacity e)
            (elt_erase_block_size e) ty (unpack_L (field 4 4 raw))
            (unpack_L (field 8 4 raw)) (unpack_L (field 12 4 raw))
            (unpack_L (field 16 4 raw)) (filename e) (tftf_buf e),
          ty =? FFFF_ELEMENT_END_OF_ELEMENT_TABLE);
  element_pack e buf offset :=
    raw ← pack_LLLLL (element_type e) (element_id e)
            (element_generation e) (element_location e)
            (element_length e);
    buf ← pack_into buf offset raw;
    Some (buf, offset + 20);
  element_init e :=
    Some (Build_FfffElement (index e) (elt_flash_capacity e)
            (elt_erase_block_size e) (element_type e) (element_id e)
            (element_generation e) (element_location e)
            (element_length e) (filename e)
            (replicate (Z.to_nat (element_length e)) 165))
|}.

(** A blank header on a zeroed flash buffer of [size] bytes. *)
Definition blank (size offset capacity ebs image_length : Z)
  : option Ffff :=
  Ffff_init (replicate (Z.to_nat size) 0) offset [] capacity ebs
    image_length 0.

Definition elt (idx ty id gen loc len : Z) : FfffElement :=
  new_element idx 8192 64 ty id gen loc len None.

(** The instance that every run below starts from when the
    constructor raises (it does not, for these inputs). *)
Definition no_header : Ffff :=
  Build_Ffff [] [] [] 0 0 0 0 0 [] [] [] [] 0 [] false [] false false
    FFFF_HDR_VALID 0 0 None None.

(** A blank header of capacity and image length 8192 with erase
    blocks of 64 bytes on a zeroed buffer of 8192 bytes, as the
    constructor leaves it; and the same without an image length. *)
Definition fresh : Ffff :=
  default no_header (blank 8192 0 8192 64 8192).

Definition unsized : Ffff := default no_header (blank 8192 0 8192 64 0).

(** The same with both sentinels and an old time stamp "1999" set. *)
Definition stamped : Ffff :=
  set_timestamp [49; 57; 57; 57]
    (set_tail_sentinel FFFF_SENTINEL (set_sentinel FFFF_SENTINEL fresh)).

(** The clock reading "20150101 000000". *)
Definition clock : list Z :=
  [50; 48; 49; 53; 48; 49; 48; 49; 32; 48; 48; 48; 48; 48; 48].

(** An authored header with the given name and elements. *)
Definition authored (name : list Z) (elts : list FfffElement) : Ffff :=
  set_elements elts (set_flash_image_name name stamped).

(** The instance over which an existing image is loaded: the header
    at [offset] of the buffer [buf], nothing known yet. *)
Definition loading (buf : list Z) (offset : Z) : Ffff :=
  default no_header (Ffff_init buf offset [] 0 0 0 0).

(** The buffer after [pack], or the buffer as it was when [pack]
    raises. *)
Definition packed (h : Ffff) : list Z :=
  default (ffff_buf h) (ffff_buf <$> pack clock h).

(** Two entries with the identity (type 1, id 5, generation 2) at
    different, disjoint locations. *)
Definition two_duplicates : list FfffElement :=
  [elt 0 1 5 2 2048 100; elt 1 1 5 2 4096 100].

(** The flash image that holds them. *)
Definition image_with_duplicates : list Z :=
  packed (authored [] two_duplicates).

(** A flash image with one entry, which ends at byte 120 of the
    header, and the byte 0xAA at byte 400 of the header, before the
    trailing sentinel at 496. *)
Definition image_with_dirty_padding : list Z :=
  <[400%nat := 170]> (packed (authored [] [elt 0 1 5 2 2048 100])).

(** Two elements at [0x1000, 0x1100) and [0x1080, 0x1180). *)
Definition overlapping : Ffff :=
  authored [] [elt 0 1 5 2 4096 256; elt 1 2 6 1 4224 256].

(** Three elements of lengths 100, 250 and 50 without a location. *)
Definition to_be_placed : Ffff :=
  set_elements [elt 0 1 5 2 0 100; elt 1 1 6 2 0 250; elt 2 1 7 2 0 50]
    unsized.

(** A table that holds the maximum number of elements. *)
Definition full_table : Ffff :=
  set_elements (replicate 19 (elt 0 1 5 2 2048 100)) fresh.

(** An instance whose fields are garbage, over a header region filled
    with 0xFF. *)
Definition erased_ff : Ffff :=
  set_ffff_buf (replicate (Z.to_nat 8192) 255)
    (set_erase_block_size 3 (set_sentinel [1; 2; 3] fresh)).

(** An authored header named "abc". *)
Definition named_abc : Ffff :=
  authored [97; 98; 99] [elt 0 1 5 2 2048 100].

(** A flash image with a first header copy at 0, whose table holds one
    entry, and a second copy at 4096 whose table is [elts]. *)
Definition image_with_second_copy (elts : list FfffElement) : list Z :=
  let first := packed (authored [] [elt 0 1 5 2 2048 100]) in
  let second :=
    Build_Ffff FFFF_SENTINEL [] [] 8192 64 FFFF_HDR_LENGTH 8192 0 elts []
      FFFF_SENTINEL first 4096 [] false [] false false FFFF_HDR_VALID
      1026 8192 None None in
  packed second.

End Sample.

(** ** Vocabulary of the statements *)

Section Vocabulary.
Context `{K : FfffConsts}.

(** The header fields proper. *)
Definition header_fields (h : Ffff) :=
  (sentinel h, timestamp h, flash_image_name h, flash_capacity h,
   erase_block_size h, header_size h, flash_image_length h,
   header_generation_number h, elements h, padding h, tail_sentinel h).

(** Everything but the verdict and the diagnostics of the validator. *)
Definition validation_frame (h : Ffff) :=
  (header_fields h, ffff_buf h, header_offset h, element_location_min h,
   element_location_max h, erase_block_mask h).

(** What the scan of the element table leaves alone. *)
Definition scan_frame (h : Ffff) :=
  (validation_frame h, duplicates_found h, header_validity h).

(** What the checks of one element leave alone: they only raise
    flags. *)
Definition row_frame (h : Ffff) :=
  (scan_frame h, collisions h, duplicates h).

(** The live entries: those before the first end-of-table marker. *)
Fixpoint live_elements (l : list FfffElement) : list FfffElement :=
  match l with
  | [] => []
  | e :: rest =>
      if element_type e =? FFFF_ELEMENT_END_OF_ELEMENT_TABLE then []
      else e :: live_elements rest
  end.

(** The byte ranges [[location, location + length - 1]] of [a] and [b]
    overlap: [end_b ≥ start_a] and [start_b ≤ end_a]. *)
Definition ranges_overlap (a b : FfffElement) : Prop :=
  element_location a <= element_location b + element_length b - 1
  ∧ element_location b <= element_location a + element_length a - 1.

(** Two buffers hold the same bytes at the indices from [lo] up to,
    but not including, [hi]; and everywhere but there. *)
Definition agree_on (b1 b2 : list Z) (lo hi : Z) : Prop :=
  ∀ i : nat, lo <= Z.of_nat i < hi → b1 !! i = b2 !! i.

Definition agree_outside (b1 b2 : list Z) (lo hi : Z) : Prop :=
  length b1 = length b2
  ∧ ∀ i : nat, ¬ (lo <= Z.of_nat i < hi) → b1 !! i = b2 !! i.

(** Two results of decoding an entry that tell the same: both raise,
    or both give the same entry and the same "unused" flag. *)
Definition same_decode (r1 r2 : option (FfffElement * bool)) : Prop :=
  match r1, r2 with
  | Some (e1, u1), Some (e2, u2) =>
      element_entry e1 = element_entry e2 ∧ u1 = u2
  | None, None => True
  | _, _ => False
  end.

Context `{E : FfffElementOps}.

(** The contract that the header codec relies on (the element codec
    itself is a separate class).  Decoding an entry reads the
    [FFFF_ELT_LENGTH] bytes at its offset and nothing else. *)
Definition unpack_reads_entry_only : Prop :=
  ∀ e1 e2 b1 b2 off,
    0 <= off → length b1 = length b2 →
    agree_on b1 b2 off (off + FFFF_ELT_LENGTH) →
    same_decode (element_unpack e1 b1 off) (element_unpack e2 b2 off).

(** Encoding an entry writes the [FFFF_ELT_LENGTH] bytes at its offset
    and nothing else, and returns the offset after them. *)
Definition pack_writes_entry_only : Prop :=
  ∀ e buf off buf' off',
    element_pack e buf off = Some (buf', off') → 0 <= off →
    off' = off + FFFF_ELT_LENGTH
    ∧ agree_outside buf' buf off (off + FFFF_ELT_LENGTH).

(** Decoding an entry where it was encoded gives the entry back, and
    flags it unused exactly when its type is the end-of-table
    marker. *)
Definition unpack_inverts_pack : Prop :=
  ∀ e e0 buf off buf' off',
    element_pack e buf off = Some (buf', off') → 0 <= off →
    ∃ e', element_unpack e0 buf' off
          = Some (e', element_type e =? FFFF_ELEMENT_END_OF_ELEMENT_TABLE)
          ∧ element_entry e' = element_entry e.

(** The fields of the binary layout do not overlap: the fixed part of
    100 bytes with the name at 32 and the sizes at 80, then the table,
    then the trailing sentinel. *)
Definition layout_ok : Prop :=
  FFFF_HDR_OFF_FLASH_IMAGE_NAME = 32
  ∧ FFFF_HDR_OFF_FLASH_CAPACITY = 80
  ∧ 100 <= FFFF_HDR_OFF_ELEMENT_TBL
  ∧ 0 <= FFFF_ELT_LENGTH
  ∧ 0 <= FFFF_MAX_ELEMENTS
  ∧ FFFF_HDR_OFF_ELEMENT_TBL + FFFF_MAX_ELEMENTS * FFFF_ELT_LENGTH
    <= FFFF_HDR_OFF_TAIL_SENTINEL.

(** The scalar header fields other than the time stamp. *)
Definition scalar_fields (h : Ffff) :=
  (sentinel h, flash_image_name h, flash_capacity h, erase_block_size h,
   header_size h, flash_image_length h, header_generation_number h,
   tail_sentinel h).

(** What decoding gives for the scalar fields of an encoded header:
    the strings cut or zero-padded to their width, the fresh time
    stamp, the constant header size. *)
Definition decoded_scalars (now : list Z) (h hd : Ffff) : Prop :=
  sentinel hd = pack_s 16 (sentinel h)
  ∧ timestamp hd = pack_s 16 now
  ∧ (flash_image_name h ≠ [] →
     flash_image_name hd = pack_s 48 (flash_image_name h))
  ∧ flash_capacity hd = flash_capacity h
  ∧ erase_block_size hd = erase_block_size h
  ∧ header_size hd = FFFF_HDR_LENGTH
  ∧ flash_image_length hd = flash_image_length h
  ∧ header_generation_number hd = header_generation_number h
  ∧ tail_sentinel hd = pack_s 16 (tail_sentinel h).

(** The round trip as the specification words it: decoding the buffer
    that encoding [h] produced gives the elements and the scalar fields
    of [h] back. *)
Definition round_trip (now : list Z) (h : Ffff) : Prop :=
  ∃ hp hd,
    pack now h = Some hp ∧ unpack hp = Some hd
    ∧ element_entry <$> elements hd = element_entry <$> elements h
    ∧ scalar_fields hd = scalar_fields h.

End Vocabulary.

(** ** [same_as] *)

Section SameAs.

(** [element.same_as(other)] of [FfffElement], which is not among the
    sources: a parameter. *)
Variable element_same_as : FfffElement → FfffElement → bool.

(** [for i in range(len(self.elements))], run when both tables have
    the same length: [false] is the early [return False]. *)
Fixpoint same_as_loop (self other : list FfffElement) : bool :=
  match self, other with
  | a :: self', b :: other' =>
      if negb (element_same_as a b) then false
      else same_as_loop self' other'
  | _, _ => true
  end.

Definition same_as (self other : Ffff) : bool :=
  let elements_match :=
    Nat.eqb (length (elements self)) (length (elements other)) in
  if elements_match
     && negb (same_as_loop (elements self) (elements other))
  then false
  else
    elements_match
    && bool_decide (sentinel self = sentinel other)
    && bool_decide (timestamp self = timestamp other)
    && bool_decide (flash_image_name self = flash_image_name other)
    && (flash_capacity self =? flash_capacity other)
    && (erase_block_size self =? erase_block_size other)
    && (header_size self =? header_size other)
    && (flash_image_length self =? flash_image_length other)
    && (header_generation_number self =? header_generation_number other)
    && bool_decide (padding self = padding other)
    && bool_decide (tail_sentinel self = tail_sentinel other).

End SameAs.

(** ** More vocabulary *)

Section MoreVocabulary.
Context `{K : FfffConsts} `{E : FfffElementOps}.

(** The test that opens [validate_ffff_header]: the header region
    reads as all 0x00 or all 0xFF. *)
Definition header_erased (h : Ffff) : bool :=
  let span := py_slice (ffff_buf h) (header_offset h)
                (header_offset h + FFFF_HDR_LENGTH) in
  is_constant_fill span 0 || is_constant_fill span 255.

(** The collision test and the duplicate test of the inner loop. *)
Definition overlapb (a b : FfffElement) : bool :=
  (element_location b + element_length b - 1 >=? element_location a)
  && (element_location b <=? element_location a + element_length a - 1).

Definition same_identityb (a b : FfffElement) : bool :=
  (element_type a =? element_type b)
  && (element_id a =? element_id b)
  && (element_generation a =? element_generation b).

(** [a] and [b] share the triple (type, id, generation). *)
Definition same_identity (a b : FfffElement) : Prop :=
  element_type a = element_type b
  ∧ element_id a = element_id b
  ∧ element_generation a = element_generation b.

(** The inner loop of the element at index [i], started at index [j]
    of the list [rest], reaches [b] at position [m] of [rest]: [b] is
    not the element [i] itself and no entry up to it, other than the
    element [i], is an end-of-table marker. *)
Definition reached (i j : nat) (rest : list FfffElement) (m : nat)
    (b : FfffElement) : Prop :=
  rest !! m = Some b ∧ (j + m)%nat ≠ i
  ∧ ∀ (p : nat) e, (p <= m)%nat → (j + p)%nat ≠ i → rest !! p = Some e →
      element_type e ≠ FFFF_ELEMENT_END_OF_ELEMENT_TABLE.

(** What the two rows of the live entry [a] at index [i] hold after
    the element table check: the collision row holds the header
    marker when [a] starts inside the two header blocks, and the
    indices of the other live entries that overlap [a]; the duplicate
    row holds the indices of the other live entries with the identity
    of [a]. *)
Definition row_spec (hbs : Z) (all : list FfffElement) (i : nat)
    (a : FfffElement) (row drow : list Z) : Prop :=
  (∀ x, x ∈ row ↔
        (x = FFFF_HEADER_COLLISION ∧ element_location a < 2 * hbs)
        ∨ ∃ (j : nat) b, x = Z.of_nat j ∧ j ≠ i
                         ∧ live_elements all !! j = Some b
                         ∧ ranges_overlap a b)
  ∧ (∀ x, x ∈ drow ↔
          ∃ (j : nat) b, x = Z.of_nat j ∧ j ≠ i
                         ∧ live_elements all !! j = Some b
                         ∧ same_identity a b).

(** The live entry [a] at index [i] is clean: it passes its own
    validation, starts after the two header blocks and overlaps no
    other live entry. *)
Definition clean_entry (h : Ffff) (hbs : Z) (i : nat) (a : FfffElement)
  : Prop :=
  element_validate a (element_location_min h) (element_location_max h)
  = true
  ∧ 2 * hbs <= element_location a
  ∧ ∀ (j : nat) b, j ≠ i → live_elements (elements h) !! j = Some b →
      ¬ ranges_overlap a b.

End MoreVocabulary.

Section Observed.
Context `{K : FfffConsts}.

(** What the validator reads and what the table check computes; the
    attributes [header_validity] and [duplicatess_found] are left
    out. *)
Definition observed (h : Ffff) :=
  (validation_frame h, collisions h, collisions_found h, duplicates h,
   duplicates_found h, invalid_elements_found h).

End Observed.

(** ** More sample inputs *)

Module Cases.
Import Sample.

(** The header that loading [image_with_duplicates] gives. *)
Definition decoded : Ffff :=
  default no_header (unpack (loading image_with_duplicates 0)).

(** A table whose only element starts inside the header blocks. *)
Definition low_element : Ffff := authored [] [elt 0 1 5 2 512 100].

(** The image with duplicates under an erase block size of 3. *)
Definition odd_blocks : Ffff :=
  set_erase_block_size 3 (set_ffff_buf image_with_duplicates stamped).

(** The decoded header with diagnostics of an earlier run on it. *)
Definition decoded_flagged : Ffff :=
  set_header_validity FFFF_HDR_INVALID
    (set_collisions_found true decoded).

(** A flash buffer of 50 bytes, which ends inside the fixed part of
    the header. *)
Definition truncated : Ffff := loading (replicate 50 0) 0.

(** A flash capacity that does not fit 32 bits. *)
Definition oversized : Ffff := set_flash_capacity (2 ^ 32) stamped.

(** The element that [add_element] makes of a blob of 100 bytes for
    the location 2048, and the header after adding it to [fresh]. *)
Definition blob_element : FfffElement :=
  Build_FfffElement 0 8192 64 1 5 2 2048 100 (Some "blob"%string)
    (replicate 100 165).

Definition with_blob : Ffff :=
  (add_element fresh 1 5 2 2048 100 "blob").1.

(** The same on a flash buffer of 16 bytes. *)
Definition short_flash : Ffff := set_ffff_buf (replicate 16 0) fresh.

Definition short_with_blob : Ffff :=
  (add_element short_flash 1 5 2 2048 100 "blob").1.

(** Three elements to be placed, under a name of 50 letters "a". *)
Definition to_be_named : Ffff :=
  set_flash_image_name (replicate 50 97) to_be_placed.

(** An element that ends beyond the image length 8192. *)
Definition past_the_image : Ffff :=
  set_elements [elt 0 1 5 2 8000 500] fresh.

(** A comparison of elements by their table entries. *)
Definition entry_same_as (a b : FfffElement) : bool :=
  bool_decide (element_entry a = element_entry b).

(** [named_abc] over an empty buffer, marked INVALID. *)
Definition named_abc_elsewhere : Ffff :=
  set_header_validity FFFF_HDR_INVALID (set_ffff_buf [] named_abc).

(** [stamped] under the old time stamp "19990101 000000". *)
Definition restamped : Ffff :=
  set_timestamp
    [49; 57; 57; 57; 48; 49; 48; 49; 32; 48; 48; 48; 48; 48; 48]
    stamped.

(** A flash image with a first header copy at 0, of generation 0,
    whose table holds one entry, and a second copy at 4096, of
    generation 7, whose table is [elts]. *)
Definition image_with_newer_copy (elts : list FfffElement) : list Z :=
  let first := packed (authored [] [elt 0 1 5 2 2048 100]) in
  let second :=
    Build_Ffff FFFF_SENTINEL [] [] 8192 64 FFFF_HDR_LENGTH 8192 7 elts
      [] FFFF_SENTINEL first 4096 [] false [] false false
      FFFF_HDR_VALID 1026 8192 None None in
  packed second.

(** The instances over which its second copy is loaded when the
    table of that copy holds [two_duplicates], and when it is
    empty. *)
Definition newer_copy : Ffff :=
  loading (image_with_newer_copy two_duplicates) 4096.

Definition newer_copy_empty : Ffff :=
  loading (image_with_newer_copy []) 4096.

End Cases.

(** * Properties *)

(** Splits a hypothesis [x ← m; k = Some r] into [m = Some x] and the
    rest. *)
Ltac bind_inv H :=
  match type of H with
  | mbind _ ?m = Some _ =>
      let x := fresh "x" in
      let Hx := fresh "Hx" in
      destruct m as [x|] eqn:Hx; cbn [mbind option_bind] in H;
      [| discriminate H]
  end.

(** ** The header block size *)

Section HeaderBlockSizeFacts.
Context `{K : FfffConsts}.

(** The loop counts upwards one by one and stops at the first value
    above the header length. *)
Lemma header_block_size_loop_closed (n : nat) (size : Z) :
  header_block_size_loop n size =
    if decide (Z.max size (FFFF_HDR_LENGTH + 1) < size + Z.of_nat n)
    then Some (Z.max size (FFFF_HDR_LENGTH + 1)) else None.
Proof.
  revert size. induction n as [|n IH]; intros size; simpl.
  - case_decide; [lia | reflexivity].
  - destruct (size >? FFFF_HDR_LENGTH) eqn:Hgt.
    + rewrite Z.gtb_ltb in Hgt. apply Z.ltb_lt in Hgt.
      rewrite Z.max_l by lia.
      case_decide; [reflexivity | lia].
    + rewrite IH. rewrite Z.gtb_ltb in Hgt. apply Z.ltb_ge in Hgt.
      rewrite !Z.max_r by lia.
      repeat case_decide; try reflexivity; lia.
Qed.

Lemma header_block_size_closed (e : Z) :
  header_block_size e =
    if decide (Z.max e (FFFF_HDR_LENGTH + 1) < FFFF_MAX_HEADER_BLOCK_SIZE)
    then Some (Z.max e (FFFF_HDR_LENGTH + 1)) else None.
Proof.
  unfold header_block_size. rewrite header_block_size_loop_closed.
  repeat case_decide; try reflexivity; lia.
Qed.

Lemma spec_doubling_multiple (e : Z) (n : nat) (size : Z) :
  (e | size) → (e | spec_doubling n size).
Proof.
  revert size. induction n as [|n IH]; intros size Hd; simpl; [done |].
  destruct (size >? FFFF_HDR_LENGTH); [done |].
  apply IH. by apply Z.divide_mul_r.
Qed.

(** C2, as the code has it: for an erase block size that divides the
    header length (and is at least 2), [header_block_size] returns the
    header length plus one; this is no multiple of the erase block
    size at all, and it differs from the smallest power-of-2 multiple
    exceeding the header length, capped at the maximum, that the
    claim describes. *)
Theorem C2_header_block_size_counts_by_one (e : Z) :
  2 <= e →
  (e | FFFF_HDR_LENGTH) →
  0 < FFFF_HDR_LENGTH →
  FFFF_HDR_LENGTH + 1 < FFFF_MAX_HEADER_BLOCK_SIZE →
  header_block_size e = Some (FFFF_HDR_LENGTH + 1)
  ∧ ¬ (e | FFFF_HDR_LENGTH + 1)
  ∧ header_block_size e ≠ Some (spec_header_block_size e).
Proof.
  intros He Hdiv Hpos Hmax.
  assert (Hle : e <= FFFF_HDR_LENGTH) by (apply Z.divide_pos_le; [lia | done]).
  assert (Hnd : ¬ (e | FFFF_HDR_LENGTH + 1)).
  { intros Hd. assert (H1 : (e | 1)).
    { replace 1 with (FFFF_HDR_LENGTH + 1 - FFFF_HDR_LENGTH) by lia.
      by apply Z.divide_sub_r. }
    apply Z.divide_1_r_nonneg in H1; lia. }
  assert (Hcode : header_block_size e = Some (FFFF_HDR_LENGTH + 1)).
  { rewrite header_block_size_closed, Z.max_r by lia.
    case_decide; [reflexivity | lia]. }
  split_and!; [done | done |].
  rewrite Hcode. intros [= Heq]. unfold spec_header_block_size in Heq.
  destruct (Z.min_spec FFFF_MAX_HEADER_BLOCK_SIZE
              (spec_doubling (Z.to_nat FFFF_HDR_LENGTH + 1) e))
    as [[_ Hm]|[_ Hm]]; rewrite Hm in Heq; [lia |].
  apply Hnd. rewrite Heq. by apply spec_doubling_multiple.
Qed.

End HeaderBlockSizeFacts.

(** ** What the validator leaves alone *)

Section Frames.
Context `{K : FfffConsts} `{E : FfffElementOps}.

Lemma row_frame_scan_frame h h' :
  row_frame h = row_frame h' → scan_frame h = scan_frame h'.
Proof. unfold row_frame. intros Heq. injection Heq. intros.
       unfold scan_frame, validation_frame, header_fields. congruence. Qed.

Lemma scan_frame_validation_frame h h' :
  scan_frame h = scan_frame h' → validation_frame h = validation_frame h'.
Proof. unfold scan_frame. intros Heq. injection Heq. intros.
       unfold validation_frame, header_fields. congruence. Qed.

Lemma validation_frame_header_fields h h' :
  validation_frame h = validation_frame h' →
  header_fields h = header_fields h'.
Proof.
  unfold validation_frame. intros Heq. injection Heq. intros.
  unfold header_fields. congruence.
Qed.

Lemma header_fields_plan h h' :
  header_fields h = header_fields h' →
  elements h = elements h'
  ∧ flash_image_length h = flash_image_length h'.
Proof.
  unfold header_fields. intros Heq. injection Heq. intros.
  split; assumption.
Qed.

Lemma scan_frame_elements h h' :
  scan_frame h = scan_frame h' →
  elements h = elements h' ∧ erase_block_size h = erase_block_size h'
  ∧ duplicates_found h = duplicates_found h'.
Proof.
  unfold scan_frame, validation_frame, header_fields.
  intros Heq. injection Heq. intros. split_and!; assumption.
Qed.

Lemma pair_step_frame elt_a j elt_b h c d :
  row_frame (pair_step elt_a j elt_b (h, c, d)).1.1 = row_frame h.
Proof.
  unfold pair_step.
  repeat match goal with
         | |- context [if ?b then _ else _] => destruct b
         end; reflexivity.
Qed.

Lemma pair_loop_frame i elt_a rest : ∀ j st,
  row_frame (pair_loop i elt_a j rest st).1.1 = row_frame st.1.1.
Proof.
  induction rest as [|elt_b rest IH]; intros j st; simpl; [done |].
  destruct (Nat.eqb i j); [apply IH |].
  destruct (element_type elt_b =? _); [done |].
  rewrite IH. destruct st as [[h c] d]. apply pair_step_frame.
Qed.

Lemma check_element_frame elt_a h :
  row_frame (check_element elt_a h) = row_frame h.
Proof. unfold check_element. by destruct (negb _). Qed.

Lemma check_header_collision_frame elt_a hbs h :
  row_frame (check_header_collision elt_a hbs h).1 = row_frame h.
Proof. unfold check_header_collision. by destruct (_ <? _). Qed.

(** One pass of the outer loop appends one row to each of the two
    lists and otherwise only raises flags. *)
Lemma table_step_inv i elt_a h h' :
  table_step i elt_a h = Some h' →
  ∃ hbs h2 c2 h3 c3 d3,
    header_block_size (erase_block_size h) = Some hbs
    ∧ check_header_collision elt_a hbs (check_element elt_a h) = (h2, c2)
    ∧ pair_loop i elt_a 0 (elements h) (h2, c2, []) = (h3, c3, d3)
    ∧ row_frame h3 = row_frame h
    ∧ scan_frame h' = scan_frame h
    ∧ collisions h' = collisions h ++ [c3]
    ∧ duplicates h' = duplicates h ++ [d3]
    ∧ collisions_found h' = collisions_found h3
    ∧ invalid_elements_found h' = invalid_elements_found h3
    ∧ duplicatess_found h' = duplicatess_found h3.
Proof.
  unfold table_step. intros Hrun. bind_inv Hrun.
  pose proof (check_element_frame elt_a h) as He.
  pose proof (check_header_collision_frame elt_a x
                (check_element elt_a h)) as Hc.
  destruct (check_header_collision _ _ _) as [h2 c2] eqn:Hchk.
  pose proof (pair_loop_frame i elt_a (elements h2) 0 (h2, c2, []))
    as Hp.
  destruct (pair_loop _ _ _ _ _) as [[h3 c3] d3] eqn:Hpl.
  injection Hrun as <-. cbn [fst] in Hc, Hp.
  assert (Hrow2 : row_frame h2 = row_frame h) by congruence.
  assert (Hrow : row_frame h3 = row_frame h) by congruence.
  assert (Hel2 : elements h2 = elements h).
  { apply row_frame_scan_frame, scan_frame_elements in Hrow2.
    by destruct Hrow2 as [-> _]. }
  exists x, h2, c2, h3, c3, d3.
  assert (Hebs : erase_block_size (check_element elt_a h)
                 = erase_block_size h).
  { apply row_frame_scan_frame, scan_frame_elements in He.
    by destruct He as (_ & -> & _). }
  rewrite Hebs in Hx. rewrite Hel2 in Hpl.
  split_and!; try done.
  - apply row_frame_scan_frame in Hrow. rewrite <- Hrow. reflexivity.
  - simpl. unfold row_frame in Hrow. injection Hrow. intros _ -> _.
    reflexivity.
  - simpl. unfold row_frame in Hrow. injection Hrow. intros -> _ _.
    reflexivity.
Qed.

Lemma table_step_frame i elt_a h h' :
  table_step i elt_a h = Some h' → scan_frame h' = scan_frame h.
Proof.
  intros Hrun. apply table_step_inv in Hrun.
  destruct Hrun as (? & ? & ? & ? & ? & ? & _ & _ & _ & _ & Hs & _).
  exact Hs.
Qed.

Lemma table_loop_frame rest : ∀ i h h',
  table_loop i rest h = Some h' → scan_frame h' = scan_frame h.
Proof.
  induction rest as [|elt_a rest IH]; intros i h h' Hrun; simpl in Hrun.
  { by injection Hrun as <-. }
  destruct (element_type elt_a =? _); [by injection Hrun as <- |].
  bind_inv Hrun. apply IH in Hrun. apply table_step_frame in Hx.
  congruence.
Qed.

Lemma validate_element_table_frame h h' ok :
  validate_element_table h = Some (h', ok) →
  validation_frame h' = validation_frame h.
Proof.
  unfold validate_element_table. intros Hrun. bind_inv Hrun.
  injection Hrun as <- _.
  apply table_loop_frame, scan_frame_validation_frame in Hx.
  rewrite Hx. reflexivity.
Qed.

Lemma validate_ffff_header_frame h h' v :
  validate_ffff_header h = Some (h', v) →
  validation_frame h' = validation_frame h.
Proof.
  unfold validate_ffff_header. intros Hrun.
  repeat match type of Hrun with
         | (if ?b then _ else _) = _ =>
             destruct b; [by injection Hrun as <- _ |]
         end.
  unfold padding_span in Hrun.
  match type of Hrun with
  | (if ?b then _ else _) = _ =>
      destruct b; [by injection Hrun as <- _ |]
  end.
  bind_inv Hrun. destruct x as [h1 ok].
  apply validate_element_table_frame in Hx.
  destruct (negb ok); injection Hrun as <- _;
    (etrans; [| exact Hx]); reflexivity.
Qed.

End Frames.

(** ** Erasure, capacity, encoding frame and layout *)

Section Operations.
Context `{K : FfffConsts} `{E : FfffElementOps}.

Lemma is_constant_fill_Forall (span : list Z) (fill : Z) :
  is_constant_fill span fill = true ↔ Forall (λ b, b = fill) span.
Proof.
  unfold is_constant_fill. rewrite forallb_forall, Forall_forall.
  split; intros H b Hb.
  - apply list_elem_of_In, H, Z.eqb_eq in Hb. done.
  - apply Z.eqb_eq. symmetry. by apply H, list_elem_of_In.
Qed.

(** C7: when the header region
    [ffff_buf[header_offset : header_offset + FFFF_HDR_LENGTH]] is
    filled with the byte 0x00, or with the byte 0xFF, the validator
    returns ERASED whatever the fields of the instance hold, and the
    only attribute it changes is the verdict: no later check has run
    (the element table check would have reset the diagnostics). *)
Theorem C7_constant_fill_is_erased (h : Ffff) (fill : Z) :
  fill = 0 ∨ fill = 255 →
  Forall (λ b, b = fill)
    (py_slice (ffff_buf h) (header_offset h)
       (header_offset h + FFFF_HDR_LENGTH)) →
  validate_ffff_header h
  = Some (set_header_validity FFFF_HDR_ERASED h, FFFF_HDR_ERASED).
Proof.
  intros Hfill Hspan. apply is_constant_fill_Forall in Hspan.
  unfold validate_ffff_header. simpl.
  destruct Hfill as [-> | ->]; rewrite Hspan; [done |].
  by rewrite orb_true_r.
Qed.

(** C8: at the maximum element count [add_element] returns [False]
    and leaves the header, with its element list and its flash buffer,
    as it was; below the maximum, when the element's [init] succeeds,
    it returns [True] and the element list is one longer. *)
Theorem C8_add_element_capacity (h : Ffff) (ty id gen loc len : Z)
    (file : string) :
  (FFFF_MAX_ELEMENTS <= Z.of_nat (length (elements h)) →
   add_element h ty id gen loc len file = (h, false))
  ∧ (Z.of_nat (length (elements h)) < FFFF_MAX_ELEMENTS →
     ∀ element,
       element_init
         (new_element (Z.of_nat (length (elements h)))
            (flash_capacity h) (erase_block_size h) ty id gen loc len
            (Some file)) = Some element →
       ∃ h', add_element h ty id gen loc len file = (h', true)
             ∧ length (elements h') = S (length (elements h))).
Proof.
  unfold add_element. split.
  - intros Hfull. destruct (Z.ltb_spec (Z.of_nat (length (elements h)))
                              FFFF_MAX_ELEMENTS); [lia | done].
  - intros Hroom element Hinit.
    destruct (Z.ltb_spec (Z.of_nat (length (elements h)))
                FFFF_MAX_ELEMENTS); [| lia].
    rewrite Hinit. eexists. split; [reflexivity |].
    simpl. rewrite length_app. simpl. lia.
Qed.

(** [pack] returns the instance it was given with a new buffer. *)
Lemma pack_frame (now : list Z) (h h' : Ffff) :
  pack now h = Some h' → h' = set_ffff_buf (ffff_buf h') h.
Proof.
  unfold pack. intros Hrun. repeat bind_inv Hrun.
  match goal with p : (list Z * Z)%type |- _ => destruct p end.
  by injection Hrun as <-.
Qed.

Lemma pack_header_fields (now : list Z) (h h' : Ffff) :
  pack now h = Some h' → header_fields h' = header_fields h.
Proof. intros Hrun. apply pack_frame in Hrun. by rewrite Hrun. Qed.

(** The planner on three elements without a location, of lengths 100,
    250 and 50, with erase blocks of 64 bytes and no image length. *)
Lemma layout_loop_three (e1 e2 e3 : FfffElement) :
  element_location e1 = 0 → element_location e2 = 0 →
  element_location e3 = 0 →
  element_length e1 = 100 → element_length e2 = 250 →
  element_length e3 = 50 →
  layout_loop 0 64 [e1; e2; e3] (element_location e1)
  = Some ([set_element_location 0 e1; set_element_location 128 e2;
           set_element_location 384 e3], 448).
Proof.
  intros L1 L2 L3 N1 N2 N3. simpl.
  rewrite L1, L2, L3. simpl. rewrite N1, N2, N3. reflexivity.
Qed.

(** [post_process_layout] when the table is not empty, the scan runs
    to its end and no image length was given. *)
Lemma post_process_layout_run (h : Ffff) (first : FfffElement)
    (elts : list FfffElement) (location : Z) :
  elements h !! 0%nat = Some first →
  layout_loop (flash_image_length h) (erase_block_size h) (elements h)
    (element_location first) = Some (elts, location) →
  flash_image_length h = 0 →
  post_process_layout h
  = Some (set_flash_image_length location
            (set_elements elts
               (set_erase_block_mask (Some (erase_block_size h - 1))
                  h))).
Proof.
  intros Hfirst Hscan Hlen. unfold post_process_layout.
  cbn [elements flash_image_length erase_block_size
       set_erase_block_mask].
  rewrite Hfirst. cbn [mbind option_bind].
  rewrite Hscan. cbn [mbind option_bind].
  cbn [flash_image_length set_elements set_erase_block_mask].
  rewrite Hlen. reflexivity.
Qed.

(** After the planning stage, [post_process] changes neither the
    elements nor the image length. *)
Lemma post_process_keeps_plan (now_field now_pack : list Z)
    (h hp h' : Ffff) :
  post_process_layout h = Some hp →
  post_process now_field now_pack h = Some h' →
  elements h' = elements hp
  ∧ flash_image_length h' = flash_image_length hp.
Proof.
  intros Hplan Hrun. unfold post_process in Hrun. rewrite Hplan in Hrun.
  cbn [mbind option_bind] in Hrun.
  bind_inv Hrun. destruct x as [h1 ok1].
  apply validate_element_table_frame, validation_frame_header_fields,
    header_fields_plan in Hx.
  bind_inv Hrun. apply pack_header_fields, header_fields_plan in Hx0.
  bind_inv Hrun. destruct x0 as [h3 v]. injection Hrun as <-.
  apply validate_ffff_header_frame, validation_frame_header_fields,
    header_fields_plan in Hx1.
  assert (elements (post_process_fields now_field h1) = elements h1
          ∧ flash_image_length (post_process_fields now_field h1)
            = flash_image_length h1) as [Hf1 Hf2].
  { unfold post_process_fields.
    destruct (nonempty _); split; reflexivity. }
  destruct Hx as [Ha1 Ha2], Hx0 as [Hb1 Hb2], Hx1 as [Hc1 Hc2].
  rewrite Hc1, Hc2, Hb1, Hb2, Hf1, Hf2, Ha1, Ha2. split; reflexivity.
Qed.

(** C5: three elements of lengths 100, 250 and 50, none with a
    location, erase block size 64, image length 0.  The planning loop
    runs to its end and leaves the elements at 0, 128 and 384 with the
    cursor at 448; whenever [post_process] returns, the header it
    returns has the elements at these locations and the flash image
    length 448. *)
Theorem C5_layout_three_elements (now_field now_pack : list Z)
    (h : Ffff) (e1 e2 e3 : FfffElement) :
  elements h = [e1; e2; e3] →
  element_location e1 = 0 → element_location e2 = 0 →
  element_location e3 = 0 →
  element_length e1 = 100 → element_length e2 = 250 →
  element_length e3 = 50 →
  erase_block_size h = 64 → flash_image_length h = 0 →
  (∃ elts,
     layout_loop (flash_image_length h) (erase_block_size h)
       (elements h) (element_location e1) = Some (elts, 448)
     ∧ element_location <$> elts = [0; 128; 384])
  ∧ ∀ h', post_process now_field now_pack h = Some h' →
          element_location <$> elements h' = [0; 128; 384]
          ∧ flash_image_length h' = 448.
Proof.
  intros Hel L1 L2 L3 N1 N2 N3 Hebs Hlen.
  pose proof (layout_loop_three e1 e2 e3 L1 L2 L3 N1 N2 N3) as Hlay.
  split.
  { rewrite Hlen, Hebs, Hel. eexists. split; [exact Hlay | done]. }
  assert (Hscan : layout_loop (flash_image_length h)
                    (erase_block_size h) (elements h)
                    (element_location e1)
                  = Some ([set_element_location 0 e1;
                           set_element_location 128 e2;
                           set_element_location 384 e3], 448))
    by (rewrite Hlen, Hebs, Hel; exact Hlay).
  assert (Hfirst : elements h !! 0%nat = Some e1) by (by rewrite Hel).
  pose proof (post_process_layout_run h e1 _ _ Hfirst Hscan Hlen)
    as Hplan.
  intros h' Hrun.
  destruct (post_process_keeps_plan _ _ _ _ _ Hplan Hrun) as [-> ->].
  split; reflexivity.
Qed.

End Operations.

(** ** The element table check: collisions and duplicates *)

Section ElementTable.
Context `{K : FfffConsts} `{E : FfffElementOps}.

Lemma live_elements_lookup (l : list FfffElement) :
  ∀ (j : nat) (b : FfffElement),
    live_elements l !! j = Some b →
    l !! j = Some b
    ∧ ∀ (p : nat) (e : FfffElement),
        (p <= j)%nat → l !! p = Some e →
        element_type e ≠ FFFF_ELEMENT_END_OF_ELEMENT_TABLE.
Proof.
  induction l as [|e0 l IH]; intros j b Hj; simpl in Hj; [done |].
  destruct (element_type e0 =? _) eqn:Hty; [done |].
  apply Z.eqb_neq in Hty. destruct j as [|j]; simpl in Hj.
  - injection Hj as <-. split; [done |].
    intros p e Hp Hl. replace p with 0%nat in Hl by lia.
    by injection Hl as <-.
  - apply IH in Hj as [Hl Hlive]. split; [done |].
    intros [|p] e Hp He; simpl in He.
    + by injection He as <-.
    + eapply Hlive; [| done]. lia.
Qed.

Lemma pair_step_collision elt_a j elt_b h c d :
  let c' := (pair_step elt_a j elt_b (h, c, d)).1.2 in
  (∀ x, x ∈ c → x ∈ c')
  ∧ (ranges_overlap elt_a elt_b → Z.of_nat j ∈ c').
Proof.
  unfold pair_step, ranges_overlap.
  destruct ((element_location elt_b + element_length elt_b - 1
             >=? element_location elt_a)
            && (element_location elt_b
                <=? element_location elt_a + element_length elt_a - 1))
    eqn:Hov;
    destruct ((element_type elt_a =? element_type elt_b)
              && (element_id elt_a =? element_id elt_b)
              && (element_generation elt_a
                  =? element_generation elt_b));
    cbn [fst snd].
  1, 2: split; intros; rewrite elem_of_app, list_elem_of_singleton; auto.
  all: split; [auto |]; intros [Ha Hb];
    apply andb_false_iff in Hov as [Hov | Hov];
    [ rewrite Z.geb_leb in Hov; apply Z.leb_gt in Hov; lia
    | apply Z.leb_gt in Hov; lia ].
Qed.

Lemma pair_loop_mono i elt_a rest : ∀ j st x,
  x ∈ st.1.2 → x ∈ (pair_loop i elt_a j rest st).1.2.
Proof.
  induction rest as [|elt_b rest IH]; intros j st x Hx; simpl; [done |].
  destruct (Nat.eqb i j); [by apply IH |].
  destruct (element_type elt_b =? _); [done |].
  apply IH. destruct st as [[h c] d].
  by apply pair_step_collision.
Qed.

(** The inner loop of [elt_a] records every overlapping entry that it
    reaches before an end-of-table marker. *)
Lemma pair_loop_records i elt_a rest : ∀ j st (m : nat) elt_b,
  rest !! m = Some elt_b →
  (j + m)%nat ≠ i →
  (∀ (p : nat) e, (p <= m)%nat → rest !! p = Some e →
     element_type e ≠ FFFF_ELEMENT_END_OF_ELEMENT_TABLE) →
  ranges_overlap elt_a elt_b →
  Z.of_nat (j + m) ∈ (pair_loop i elt_a j rest st).1.2.
Proof.
  induction rest as [|e rest IH]; intros j st m elt_b Hm Hne Hlive Hov;
    [done |].
  simpl. destruct m as [|m]; simpl in Hm.
  - injection Hm as ->. rewrite Nat.add_0_r in *.
    destruct (Nat.eqb_spec i j); [congruence |].
    destruct (Z.eqb_spec (element_type elt_b)
                FFFF_ELEMENT_END_OF_ELEMENT_TABLE) as [Hend|_].
    { exfalso. by eapply (Hlive 0%nat elt_b). }
    apply pair_loop_mono. destruct st as [[h c] d].
    by apply pair_step_collision.
  - assert (Hlive' : ∀ (p : nat) e0, (p <= m)%nat → rest !! p = Some e0 →
              element_type e0 ≠ FFFF_ELEMENT_END_OF_ELEMENT_TABLE).
    { intros p e0 Hp He0. apply (Hlive (S p) e0); [lia | done]. }
    replace (j + S m)%nat with (S j + m)%nat in * by lia.
    destruct (Nat.eqb i j); [by eapply IH |].
    destruct (Z.eqb_spec (element_type e)
                FFFF_ELEMENT_END_OF_ELEMENT_TABLE) as [Hend|_].
    { exfalso. by eapply (Hlive 0%nat e); [lia | |]. }
    by eapply IH.
Qed.

(** The row that one pass of the outer loop appends for [elt_a] holds
    every other live entry that overlaps it. *)
Lemma table_step_row i elt_a h h' :
  table_step i elt_a h = Some h' →
  ∃ row,
    collisions h' = collisions h ++ [row]
    ∧ ∀ (j : nat) elt_b,
        live_elements (elements h) !! j = Some elt_b →
        j ≠ i → ranges_overlap elt_a elt_b → Z.of_nat j ∈ row.
Proof.
  intros Hrun. apply table_step_inv in Hrun.
  destruct Hrun as (hbs & h2 & c2 & h3 & c3 & d3 & _ & _ & Hpl & _ & _
                    & Hcol & _).
  exists c3. split; [done |]. intros j elt_b Hj Hne Hov.
  apply live_elements_lookup in Hj as [Hj Hlive].
  pose proof (pair_loop_records i elt_a (elements h) 0 (h2, c2, []) j
                elt_b Hj) as Hrec.
  rewrite Hpl in Hrec. simpl in Hrec. apply Hrec; done.
Qed.

Lemma table_loop_collisions_prefix rest : ∀ i h h',
  table_loop i rest h = Some h' →
  ∃ rows, collisions h' = collisions h ++ rows.
Proof.
  induction rest as [|elt_a rest IH]; intros i h h' Hrun; simpl in Hrun.
  { injection Hrun as <-. exists []. by rewrite app_nil_r. }
  destruct (element_type elt_a =? _).
  { injection Hrun as <-. exists []. by rewrite app_nil_r. }
  bind_inv Hrun. apply IH in Hrun as [rows Hrows].
  apply table_step_row in Hx as (row & Hrow & _).
  exists (row :: rows). rewrite Hrows, Hrow, <- app_assoc. reflexivity.
Qed.

(** The scan runs to its end whenever the header block size is
    defined. *)
Lemma table_step_total i elt_a h hbs :
  header_block_size (erase_block_size h) = Some hbs →
  ∃ h', table_step i elt_a h = Some h'.
Proof.
  intros Hhbs. unfold table_step.
  assert (Hebs : erase_block_size (check_element elt_a h)
                 = erase_block_size h).
  { pose proof (check_element_frame elt_a h) as He.
    apply row_frame_scan_frame, scan_frame_elements in He.
    by destruct He as (_ & -> & _). }
  rewrite Hebs, Hhbs. cbn [mbind option_bind].
  destruct (check_header_collision _ _ _) as [h2 c2].
  destruct (pair_loop _ _ _ _ _) as [[h3 c3] d3]. eauto.
Qed.

Lemma table_loop_total rest : ∀ i h hbs,
  header_block_size (erase_block_size h) = Some hbs →
  ∃ h', table_loop i rest h = Some h'.
Proof.
  induction rest as [|elt_a rest IH]; intros i h hbs Hhbs; simpl;
    [eauto |].
  destruct (element_type elt_a =? _); [eauto |].
  destruct (table_step_total i elt_a h hbs Hhbs) as [h1 Hstep].
  rewrite Hstep. cbn [mbind option_bind].
  apply (IH _ _ hbs). apply table_step_frame, scan_frame_elements in Hstep.
  destruct Hstep as (_ & -> & _). done.
Qed.

Lemma validate_element_table_total h hbs :
  header_block_size (erase_block_size h) = Some hbs →
  ∃ h' ok, validate_element_table h = Some (h', ok).
Proof.
  intros Hhbs. unfold validate_element_table.
  match goal with
  | |- context [table_loop ?i ?l ?h0] =>
      destruct (table_loop_total l i h0 hbs Hhbs) as [h1 Hloop];
      rewrite Hloop
  end.
  cbn [mbind option_bind]. eauto.
Qed.

(** The row of each live entry, after the whole scan. *)
Lemma table_loop_rows rest : ∀ i h h' (m : nat) elt_a,
  table_loop i rest h = Some h' →
  live_elements rest !! m = Some elt_a →
  ∃ row,
    collisions h' !! (length (collisions h) + m)%nat = Some row
    ∧ ∀ (j : nat) elt_b,
        live_elements (elements h) !! j = Some elt_b →
        j ≠ (i + m)%nat → ranges_overlap elt_a elt_b →
        Z.of_nat j ∈ row.
Proof.
  induction rest as [|e rest IH]; intros i h h' m elt_a Hrun Hm;
    simpl in Hrun, Hm; [done |].
  destruct (element_type e =? _); [done |].
  bind_inv Hrun. rename x into h1.
  pose proof (table_step_frame _ _ _ _ Hx) as Hfr.
  apply scan_frame_elements in Hfr as (Hel & _ & _).
  destruct (table_step_row _ _ _ _ Hx) as (row & Hrow & Hrec).
  destruct m as [|m]; simpl in Hm.
  - injection Hm as <-. exists row. split.
    + apply table_loop_collisions_prefix in Hrun as [rows ->].
      rewrite Hrow, Nat.add_0_r, <- app_assoc.
      rewrite lookup_app_r by lia. by rewrite Nat.sub_diag.
    + intros j elt_b Hj Hne. apply Hrec; [done | lia].
  - destruct (IH _ _ _ _ _ Hrun Hm) as (row' & Hlook & Hrec').
    exists row'. split.
    + rewrite Hrow, length_app in Hlook. simpl in Hlook.
      rewrite <- Hlook. f_equal. lia.
    + intros j elt_b Hj Hne. apply Hrec'; [by rewrite Hel | lia].
Qed.

(** C6: when the header block size is defined, the element table
    check runs to its end, and for two live entries [a] at index [i]
    and [b] at index [j ≠ i] whose byte ranges overlap, the collision
    list of index [i] holds [j] and that of index [j] holds [i]. *)
Theorem C6_collisions_symmetric (h : Ffff) (hbs : Z) (i j : nat)
    (a b : FfffElement) :
  header_block_size (erase_block_size h) = Some hbs →
  live_elements (elements h) !! i = Some a →
  live_elements (elements h) !! j = Some b →
  i ≠ j →
  ranges_overlap a b →
  ∃ h' ok ci cj,
    validate_element_table h = Some (h', ok)
    ∧ collisions h' !! i = Some ci ∧ Z.of_nat j ∈ ci
    ∧ collisions h' !! j = Some cj ∧ Z.of_nat i ∈ cj.
Proof.
  intros Hhbs Hi Hj Hne Hov.
  destruct (validate_element_table_total h hbs Hhbs) as (h' & ok & Hrun).
  exists h', ok. pose proof Hrun as Hrun'.
  unfold validate_element_table in Hrun'. bind_inv Hrun'.
  injection Hrun' as <- _.
  cbn [elements set_invalid_elements_found set_duplicates_found
       set_duplicates set_collisions_found set_collisions] in Hx.
  destruct (table_loop_rows _ _ _ _ i a Hx Hi) as (ci & Hci & Hreci).
  destruct (table_loop_rows _ _ _ _ j b Hx Hj) as (cj & Hcj & Hrecj).
  exists ci, cj. simpl in Hci, Hcj, Hreci, Hrecj.
  split_and!; [done | done | | done |].
  - apply (Hreci j b); [done | lia | done].
  - apply (Hrecj i a); [done | lia |].
    destruct Hov. by split.
Qed.

(** The scan never touches [duplicates_found]: the duplicate check
    assigns the attribute [duplicatess_found] instead. *)
Lemma validate_element_table_verdict h h' ok :
  validate_element_table h = Some (h', ok) →
  duplicates_found h' = false
  ∧ ok = negb (collisions_found h') && negb (invalid_elements_found h').
Proof.
  unfold validate_element_table. intros Hrun. bind_inv Hrun.
  injection Hrun as <- <-.
  apply table_loop_frame, scan_frame_elements in Hx as (_ & _ & Hd).
  simpl in Hd. rewrite Hd. split; [done |].
  by rewrite andb_true_r.
Qed.

End ElementTable.

(** ** Decoding the element table *)

Section Decode.
Context `{K : FfffConsts} `{E : FfffElementOps}.

Lemma unpack_loop_buf (n : nat) : ∀ idx off h h',
  unpack_loop n idx off h = Some h' →
  scan_frame (set_elements [] h') = scan_frame (set_elements [] h)
  ∧ ffff_buf h' = ffff_buf h.
Proof.
  induction n as [|n IH]; intros idx off h h' Hrun; simpl in Hrun.
  { by injection Hrun as <-. }
  bind_inv Hrun. destruct x as [e u]. destruct u; simpl in Hrun.
  { by injection Hrun as <-. }
  apply IH in Hrun as [Hfr Hbuf]. split; [| exact Hbuf].
  rewrite Hfr. reflexivity.
Qed.

(** The table is decoded from the absolute offsets
    [FFFF_HDR_OFF_ELEMENT_TBL + k * FFFF_ELT_LENGTH]: two runs of the
    loop over buffers that agree there produce the same entries. *)
Lemma unpack_loop_agree (Hlocal : unpack_reads_entry_only)
    (Htbl : 0 <= FFFF_HDR_OFF_ELEMENT_TBL) (Helt : 0 <= FFFF_ELT_LENGTH)
    (n : nat) :
  ∀ (k : Z) idx1 idx2 h1 h2 r1 r2,
    0 <= k → ((0 < n)%nat → k + Z.of_nat n <= FFFF_MAX_ELEMENTS) →
    length (ffff_buf h1) = length (ffff_buf h2) →
    agree_on (ffff_buf h1) (ffff_buf h2) FFFF_HDR_OFF_ELEMENT_TBL
      (FFFF_HDR_OFF_ELEMENT_TBL + FFFF_MAX_ELEMENTS * FFFF_ELT_LENGTH) →
    element_entry <$> elements h1 = element_entry <$> elements h2 →
    unpack_loop n idx1 (FFFF_HDR_OFF_ELEMENT_TBL + k * FFFF_ELT_LENGTH) h1
    = Some r1 →
    unpack_loop n idx2 (FFFF_HDR_OFF_ELEMENT_TBL + k * FFFF_ELT_LENGTH) h2
    = Some r2 →
    element_entry <$> elements r1 = element_entry <$> elements r2.
Proof.
  induction n as [|n IH];
    intros k idx1 idx2 h1 h2 r1 r2 Hk Hmax Hlen Hagree Hsofar Hr1 Hr2;
    simpl in Hr1, Hr2.
  { injection Hr1 as <-. injection Hr2 as <-. exact Hsofar. }
  bind_inv Hr1. bind_inv Hr2.
  destruct x as [e1 u1], x0 as [e2 u2].
  assert (k + Z.of_nat (S n) <= FFFF_MAX_ELEMENTS) by (apply Hmax; lia).
  match type of Hx with
  | element_unpack ?a _ ?o = _ =>
      match type of Hx0 with
      | element_unpack ?b _ _ = _ =>
          pose proof (Hlocal a b (ffff_buf h1) (ffff_buf h2) o) as Hsame
      end
  end.
  rewrite Hx, Hx0 in Hsame. simpl in Hsame.
  destruct Hsame as [Hentry <-]; [nia | done | |].
  { intros i Hi. apply Hagree. nia. }
  destruct u1; simpl in Hr1, Hr2.
  { injection Hr1 as <-. injection Hr2 as <-. exact Hsofar. }
  replace (FFFF_HDR_OFF_ELEMENT_TBL + k * FFFF_ELT_LENGTH
           + FFFF_ELT_LENGTH)
    with (FFFF_HDR_OFF_ELEMENT_TBL + (k + 1) * FFFF_ELT_LENGTH)
    in Hr1, Hr2 by ring.
  eapply (IH (k + 1)); [| | | | | exact Hr1 | exact Hr2];
    [lia | lia | done | done |].
  simpl. rewrite !fmap_app. simpl. by rewrite Hsofar, Hentry.
Qed.

Lemma unpack_fixed_inv (h h0 : Ffff) :
  unpack_fixed h = Some h0 →
  ffff_buf h0 = ffff_buf h ∧ header_offset h0 = header_offset h
  ∧ elements h0 = [].
Proof.
  unfold unpack_fixed. intros Hrun. repeat bind_inv Hrun.
  by injection Hrun as <-.
Qed.

(** The stages of a run of [unpack]. *)
Lemma unpack_inv (h h' : Ffff) :
  unpack h = Some h' →
  ∃ h0 h1 v,
    unpack_fixed h = Some h0
    ∧ unpack_loop (Z.to_nat FFFF_MAX_ELEMENTS) 0
        FFFF_HDR_OFF_ELEMENT_TBL h0 = Some h1
    ∧ validate_ffff_header h1 = Some (h', v).
Proof.
  unfold unpack. intros Hrun. repeat bind_inv Hrun.
  destruct x1 as [h2 v]. injection Hrun as <-.
  exists x, x0, v. split_and!; [reflexivity | assumption | assumption].
Qed.

(** The element sequence that [unpack] produces is determined by the
    bytes at the absolute offsets
    [FFFF_HDR_OFF_ELEMENT_TBL .. FFFF_HDR_OFF_ELEMENT_TBL +
    FFFF_MAX_ELEMENTS * FFFF_ELT_LENGTH], the table region of the first
    header copy: two headers, at any header offsets, whose buffers
    agree on that region decode the same entries, whatever the bytes
    at [header_offset + FFFF_HDR_OFF_ELEMENT_TBL] are.  The element
    decoder is assumed to read only the entry it is pointed at. *)
Lemma unpack_table_determined (h1 h2 h1' h2' : Ffff) :
  unpack_reads_entry_only →
  0 <= FFFF_HDR_OFF_ELEMENT_TBL → 0 <= FFFF_ELT_LENGTH →
  length (ffff_buf h1) = length (ffff_buf h2) →
  agree_on (ffff_buf h1) (ffff_buf h2) FFFF_HDR_OFF_ELEMENT_TBL
    (FFFF_HDR_OFF_ELEMENT_TBL + FFFF_MAX_ELEMENTS * FFFF_ELT_LENGTH) →
  unpack h1 = Some h1' → unpack h2 = Some h2' →
  element_entry <$> elements h1' = element_entry <$> elements h2'.
Proof.
  intros Hlocal Htbl Helt Hlen Hagree Hu1 Hu2.
  apply unpack_inv in Hu1 as (a0 & a1 & va & Hfa & Hla & Hva).
  apply unpack_inv in Hu2 as (b0 & b1 & vb & Hfb & Hlb & Hvb).
  apply unpack_fixed_inv in Hfa as (Hba & _ & Hea).
  apply unpack_fixed_inv in Hfb as (Hbb & _ & Heb).
  apply validate_ffff_header_frame, validation_frame_header_fields,
    header_fields_plan in Hva as [-> _].
  apply validate_ffff_header_frame, validation_frame_header_fields,
    header_fields_plan in Hvb as [-> _].
  replace FFFF_HDR_OFF_ELEMENT_TBL
    with (FFFF_HDR_OFF_ELEMENT_TBL + 0 * FFFF_ELT_LENGTH)
    in Hla, Hlb by ring.
  eapply (unpack_loop_agree Hlocal Htbl Helt _ 0);
    [| | | | | exact Hla | exact Hlb].
  - lia.
  - lia.
  - by rewrite Hba, Hbb.
  - by rewrite Hba, Hbb.
  - by rewrite Hea, Heb.
Qed.

End Decode.

(** ** Reading back what was written *)

Section BufferFacts.

Lemma struct_offset_inv (buf : list Z) (off : Z) (size o : nat) :
  struct_offset buf off size = Some o → 0 <= off →
  o = Z.to_nat off ∧ (Z.to_nat off + size <= length buf)%nat.
Proof.
  unfold struct_offset. intros Hso Hoff.
  destruct (Z.ltb_spec off 0); [lia |].
  destruct (_ && _) eqn:Hin; [| done]. injection Hso as <-.
  apply andb_true_iff in Hin as [_ Hin]. apply Z.leb_le in Hin.
  split; [done | lia].
Qed.

Lemma struct_offset_ok (buf : list Z) (off : Z) (size : nat) :
  0 <= off → (Z.to_nat off + size <= length buf)%nat →
  struct_offset buf off size = Some (Z.to_nat off).
Proof.
  unfold struct_offset. intros Hoff Hin.
  destruct (Z.ltb_spec off 0); [lia |].
  destruct (Z.leb_spec 0 off); [| lia].
  destruct (Z.leb_spec (off + Z.of_nat size) (Z.of_nat (length buf)));
    [done | lia].
Qed.

Lemma unpack_from_ok (size : nat) (buf : list Z) (off : Z) :
  0 <= off → (Z.to_nat off + size <= length buf)%nat →
  unpack_from size buf off
  = Some (take size (drop (Z.to_nat off) buf)).
Proof.
  intros Hoff Hin. unfold unpack_from.
  by rewrite struct_offset_ok.
Qed.

Lemma pack_into_inv (buf : list Z) (off : Z) (data buf' : list Z) :
  pack_into buf off data = Some buf' → 0 <= off →
  (Z.to_nat off + length data <= length buf)%nat
  ∧ buf' = take (Z.to_nat off) buf ++ data
           ++ drop (Z.to_nat off + length data) buf.
Proof.
  unfold pack_into. intros Hp Hoff. bind_inv Hp.
  apply struct_offset_inv in Hx as [-> Hin]; [| done].
  injection Hp as <-. done.
Qed.

Lemma pack_into_length (buf : list Z) (off : Z) (data buf' : list Z) :
  pack_into buf off data = Some buf' → 0 <= off →
  length buf' = length buf.
Proof.
  intros Hp Hoff. apply pack_into_inv in Hp as [Hin ->]; [| done].
  rewrite !length_app, length_take, length_drop. lia.
Qed.

(** The bytes of [data] from [a] on are found at [off + a]. *)
Lemma pack_into_read_back (buf : list Z) (off : Z) (data buf' : list Z)
    (a n : nat) :
  pack_into buf off data = Some buf' → 0 <= off →
  (a + n <= length data)%nat →
  take n (drop (Z.to_nat off + a) buf') = take n (drop a data).
Proof.
  intros Hp Hoff Han. apply pack_into_inv in Hp as [Hin ->]; [| done].
  apply list_eq. intros i.
  destruct (decide (i < n)%nat) as [Hi|Hi].
  - rewrite !lookup_take_lt, !lookup_drop by done.
    rewrite lookup_app_r by (rewrite length_take; lia).
    rewrite length_take, lookup_app_l by lia. f_equal. lia.
  - by rewrite !lookup_take_ge by lia.
Qed.

Lemma pack_into_read_at (buf : list Z) (off : Z) (data buf' : list Z)
    (o a n : nat) :
  pack_into buf off data = Some buf' → 0 <= off →
  o = (Z.to_nat off + a)%nat → (a + n <= length data)%nat →
  take n (drop o buf') = take n (drop a data).
Proof. intros Hp Hoff -> Han. by eapply pack_into_read_back. Qed.

Lemma pack_into_agree_outside (buf : list Z) (off : Z)
    (data buf' : list Z) :
  pack_into buf off data = Some buf' → 0 <= off →
  agree_outside buf' buf off (off + Z.of_nat (length data)).
Proof.
  intros Hp Hoff. split; [by eapply pack_into_length |].
  apply pack_into_inv in Hp as [Hin ->]; [| done]. intros i Hi.
  destruct (decide (i < Z.to_nat off)%nat).
  - rewrite lookup_app_l by (rewrite length_take; lia).
    by rewrite lookup_take_lt.
  - rewrite lookup_app_r by (rewrite length_take; lia).
    rewrite length_take, lookup_app_r by lia.
    rewrite lookup_drop. f_equal. lia.
Qed.

Lemma agree_outside_read (b1 b2 : list Z) (lo hi : Z) (o n : nat) :
  agree_outside b1 b2 lo hi →
  Z.of_nat (o + n) <= lo ∨ hi <= Z.of_nat o →
  take n (drop o b1) = take n (drop o b2).
Proof.
  intros [_ Hout] Hdisj. apply list_eq. intros i.
  destruct (decide (i < n)%nat) as [Hi|Hi].
  - rewrite !lookup_take_lt, !lookup_drop by done. apply Hout. lia.
  - by rewrite !lookup_take_ge by lia.
Qed.

Lemma agree_outside_on (b1 b2 : list Z) (lo hi lo' hi' : Z) :
  agree_outside b1 b2 lo hi → hi' <= lo ∨ hi <= lo' →
  agree_on b1 b2 lo' hi'.
Proof. intros [_ Hout] Hdisj i Hi. apply Hout. lia. Qed.

Lemma agree_on_trans (b1 b2 b3 : list Z) (lo hi : Z) :
  agree_on b1 b2 lo hi → agree_on b2 b3 lo hi → agree_on b1 b3 lo hi.
Proof. intros H12 H23 i Hi. by rewrite H12, H23. Qed.

Lemma agree_on_sub (b1 b2 : list Z) (lo hi lo' hi' : Z) :
  agree_on b1 b2 lo hi → lo <= lo' → hi' <= hi →
  agree_on b1 b2 lo' hi'.
Proof. intros H12 Hlo Hhi i Hi. apply H12. lia. Qed.

Lemma agree_on_read (b1 b2 : list Z) (lo hi : Z) (o n : nat) :
  agree_on b1 b2 lo hi → lo <= Z.of_nat o → Z.of_nat (o + n) <= hi →
  take n (drop o b1) = take n (drop o b2).
Proof.
  intros Hon Hlo Hhi. apply list_eq. intros i.
  destruct (decide (i < n)%nat) as [Hi|Hi].
  - rewrite !lookup_take_lt, !lookup_drop by done. apply Hon. lia.
  - by rewrite !lookup_take_ge by lia.
Qed.

(** A field of unpacked data is a read of the buffer itself. *)
Lemma field_of_read (buf : list Z) (o m a n : nat) :
  (a + n <= m)%nat →
  field a n (take m (drop o buf)) = take n (drop (o + a) buf).
Proof.
  intros Ham. unfold field. apply list_eq. intros i.
  destruct (decide (i < n)%nat) as [Hi|Hi].
  - rewrite !lookup_take_lt, !lookup_drop by done.
    rewrite lookup_take_lt, lookup_drop by lia. f_equal. lia.
  - by rewrite !lookup_take_ge by lia.
Qed.

Lemma length_pack_s (width : nat) (s : list Z) :
  length (pack_s width s) = width.
Proof.
  unfold pack_s. rewrite length_app, length_take, length_replicate. lia.
Qed.

Lemma pack_L_inv (v : Z) (bs : list Z) :
  pack_L v = Some bs → length bs = 4%nat ∧ unpack_L bs = v.
Proof.
  unfold pack_L. destruct (_ && _) eqn:Hr; [| done].
  intros [= <-]. split; [done |]. unfold unpack_L.
  apply andb_true_iff in Hr as [Hlo Hhi].
  apply Z.leb_le in Hlo. apply Z.ltb_lt in Hhi.
  pose proof (Z.div_mod v 256 ltac:(lia)).
  pose proof (Z.div_mod (v / 256) 256 ltac:(lia)).
  pose proof (Z.div_mod (v / 65536) 256 ltac:(lia)).
  assert (v / 65536 = v / 256 / 256)
    by (rewrite Z.div_div by lia; reflexivity).
  assert (v / 16777216 = v / 65536 / 256)
    by (rewrite Z.div_div by lia; reflexivity).
  assert (0 <= v / 16777216 < 256).
  { split; [apply Z.div_pos; lia |].
    apply Z.div_lt_upper_bound; lia. }
  rewrite (Z.mod_small (v / 16777216)) by lia. lia.
Qed.

(** The five 32-bit fields come back from their 20 bytes. *)
Lemma pack_LLLLL_inv (a b c d e : Z) (raw : list Z) :
  pack_LLLLL a b c d e = Some raw →
  length raw = 20%nat
  ∧ unpack_L (take 4 (drop 0 raw)) = a
  ∧ unpack_L (take 4 (drop 4 raw)) = b
  ∧ unpack_L (take 4 (drop 8 raw)) = c
  ∧ unpack_L (take 4 (drop 12 raw)) = d
  ∧ unpack_L (take 4 (drop 16 raw)) = e.
Proof.
  unfold pack_LLLLL. intros Hp. repeat bind_inv Hp. injection Hp as <-.
  repeat match goal with
         | H : pack_L _ = Some ?bs |- _ =>
             apply pack_L_inv in H as [? ?];
             destruct bs as [|? [|? [|? [|? [|? ?]]]]]; try done
         end.
Qed.

End BufferFacts.

(** ** Encoding, then decoding *)

Section RoundTrip.
Context `{K : FfffConsts} `{E : FfffElementOps}.

Lemma agree_outside_trans (b1 b2 b3 : list Z) (lo hi lo' hi' : Z) :
  agree_outside b1 b2 lo hi → agree_outside b2 b3 lo' hi' →
  agree_outside b1 b3 (Z.min lo lo') (Z.max hi hi').
Proof.
  intros [Hl1 H1] [Hl2 H2]. split; [congruence |].
  intros i Hi. rewrite H1, H2 by lia. reflexivity.
Qed.

Lemma agree_outside_widen (b1 b2 : list Z) (lo hi lo' hi' : Z) :
  agree_outside b1 b2 lo hi → lo' <= lo → hi <= hi' →
  agree_outside b1 b2 lo' hi'.
Proof. intros [Hl H] Hlo Hhi. split; [done |]. intros i Hi. apply H. lia. Qed.

Lemma agree_outside_refl (b : list Z) (lo hi : Z) : agree_outside b b lo hi.
Proof. by split. Qed.

(** The table is written entry after entry from [off] on, and nothing
    else is. *)
Lemma pack_elements_frame (Hwrite : pack_writes_entry_only)
    (Helt : 0 <= FFFF_ELT_LENGTH) (elts : list FfffElement) :
  ∀ buf off buf' off',
    0 <= off → pack_elements elts buf off = Some (buf', off') →
    off' = off + Z.of_nat (length elts) * FFFF_ELT_LENGTH
    ∧ agree_outside buf' buf off
        (off + Z.of_nat (length elts) * FFFF_ELT_LENGTH).
Proof.
  induction elts as [|e elts IH]; intros buf off buf' off' Hoff Hp;
    simpl in Hp.
  { injection Hp as <- <-. split; [simpl; lia |].
    apply agree_outside_refl. }
  bind_inv Hp. destruct x as [b1 off1].
  pose proof (Hwrite _ _ _ _ _ Hx Hoff) as [-> Hout1].
  assert (Hoff1 : 0 <= off + FFFF_ELT_LENGTH) by lia.
  pose proof (IH _ _ _ _ Hoff1 Hp) as [-> Hout2].
  cbn [length]. rewrite Nat2Z.inj_succ. split; [lia |].
  eapply agree_outside_widen;
    [exact (agree_outside_trans _ _ _ _ _ _ _ Hout2 Hout1) | |]; nia.
Qed.

Lemma set_elements_elements (h : Ffff) : set_elements (elements h) h = h.
Proof. by destruct h. Qed.

(** Decoding a table where it was encoded: the loop first reads back
    the entries that were written, one iteration each. *)
Lemma unpack_loop_packed
    (Hlocal : unpack_reads_entry_only)
    (Hwrite : pack_writes_entry_only)
    (Hinv : unpack_inverts_pack)
    (Helt : 0 <= FFFF_ELT_LENGTH) (elts : list FfffElement) :
  ∀ b off bF offF,
    0 <= off → pack_elements elts b off = Some (bF, offF) →
    Forall (λ e, element_type e ≠ FFFF_ELEMENT_END_OF_ELEMENT_TABLE)
      elts →
    ∀ (n : nat) idx hX,
      length (ffff_buf hX) = length bF →
      agree_on (ffff_buf hX) bF off
        (off + Z.of_nat (length elts) * FFFF_ELT_LENGTH) →
      (length elts <= n)%nat →
      ∃ es,
        element_entry <$> es = element_entry <$> elts
        ∧ unpack_loop n idx off hX
          = unpack_loop (n - length elts) (idx + Z.of_nat (length elts))
              (off + Z.of_nat (length elts) * FFFF_ELT_LENGTH)
              (set_elements (elements hX ++ es) hX).
Proof.
  induction elts as [|e elts IH];
    intros b off bF offF Hoff Hp Hlive n idx hX Hlen Hon Hn.
  { exists []. split; [done |]. simpl.
    rewrite Nat.sub_0_r, Z.add_0_r, Z.add_0_r, app_nil_r.
    by rewrite set_elements_elements. }
  simpl in Hp. bind_inv Hp. destruct x as [b1 off1].
  cbn [length] in Hon, Hn |- *. rewrite Nat2Z.inj_succ in Hon |- *.
  pose proof (Hwrite _ _ _ _ _ Hx Hoff) as [-> Hout1].
  assert (Hoff1 : 0 <= off + FFFF_ELT_LENGTH) by lia.
  pose proof (pack_elements_frame Hwrite Helt _ _ _ _ _ Hoff1 Hp)
    as [_ Hout2].
  apply Forall_cons in Hlive as [He Hlive].
  destruct n as [|n]; [simpl in Hn; lia |].
  cbn [unpack_loop].
  set (e0 := new_element idx (flash_capacity hX) (erase_block_size hX)
               0 0 0 0 0 None).
  destruct (Hinv e e0 _ _ _ _ Hx Hoff) as (e' & Hdec & Hentry).
  apply Z.eqb_neq in He. rewrite He in Hdec.
  assert (Hsame : same_decode (element_unpack e0 (ffff_buf hX) off)
                    (element_unpack e0 b1 off)).
  { apply Hlocal; [done | destruct Hout2; congruence |].
    eapply agree_on_trans.
    - eapply agree_on_sub; [exact Hon | lia | nia].
    - eapply agree_outside_on; [exact Hout2 | lia]. }
  rewrite Hdec in Hsame.
  destruct (element_unpack e0 (ffff_buf hX) off) as [[e'' u]|];
    simpl in Hsame; [| done].
  destruct Hsame as [Hentry' ->]. cbn [mbind option_bind negb].
  destruct (IH _ _ _ _ Hoff1 Hp Hlive n (idx + 1)
              (set_elements (elements hX ++ [e'']) hX))
    as (es & Hes & Hloop).
  - exact Hlen.
  - eapply agree_on_sub; [exact Hon | lia | nia].
  - lia.
  - exists (e'' :: es). split.
    + rewrite !fmap_cons, Hes, Hentry', Hentry. reflexivity.
    + rewrite Hloop. cbn [elements set_elements].
      rewrite <- app_assoc. simpl. f_equal; lia.
Qed.

(** The stages of a run of [pack] at header offset 0. *)
Lemma pack_inv (now : list Z) (h hp : Ffff) :
  header_offset h = 0 →
  pack now h = Some hp →
  ∃ b1 b2 sizes b3 b4 offF,
    pack_into (ffff_buf h) 0 (pack_s 16 (sentinel h) ++ pack_s 16 now)
    = Some b1
    ∧ (if nonempty (flash_image_name h)
       then pack_into b1 FFFF_HDR_OFF_FLASH_IMAGE_NAME
              (pack_s 48 (flash_image_name h))
       else Some b1) = Some b2
    ∧ pack_LLLLL (flash_capacity h) (erase_block_size h) FFFF_HDR_LENGTH
        (flash_image_length h) (header_generation_number h) = Some sizes
    ∧ pack_into b2 FFFF_HDR_OFF_FLASH_CAPACITY sizes = Some b3
    ∧ pack_into b3 FFFF_HDR_OFF_TAIL_SENTINEL
        (pack_s 16 (tail_sentinel h)) = Some b4
    ∧ pack_elements (elements h) b4 FFFF_HDR_OFF_ELEMENT_TBL
      = Some (ffff_buf hp, offF).
Proof.
  intros Hoff. unfold pack. rewrite Hoff, !Z.add_0_l. intros Hrun.
  repeat bind_inv Hrun.
  match goal with p : (list Z * Z)%type |- _ => destruct p as [bF offF] end.
  injection Hrun as <-. cbn [ffff_buf set_ffff_buf].
  eexists _, _, _, _, _, _. split_and!; try reflexivity; eassumption.
Qed.

(** What the buffer holds after [pack] at header offset 0. *)
Lemma pack_reads (now : list Z) (h hp : Ffff) :
  layout_ok → pack_writes_entry_only →
  header_offset h = 0 →
  Z.of_nat (length (elements h)) <= FFFF_MAX_ELEMENTS →
  pack now h = Some hp →
  let bF := ffff_buf hp in
  let used :=
    FFFF_HDR_OFF_ELEMENT_TBL
    + Z.of_nat (length (elements h)) * FFFF_ELT_LENGTH in
  (100 <= length bF)%nat
  ∧ (Z.to_nat FFFF_HDR_OFF_TAIL_SENTINEL + 16 <= length bF)%nat
  ∧ length bF = length (ffff_buf h)
  ∧ take 16 (drop 0 bF) = pack_s 16 (sentinel h)
  ∧ take 16 (drop 16 bF) = pack_s 16 now
  ∧ (flash_image_name h ≠ [] →
     take 48 (drop 32 bF) = pack_s 48 (flash_image_name h))
  ∧ unpack_L (take 4 (drop 80 bF)) = flash_capacity h
  ∧ unpack_L (take 4 (drop 84 bF)) = erase_block_size h
  ∧ unpack_L (take 4 (drop 88 bF)) = FFFF_HDR_LENGTH
  ∧ unpack_L (take 4 (drop 92 bF)) = flash_image_length h
  ∧ unpack_L (take 4 (drop 96 bF)) = header_generation_number h
  ∧ take 16 (drop (Z.to_nat FFFF_HDR_OFF_TAIL_SENTINEL) bF)
    = pack_s 16 (tail_sentinel h)
  ∧ agree_on bF (ffff_buf h) used FFFF_HDR_OFF_TAIL_SENTINEL
  ∧ ∃ b4 offF,
      pack_elements (elements h) b4 FFFF_HDR_OFF_ELEMENT_TBL
      = Some (bF, offF).
Proof.
  intros (Hname & Hcap & Htbl & Helt & Hmax & Htail) Hwrite Hoff Hcount
    Hrun.
  apply pack_inv in Hrun
    as (b1 & b2 & sizes & b3 & b4 & offF & H1 & H2 & Hs & H3 & H4 & H5);
    [| done].
  rewrite Hname in H2. rewrite Hcap in H3.
  set (bF := ffff_buf hp) in *.
  assert (Hused : FFFF_HDR_OFF_ELEMENT_TBL
                  + Z.of_nat (length (elements h)) * FFFF_ELT_LENGTH
                  <= FFFF_HDR_OFF_TAIL_SENTINEL) by nia.
  assert (Hused0 : 0 <= Z.of_nat (length (elements h)) * FFFF_ELT_LENGTH)
    by nia.
  apply pack_LLLLL_inv in Hs as (Hslen & Hs0 & Hs4 & Hs8 & Hs12 & Hs16).
  (* the frames of the five writes *)
  pose proof (pack_into_agree_outside _ _ _ _ H1 ltac:(lia)) as Ho1.
  pose proof (pack_into_inv _ _ _ _ H1 ltac:(lia)) as [Hin1 _].
  rewrite length_app, !length_pack_s in Ho1, Hin1.
  assert (Ho2 : agree_outside b2 b1 32 80).
  { destruct (nonempty (flash_image_name h)).
    - pose proof (pack_into_agree_outside _ _ _ _ H2 ltac:(lia)) as Ho.
      by rewrite length_pack_s in Ho.
    - injection H2 as <-. apply agree_outside_refl. }
  pose proof (pack_into_agree_outside _ _ _ _ H3 ltac:(lia)) as Ho3.
  pose proof (pack_into_inv _ _ _ _ H3 ltac:(lia)) as [Hin3 _].
  rewrite Hslen in Ho3, Hin3.
  pose proof (pack_into_agree_outside _ _ _ _ H4 ltac:(lia)) as Ho4.
  pose proof (pack_into_inv _ _ _ _ H4 ltac:(lia)) as [Hin4 _].
  rewrite length_pack_s in Ho4, Hin4.
  assert (Htbl0 : 0 <= FFFF_HDR_OFF_ELEMENT_TBL) by lia.
  pose proof (pack_elements_frame Hwrite Helt _ _ _ _ _ Htbl0 H5)
    as [_ Ho5].
  assert (Hl4 : length bF = length b4) by (by destruct Ho5).
  assert (Hl3 : length b4 = length b3) by (by destruct Ho4).
  assert (Hl2 : length b3 = length b2) by (by destruct Ho3).
  assert (Hl1 : length b2 = length b1) by (by destruct Ho2).
  assert (Hl0 : length b1 = length (ffff_buf h)) by (by destruct Ho1).
  split_and!.
  - lia.
  - lia.
  - congruence.
  - rewrite (agree_outside_read _ _ _ _ 0 16 Ho5) by lia.
    rewrite (agree_outside_read _ _ _ _ 0 16 Ho4) by lia.
    rewrite (agree_outside_read _ _ _ _ 0 16 Ho3) by lia.
    rewrite (agree_outside_read _ _ _ _ 0 16 Ho2) by lia.
    rewrite (pack_into_read_at _ _ _ _ 0 0 16 H1)
      by (rewrite ?length_app, ?length_pack_s; lia).
    rewrite drop_0, take_app_length'; [done |].
    by rewrite length_pack_s.
  - rewrite (agree_outside_read _ _ _ _ 16 16 Ho5) by lia.
    rewrite (agree_outside_read _ _ _ _ 16 16 Ho4) by lia.
    rewrite (agree_outside_read _ _ _ _ 16 16 Ho3) by lia.
    rewrite (agree_outside_read _ _ _ _ 16 16 Ho2) by lia.
    rewrite (pack_into_read_at _ _ _ _ 16 16 16 H1)
      by (rewrite ?length_app, ?length_pack_s; lia).
    rewrite drop_app_length' by (by rewrite length_pack_s).
    apply take_ge. rewrite length_pack_s. lia.
  - intros Hne.
    rewrite (agree_outside_read _ _ _ _ 32 48 Ho5) by lia.
    rewrite (agree_outside_read _ _ _ _ 32 48 Ho4) by lia.
    rewrite (agree_outside_read _ _ _ _ 32 48 Ho3) by lia.
    destruct (flash_image_name h) as [|c name] eqn:Hnm; [done |].
    cbn [nonempty] in H2.
    rewrite (pack_into_read_at _ _ _ _ 32 0 48 H2)
      by (rewrite ?length_pack_s; lia).
    rewrite drop_0. apply take_ge. rewrite length_pack_s. lia.
  - rewrite (agree_outside_read _ _ _ _ 80 4 Ho5) by lia.
    rewrite (agree_outside_read _ _ _ _ 80 4 Ho4) by lia.
    by rewrite (pack_into_read_at _ _ _ _ 80 0 4 H3) by lia.
  - rewrite (agree_outside_read _ _ _ _ 84 4 Ho5) by lia.
    rewrite (agree_outside_read _ _ _ _ 84 4 Ho4) by lia.
    by rewrite (pack_into_read_at _ _ _ _ 84 4 4 H3) by lia.
  - rewrite (agree_outside_read _ _ _ _ 88 4 Ho5) by lia.
    rewrite (agree_outside_read _ _ _ _ 88 4 Ho4) by lia.
    by rewrite (pack_into_read_at _ _ _ _ 88 8 4 H3) by lia.
  - rewrite (agree_outside_read _ _ _ _ 92 4 Ho5) by lia.
    rewrite (agree_outside_read _ _ _ _ 92 4 Ho4) by lia.
    by rewrite (pack_into_read_at _ _ _ _ 92 12 4 H3) by lia.
  - rewrite (agree_outside_read _ _ _ _ 96 4 Ho5) by lia.
    rewrite (agree_outside_read _ _ _ _ 96 4 Ho4) by lia.
    by rewrite (pack_into_read_at _ _ _ _ 96 16 4 H3) by lia.
  - rewrite (agree_outside_read _ _ _ _
               (Z.to_nat FFFF_HDR_OFF_TAIL_SENTINEL) 16 Ho5) by lia.
    rewrite (pack_into_read_at _ _ _ _
               (Z.to_nat FFFF_HDR_OFF_TAIL_SENTINEL) 0 16 H4)
      by (rewrite ?length_pack_s; lia).
    rewrite drop_0. apply take_ge. rewrite length_pack_s. lia.
  - eapply agree_on_trans;
      [eapply agree_outside_on; [exact Ho5 | lia] |].
    eapply agree_on_trans;
      [eapply agree_outside_on; [exact Ho4 | lia] |].
    eapply agree_on_trans;
      [eapply agree_outside_on; [exact Ho3 | lia] |].
    eapply agree_on_trans;
      [eapply agree_outside_on; [exact Ho2 | lia] |].
    eapply agree_outside_on; [exact Ho1 | lia].
  - eauto.
Qed.

(** The first stage of [unpack] at header offset 0, in terms of the
    bytes of the buffer. *)
Lemma unpack_fixed_run (hX : Ffff) (hbs : Z) :
  header_offset hX = 0 → 0 <= FFFF_HDR_OFF_TAIL_SENTINEL →
  (100 <= length (ffff_buf hX))%nat →
  (Z.to_nat FFFF_HDR_OFF_TAIL_SENTINEL + 16 <= length (ffff_buf hX))%nat →
  header_block_size (unpack_L (take 4 (drop 84 (ffff_buf hX))))
  = Some hbs →
  ∃ hf,
    unpack_fixed hX = Some hf
    ∧ ffff_buf hf = ffff_buf hX ∧ elements hf = []
    ∧ sentinel hf = take 16 (drop 0 (ffff_buf hX))
    ∧ timestamp hf = take 16 (drop 16 (ffff_buf hX))
    ∧ flash_image_name hf = take 48 (drop 32 (ffff_buf hX))
    ∧ flash_capacity hf = unpack_L (take 4 (drop 80 (ffff_buf hX)))
    ∧ erase_block_size hf = unpack_L (take 4 (drop 84 (ffff_buf hX)))
    ∧ header_size hf = unpack_L (take 4 (drop 88 (ffff_buf hX)))
    ∧ flash_image_length hf = unpack_L (take 4 (drop 92 (ffff_buf hX)))
    ∧ header_generation_number hf
      = unpack_L (take 4 (drop 96 (ffff_buf hX)))
    ∧ tail_sentinel hf
      = take 16 (drop (Z.to_nat FFFF_HDR_OFF_TAIL_SENTINEL) (ffff_buf hX)).
Proof.
  intros Hoff Htail Hlen Hlen' Hhbs. unfold unpack_fixed.
  rewrite Hoff, unpack_from_ok by (simpl; lia).
  cbn [mbind option_bind].
  cbn [ffff_buf header_offset erase_block_size flash_capacity
       set_sentinel set_timestamp set_flash_image_name
       set_flash_capacity set_erase_block_size set_header_size
       set_flash_image_length set_header_generation_number].
  rewrite Hoff, Z.add_0_l, unpack_from_ok by lia.
  cbn [mbind option_bind].
  change (Z.to_nat 0) with 0%nat.
  rewrite !field_of_read by lia. cbn [Nat.add].
  cbn [ffff_buf header_offset erase_block_size flash_capacity
       set_sentinel set_timestamp set_flash_image_name
       set_flash_capacity set_erase_block_size set_header_size
       set_flash_image_length set_header_generation_number
       set_tail_sentinel].
  rewrite Hhbs. cbn [mbind option_bind].
  eexists. split; [reflexivity |]. split_and!; reflexivity.
Qed.

(** The validator returns whenever the header block size is
    defined. *)
Lemma validate_ffff_header_total (h : Ffff) (hbs : Z) :
  header_block_size (erase_block_size h) = Some hbs →
  ∃ h' v, validate_ffff_header h = Some (h', v).
Proof.
  intros Hhbs. unfold validate_ffff_header.
  repeat match goal with
         | |- ∃ _ _, (if ?b then _ else _) = _ =>
             destruct b; [eauto |]
         end.
  unfold padding_span.
  match goal with
  | |- ∃ _ _, (if ?b then _ else _) = _ => destruct b; [eauto |]
  end.
  destruct (validate_element_table_total
              (set_header_validity FFFF_HDR_VALID h) hbs Hhbs)
    as (h1 & ok & Hrun).
  rewrite Hrun. cbn [mbind option_bind]. destruct (negb ok); eauto.
Qed.

(** After the entries that were written, the decoding loop stops: the
    table is full, or the next slot decodes as unused. *)
Lemma unpack_loop_stops (Hlocal : unpack_reads_entry_only)
    (n : nat) (idx off : Z) (hX : Ffff) (b0 : list Z) :
  0 <= off → length (ffff_buf hX) = length b0 →
  ((0 < n)%nat → agree_on (ffff_buf hX) b0 off (off + FFFF_ELT_LENGTH)) →
  ((0 < n)%nat →
   ∀ e0, ∃ e', element_unpack e0 b0 off = Some (e', true)) →
  unpack_loop n idx off hX = Some hX.
Proof.
  intros Hoff Hlen Hon Hstop. destruct n as [|n]; [done |].
  cbn [unpack_loop].
  set (e0 := new_element idx (flash_capacity hX) (erase_block_size hX)
               0 0 0 0 0 None).
  destruct (Hstop ltac:(lia) e0) as [e' Hdec].
  pose proof (Hlocal e0 e0 _ _ off Hoff Hlen (Hon ltac:(lia))) as Hsame.
  rewrite Hdec in Hsame.
  destruct (element_unpack e0 (ffff_buf hX) off) as [[e'' u]|];
    simpl in Hsame; [| done].
  destruct Hsame as [_ ->]. reflexivity.
Qed.

(** C4, as the code has it: a header at header offset 0 whose table
    has at most [FFFF_MAX_ELEMENTS] entries, none of the end-of-table
    type, followed in the buffer by a slot that decodes as unused
    unless the table is full.  Decoding the buffer that [pack]
    produced returns the same entries (type, id, generation, location
    and length, in order), the same capacity, erase block size, image
    length and generation number; the sentinels and a non-empty image
    name come back cut or zero-padded to their widths of 16 and 48
    bytes, the header size is [FFFF_HDR_LENGTH] and the time stamp is
    the one [pack] took.  The fields of the layout must not overlap
    and the element codec must decode what it encoded, touching only
    the entry it is pointed at. *)
Theorem C4_round_trip_at_offset_zero (now : list Z) (h hp : Ffff)
    (hbs : Z) :
  layout_ok → unpack_reads_entry_only → pack_writes_entry_only →
  unpack_inverts_pack →
  header_offset h = 0 →
  Z.of_nat (length (elements h)) <= FFFF_MAX_ELEMENTS →
  Forall (λ e, element_type e ≠ FFFF_ELEMENT_END_OF_ELEMENT_TABLE)
    (elements h) →
  (Z.of_nat (length (elements h)) < FFFF_MAX_ELEMENTS →
   ∀ e0, ∃ e',
     element_unpack e0 (ffff_buf h)
       (FFFF_HDR_OFF_ELEMENT_TBL
        + Z.of_nat (length (elements h)) * FFFF_ELT_LENGTH)
     = Some (e', true)) →
  header_block_size (erase_block_size h) = Some hbs →
  pack now h = Some hp →
  ∃ hd,
    unpack hp = Some hd
    ∧ element_entry <$> elements hd = element_entry <$> elements h
    ∧ decoded_scalars now h hd.
Proof.
  intros Hlayout Hlocal Hwrite Hinv Hoff Hcount Hlive Hslot Hhbs Hpack.
  pose proof (pack_reads now h hp Hlayout Hwrite Hoff Hcount Hpack) as Hr.
  cbv zeta in Hr.
  destruct Hr as (Hl100 & HlT & Hlen & Rs & Rt & Rn & Rc & Re & Rh & Rl
                  & Rg & Rtail & Hon & b4 & offF & Hpe).
  destruct Hlayout as (_ & _ & Htbl & Helt & Hmax & Htail).
  assert (Hoffp : header_offset hp = 0).
  { apply pack_frame in Hpack. rewrite Hpack. exact Hoff. }
  assert (Hhbs' : header_block_size
                    (unpack_L (take 4 (drop 84 (ffff_buf hp))))
                  = Some hbs) by (by rewrite Re).
  destruct (unpack_fixed_run hp hbs Hoffp ltac:(nia) Hl100 HlT Hhbs')
    as (hf & Hfixed & Hbuf & Hnil & Fs & Ft & Fn & Fc & Fe & Fh & Fl & Fg
        & Ftail).
  assert (Htbl0 : 0 <= FFFF_HDR_OFF_ELEMENT_TBL) by lia.
  destruct (unpack_loop_packed Hlocal Hwrite Hinv Helt (elements h)
              b4 _ _ _ Htbl0 Hpe Hlive (Z.to_nat FFFF_MAX_ELEMENTS) 0 hf)
    as (es & Hes & Hloop).
  { by rewrite Hbuf. }
  { rewrite Hbuf. intros i Hi. reflexivity. }
  { lia. }
  rewrite Hnil in Hloop. cbn [app] in Hloop.
  set (hL := set_elements es hf) in *.
  assert (Hstop : unpack_loop
                    (Z.to_nat FFFF_MAX_ELEMENTS - length (elements h))
                    (0 + Z.of_nat (length (elements h)))
                    (FFFF_HDR_OFF_ELEMENT_TBL
                     + Z.of_nat (length (elements h)) * FFFF_ELT_LENGTH)
                    hL = Some hL).
  { apply (unpack_loop_stops Hlocal _ _ _ _ (ffff_buf h)).
    - nia.
    - subst hL. cbn [ffff_buf set_elements]. congruence.
    - intros Hn. subst hL. cbn [ffff_buf set_elements]. rewrite Hbuf.
      eapply agree_on_sub; [exact Hon | lia | nia].
    - intros Hn. apply Hslot. lia. }
  assert (HhbsL : header_block_size (erase_block_size hL) = Some hbs).
  { subst hL. cbn [erase_block_size set_elements]. by rewrite Fe. }
  destruct (validate_ffff_header_total hL hbs HhbsL) as (hd & v & Hval).
  exists hd. split.
  { unfold unpack. rewrite Hfixed. cbn [mbind option_bind].
    rewrite Hloop, Hstop. cbn [mbind option_bind].
    rewrite Hval. reflexivity. }
  apply validate_ffff_header_frame, validation_frame_header_fields in Hval.
  unfold header_fields in Hval. unfold decoded_scalars.
  injection Hval. intros -> _ -> -> -> -> -> -> -> -> ->.
  subst hL.
  cbn [sentinel timestamp flash_image_name flash_capacity
       erase_block_size header_size flash_image_length
       header_generation_number elements tail_sentinel set_elements].
  split; [exact Hes |].
  rewrite Fs, Ft, Fn, Fc, Fe, Fh, Fl, Fg, Ftail.
  rewrite Rs, Rt, Rc, Re, Rh, Rl, Rg, Rtail.
  split_and!; try reflexivity. exact Rn.
Qed.

End RoundTrip.

(** ** The sample layout and codec meet the contracts; runs on concrete
    images *)

Module Examples.
Import Sample.

Lemma agree_on_of_read (b1 b2 : list Z) (o n : nat) :
  take n (drop o b1) = take n (drop o b2) →
  agree_on b1 b2 (Z.of_nat o) (Z.of_nat (o + n)).
Proof.
  intros Heq i Hi.
  assert (Hl : take n (drop o b1) !! (i - o)%nat
               = take n (drop o b2) !! (i - o)%nat) by (by rewrite Heq).
  rewrite !lookup_take_lt, !lookup_drop in Hl by lia.
  replace (o + (i - o))%nat with i in Hl by lia. exact Hl.
Qed.

Lemma sample_layout_ok : layout_ok.
Proof. unfold layout_ok. cbn. lia. Qed.

Lemma sample_unpack_reads_entry_only : unpack_reads_entry_only.
Proof.
  intros e1 e2 b1 b2 off Hoff Hlen Hon. cbn [element_unpack ops].
  unfold unpack_from, struct_offset. rewrite <- Hlen.
  destruct (_ && _) eqn:Hin; cbn [mbind option_bind]; [| done].
  apply andb_true_iff in Hin as [_ Hin].
  destruct (Z.ltb_spec off 0); [lia |]. apply Z.leb_le in Hin.
  assert (Hraw : take 20 (drop (Z.to_nat off) b1)
                 = take 20 (drop (Z.to_nat off) b2)).
  { eapply agree_on_read; [exact Hon | lia |]. cbn. lia. }
  rewrite Hraw. done.
Qed.

Lemma sample_pack_writes_entry_only : pack_writes_entry_only.
Proof.
  intros e buf off buf' off' Hp Hoff. cbn [element_pack ops] in Hp.
  repeat bind_inv Hp. injection Hp as <- <-.
  apply pack_LLLLL_inv in Hx as (Hlen & _).
  split; [reflexivity |].
  pose proof (pack_into_agree_outside _ _ _ _ Hx0 Hoff) as Hout.
  by rewrite Hlen in Hout.
Qed.

Lemma sample_unpack_inverts_pack : unpack_inverts_pack.
Proof.
  intros e e0 buf off buf' off' Hp Hoff. cbn [element_pack ops] in Hp.
  repeat bind_inv Hp. injection Hp as <- <-.
  apply pack_LLLLL_inv in Hx as (Hlen & Ht & Hi & Hg & Hl & Hn).
  pose proof (pack_into_inv _ _ _ _ Hx0 Hoff) as [Hin _].
  pose proof (pack_into_length _ _ _ _ Hx0 Hoff) as Hlen'.
  pose proof (pack_into_read_at _ _ _ _ (Z.to_nat off) 0 20 Hx0 Hoff
                ltac:(lia) ltac:(lia)) as Hraw.
  rewrite drop_0, (take_ge x) in Hraw by lia.
  cbn [element_unpack ops].
  rewrite unpack_from_ok, Hraw by lia. cbn [mbind option_bind].
  unfold field. rewrite Ht, Hi, Hg, Hl, Hn.
  eexists. split; [reflexivity |]. reflexivity.
Qed.

(** C1, at a failing input.  The flash image holds two live entries
    with the same (type 1, id 5, generation 2) at the disjoint
    locations 2048 and 4096.  Loading it records each entry in the
    duplicate list of the other, yet [duplicates_found] stays [False]
    (the check sets [duplicatess_found]), the element table check
    passes and the header is classified VALID. *)
Theorem C1_duplicates_pass_validation :
  ∃ h',
    unpack (loading image_with_duplicates 0) = Some h'
    ∧ element_entry <$> elements h'
      = [(1, 5, 2, 2048, 100); (1, 5, 2, 4096, 100)]
    ∧ duplicates h' = [[1]; [0]]
    ∧ duplicates_found h' = false
    ∧ duplicatess_found h' = Some true
    ∧ snd <$> validate_element_table h' = Some true
    ∧ header_validity h' = FFFF_HDR_VALID.
Proof.
  eexists. split; [vm_compute; reflexivity |].
  vm_compute. repeat split.
Qed.

(** C3, at a failing input.  The header at offset 0 holds one entry,
    which ends at byte 120; the trailing sentinel starts at byte 496;
    byte 400 is 0xAA.  The padding check reads the slice
    [buf[120:376]] only, finds it zeroed, and the header is classified
    VALID. *)
Theorem C3_dirty_padding_passes :
  ∃ h',
    unpack (loading image_with_dirty_padding 0) = Some h'
    ∧ length (elements h') = 1%nat
    ∧ header_offset h' + FFFF_HDR_OFF_ELEMENT_TBL
      + Z.of_nat (length (elements h')) * FFFF_ELT_LENGTH = 120
    ∧ header_offset h' + FFFF_HDR_OFF_TAIL_SENTINEL = 496
    ∧ ffff_buf h' !! 400%nat = Some 170
    ∧ padding_span h' = (120, 376)
    ∧ header_validity h' = FFFF_HDR_VALID.
Proof.
  eexists. split; [vm_compute; reflexivity |].
  vm_compute. repeat split.
Qed.

(** C4, counterexample: the authored header named "abc", with one
    entry and a table that the element table check accepts, does not
    come back from [pack] then [unpack] with the same scalar fields:
    the name comes back as 48 bytes. *)
Lemma C4_name_is_not_preserved :
  snd <$> validate_element_table named_abc = Some true
  ∧ ¬ round_trip clock named_abc.
Proof.
  split; [vm_compute; reflexivity |].
  intros (hp & hd & Hp & Hu & _ & Hs).
  assert (Hname : flash_image_name <$> (pack clock named_abc ≫= unpack)
                  = Some (pack_s 48 [97; 98; 99]))
    by (vm_compute; reflexivity).
  rewrite Hp in Hname. cbn [mbind option_bind] in Hname.
  rewrite Hu in Hname. cbn [fmap option_fmap option_map] in Hname.
  injection Hname as Hname.
  assert (Hs' : flash_image_name hd = flash_image_name named_abc)
    by exact (f_equal (λ t, t.1.1.1.1.1.1.2) Hs).
  rewrite Hs' in Hname. vm_compute in Hname. discriminate Hname.
Qed.

(** *** The general theorems at concrete inputs *)

Lemma C2_header_block_size_64 :
  header_block_size 64 = Some (FFFF_HDR_LENGTH + 1)
  ∧ ¬ (64 | FFFF_HDR_LENGTH + 1)
  ∧ header_block_size 64 ≠ Some (spec_header_block_size 64).
Proof.
  apply (C2_header_block_size_counts_by_one 64).
  - lia.
  - exists 8. reflexivity.
  - reflexivity.
  - reflexivity.
Defined.

Lemma C4_round_trip_named_abc :
  ∃ hp,
    pack clock named_abc = Some hp
    ∧ ∃ hd,
        unpack hp = Some hd
        ∧ element_entry <$> elements hd
          = element_entry <$> elements named_abc
        ∧ decoded_scalars clock named_abc hd.
Proof.
  eexists. split; [vm_compute; reflexivity |].
  apply (C4_round_trip_at_offset_zero clock named_abc _ 513).
  - exact sample_layout_ok.
  - exact sample_unpack_reads_entry_only.
  - exact sample_pack_writes_entry_only.
  - exact sample_unpack_inverts_pack.
  - reflexivity.
  - vm_compute. discriminate.
  - repeat constructor. vm_compute. discriminate.
  - intros _ e0.
    destruct (element_unpack e0 (ffff_buf named_abc)
                (FFFF_HDR_OFF_ELEMENT_TBL
                 + Z.of_nat (length (elements named_abc))
                   * FFFF_ELT_LENGTH)) as [[e' u]|] eqn:Hdec;
      vm_compute in Hdec; [| discriminate Hdec].
    injection Hdec as _ <-. eauto.
  - vm_compute. reflexivity.
  - vm_compute. reflexivity.
Defined.

Lemma C5_layout_to_be_placed :
  (∃ h', post_process clock clock to_be_placed = Some h')
  ∧ (∃ elts,
       layout_loop (flash_image_length to_be_placed)
         (erase_block_size to_be_placed) (elements to_be_placed)
         (element_location (elt 0 1 5 2 0 100)) = Some (elts, 448)
       ∧ element_location <$> elts = [0; 128; 384])
  ∧ ∀ h', post_process clock clock to_be_placed = Some h' →
          element_location <$> elements h' = [0; 128; 384]
          ∧ flash_image_length h' = 448.
Proof.
  split; [eexists; vm_compute; reflexivity |].
  apply (C5_layout_three_elements clock clock to_be_placed
           (elt 0 1 5 2 0 100) (elt 1 1 6 2 0 250) (elt 2 1 7 2 0 50));
    reflexivity.
Defined.

Lemma C6_overlapping_elements :
  ∃ h' ok ci cj,
    validate_element_table overlapping = Some (h', ok)
    ∧ collisions h' !! 0%nat = Some ci ∧ Z.of_nat 1 ∈ ci
    ∧ collisions h' !! 1%nat = Some cj ∧ Z.of_nat 0 ∈ cj.
Proof.
  apply (C6_collisions_symmetric overlapping 513 0 1
           (elt 0 1 5 2 4096 256) (elt 1 2 6 1 4224 256)).
  - vm_compute. reflexivity.
  - reflexivity.
  - reflexivity.
  - lia.
  - unfold ranges_overlap. cbn. lia.
Defined.

Lemma C7_erased_ff :
  validate_ffff_header erased_ff
  = Some (set_header_validity FFFF_HDR_ERASED erased_ff, FFFF_HDR_ERASED).
Proof.
  apply (C7_constant_fill_is_erased erased_ff 255).
  - right. reflexivity.
  - apply is_constant_fill_Forall. vm_compute. reflexivity.
Defined.

Lemma C8_full_and_not_full :
  add_element full_table 1 5 2 2048 100 "blob" = (full_table, false)
  ∧ ∃ h', add_element fresh 1 5 2 2048 100 "blob" = (h', true)
          ∧ length (elements h') = S (length (elements fresh)).
Proof.
  split.
  - apply (proj1 (C8_add_element_capacity full_table 1 5 2 2048 100
                    "blob")).
    vm_compute. discriminate.
  - eapply (proj2 (C8_add_element_capacity fresh 1 5 2 2048 100
                     "blob")).
    + vm_compute. reflexivity.
    + reflexivity.
Defined.

End Examples.

(** * Further properties of the code *)

(** ** The rows of the element table check *)

Section Rows.
Context `{K : FfffConsts} `{E : FfffElementOps}.

Lemma overlapb_true (a b : FfffElement) :
  overlapb a b = true ↔ ranges_overlap a b.
Proof.
  unfold overlapb, ranges_overlap.
  rewrite andb_true_iff, Z.geb_leb, !Z.leb_le. lia.
Qed.

Lemma same_identityb_true (a b : FfffElement) :
  same_identityb a b = true ↔ same_identity a b.
Proof.
  unfold same_identityb, same_identity.
  rewrite !andb_true_iff, !Z.eqb_eq. tauto.
Qed.

Lemma live_elements_lookup_iff (l : list FfffElement) :
  ∀ (j : nat) (b : FfffElement),
    live_elements l !! j = Some b ↔
    l !! j = Some b
    ∧ ∀ (p : nat) (e : FfffElement),
        (p <= j)%nat → l !! p = Some e →
        element_type e ≠ FFFF_ELEMENT_END_OF_ELEMENT_TABLE.
Proof.
  intros j b. split; [apply live_elements_lookup |].
  revert j. induction l as [|e0 l IH]; intros j [Hj Hlive]; [done |].
  simpl. destruct (Z.eqb_spec (element_type e0)
                     FFFF_ELEMENT_END_OF_ELEMENT_TABLE) as [Hend|Hne].
  { exfalso. apply (Hlive 0%nat e0); [lia | done | done]. }
  destruct j as [|j]; [done |]. simpl in *. apply IH. split; [done |].
  intros p e Hp He. apply (Hlive (S p) e); [lia | done].
Qed.

Lemma reached_nil (i j m : nat) (b : FfffElement) : ¬ reached i j [] m b.
Proof. by intros [? _]. Qed.

Lemma reached_cons (i j m : nat) (e b : FfffElement)
    (rest : list FfffElement) :
  reached i j (e :: rest) m b ↔
  (m = 0%nat ∧ b = e ∧ j ≠ i
   ∧ element_type e ≠ FFFF_ELEMENT_END_OF_ELEMENT_TABLE)
  ∨ (∃ m', m = S m' ∧ reached i (S j) rest m' b
           ∧ (j ≠ i →
              element_type e ≠ FFFF_ELEMENT_END_OF_ELEMENT_TABLE)).
Proof.
  unfold reached. split.
  - intros (Hm & Hne & Hlive). destruct m as [|m]; simpl in Hm.
    + left. injection Hm as ->. rewrite Nat.add_0_r in Hne.
      split_and!; [done | done | done |].
      apply (Hlive 0%nat b); [lia | by rewrite Nat.add_0_r | done].
    + right. exists m. split_and!; [done | done | lia | |].
      * intros p e' Hp Hpi He'. apply (Hlive (S p) e'); [lia | lia | done].
      * intros Hji. apply (Hlive 0%nat e); [lia | | done].
        by rewrite Nat.add_0_r.
  - intros [(-> & -> & Hne & Hty) | (m' & -> & (Hm & Hne & Hlive) & He)].
    + split_and!; [done | lia |].
      intros p e' Hp _ He'. replace p with 0%nat in He' by lia.
      by injection He' as <-.
    + split_and!; [done | lia |].
      intros [|p] e' Hp Hpi He'; simpl in He'.
      * injection He' as <-. apply He. by rewrite Nat.add_0_r in Hpi.
      * apply (Hlive p e'); [lia | lia | done].
Qed.

(** From index 0 and for a live element [a] at [i], the inner loop
    reaches exactly the other live entries. *)
Lemma reached_live (all : list FfffElement) (i m : nat)
    (a b : FfffElement) :
  live_elements all !! i = Some a →
  reached i 0 all m b ↔ live_elements all !! m = Some b ∧ m ≠ i.
Proof.
  intros Ha. apply live_elements_lookup in Ha as [Ha Halive].
  unfold reached. rewrite live_elements_lookup_iff. simpl. split.
  - intros (Hm & Hne & Hlive). split_and!; [done | | done].
    intros p e Hp He. destruct (decide (p = i)) as [->|Hpi].
    + apply (Halive i e); [lia | done].
    + by apply (Hlive p e).
  - intros ((Hm & Hlive) & Hne). split_and!; [done | done |].
    intros p e Hp _ He. by apply (Hlive p e).
Qed.

(** One pass of the inner loop: the two tests decide what is appended
    and which flag is raised. *)
Lemma pair_step_char elt_a j elt_b h c d :
  let r := pair_step elt_a j elt_b (h, c, d) in
  r.1.2 = c ++ (if overlapb elt_a elt_b then [Z.of_nat j] else [])
  ∧ r.2 = d ++ (if same_identityb elt_a elt_b then [Z.of_nat j] else [])
  ∧ collisions_found r.1.1
    = collisions_found h || overlapb elt_a elt_b
  ∧ invalid_elements_found r.1.1 = invalid_elements_found h.
Proof.
  unfold pair_step, overlapb, same_identityb.
  destruct (_ && _); destruct (_ && _ && _); cbn [fst snd];
    rewrite ?app_nil_r, ?orb_true_r, ?orb_false_r; done.
Qed.

(** The whole inner loop. *)
Lemma pair_loop_char i elt_a rest : ∀ j h c d,
  ∃ cs ds,
    (pair_loop i elt_a j rest (h, c, d)).1.2 = c ++ cs
    ∧ (pair_loop i elt_a j rest (h, c, d)).2 = d ++ ds
    ∧ collisions_found (pair_loop i elt_a j rest (h, c, d)).1.1
      = collisions_found h || nonempty cs
    ∧ invalid_elements_found (pair_loop i elt_a j rest (h, c, d)).1.1
      = invalid_elements_found h
    ∧ (∀ x, x ∈ cs ↔
            ∃ (m : nat) b, x = Z.of_nat (j + m) ∧ reached i j rest m b
                           ∧ overlapb elt_a b = true)
    ∧ (∀ x, x ∈ ds ↔
            ∃ (m : nat) b, x = Z.of_nat (j + m) ∧ reached i j rest m b
                           ∧ same_identityb elt_a b = true).
Proof.
  induction rest as [|e rest IH]; intros j h c d.
  { exists [], []. simpl. rewrite !app_nil_r, orb_false_r.
    split_and!; try done;
      (intros x; split; [by intros ?%elem_of_nil
                        | by intros (m & b & _ & ?%reached_nil & _)]). }
  cbn [pair_loop]. destruct (Nat.eqb_spec i j) as [Hij|Hij].
  - destruct (IH (S j) h c d) as (cs & ds & Hc & Hd & Hcf & Hinv & Hcs & Hds).
    exists cs, ds. split_and!; try done.
    + intros x. rewrite Hcs. split.
      * intros (m & b & -> & Hr & Hov). exists (S m), b.
        split_and!; [f_equal; lia | | done].
        apply reached_cons. right. exists m. split_and!; [done | done |].
        intros Hne. by subst.
      * intros (m & b & -> & Hr & Hov).
        apply reached_cons in Hr
          as [(_ & _ & Hne & _) | (m' & -> & Hr & _)]; [by subst |].
        exists m', b. split_and!; [f_equal; lia | done | done].
    + intros x. rewrite Hds. split.
      * intros (m & b & -> & Hr & Hov). exists (S m), b.
        split_and!; [f_equal; lia | | done].
        apply reached_cons. right. exists m. split_and!; [done | done |].
        intros Hne. by subst.
      * intros (m & b & -> & Hr & Hov).
        apply reached_cons in Hr
          as [(_ & _ & Hne & _) | (m' & -> & Hr & _)]; [by subst |].
        exists m', b. split_and!; [f_equal; lia | done | done].
  - destruct (Z.eqb_spec (element_type e)
                FFFF_ELEMENT_END_OF_ELEMENT_TABLE) as [Hend|Hty].
    + exists [], []. cbn [fst snd nonempty].
      rewrite !app_nil_r, orb_false_r. split_and!; try done;
        (intros x; split; [by intros ?%elem_of_nil |];
         intros (m & b & _ & Hr & _);
         apply reached_cons in Hr
           as [(_ & _ & _ & Hne) | (m' & _ & _ & Hne)];
         exfalso; [by apply Hne | apply Hne; [congruence | exact Hend]]).
    + pose proof (pair_step_char elt_a j e h c d) as Hstep.
      destruct (pair_step elt_a j e (h, c, d)) as [[h1 c1] d1].
      cbn [fst snd] in Hstep. destruct Hstep as (-> & -> & Hcf1 & Hinv1).
      destruct (IH (S j) h1
                  (c ++ (if overlapb elt_a e then [Z.of_nat j] else []))
                  (d ++ (if same_identityb elt_a e then [Z.of_nat j]
                         else [])))
        as (cs & ds & Hc & Hd & Hcf & Hinv & Hcs & Hds).
      exists ((if overlapb elt_a e then [Z.of_nat j] else []) ++ cs),
             ((if same_identityb elt_a e then [Z.of_nat j] else []) ++ ds).
      split_and!.
      * by rewrite Hc, app_assoc.
      * by rewrite Hd, app_assoc.
      * rewrite Hcf, Hcf1. destruct (overlapb elt_a e); simpl;
          rewrite ?orb_true_r, ?orb_false_r; done.
      * by rewrite Hinv.
      * intros x. rewrite elem_of_app, Hcs. split.
        -- intros [Hx | (m & b & -> & Hr & Hov)].
           ++ destruct (overlapb elt_a e) eqn:Hov;
                [| by apply elem_of_nil in Hx].
              apply list_elem_of_singleton in Hx as ->.
              exists 0%nat, e. split_and!; [f_equal; lia | | done].
              apply reached_cons. by left.
           ++ exists (S m), b. split_and!; [f_equal; lia | | done].
              apply reached_cons. right. eauto.
        -- intros (m & b & -> & Hr & Hov).
           apply reached_cons in Hr
             as [(-> & -> & _ & _) | (m' & -> & Hr & _)].
           ++ left. rewrite Hov, Nat.add_0_r.
              by apply list_elem_of_singleton.
           ++ right. exists m', b.
              split_and!; [f_equal; lia | done | done].
      * intros x. rewrite elem_of_app, Hds. split.
        -- intros [Hx | (m & b & -> & Hr & Hov)].
           ++ destruct (same_identityb elt_a e) eqn:Hov;
                [| by apply elem_of_nil in Hx].
              apply list_elem_of_singleton in Hx as ->.
              exists 0%nat, e. split_and!; [f_equal; lia | | done].
              apply reached_cons. by left.
           ++ exists (S m), b. split_and!; [f_equal; lia | | done].
              apply reached_cons. right. eauto.
        -- intros (m & b & -> & Hr & Hov).
           apply reached_cons in Hr
             as [(-> & -> & _ & _) | (m' & -> & Hr & _)].
           ++ left. rewrite Hov, Nat.add_0_r.
              by apply list_elem_of_singleton.
           ++ right. exists m', b.
              split_and!; [f_equal; lia | done | done].
Qed.

(** One pass of the outer loop for a live element. *)
Lemma table_step_char i elt_a h h' :
  live_elements (elements h) !! i = Some elt_a →
  table_step i elt_a h = Some h' →
  ∃ hbs row drow,
    header_block_size (erase_block_size h) = Some hbs
    ∧ scan_frame h' = scan_frame h
    ∧ collisions h' = collisions h ++ [row]
    ∧ duplicates h' = duplicates h ++ [drow]
    ∧ collisions_found h' = collisions_found h || nonempty row
    ∧ invalid_elements_found h'
      = invalid_elements_found h
        || negb (element_validate elt_a (element_location_min h)
                   (element_location_max h))
    ∧ row_spec hbs (elements h) i elt_a row drow.
Proof.
  intros Hlive Hrun. pose proof (table_step_frame _ _ _ _ Hrun) as Hfr.
  apply table_step_inv in Hrun.
  destruct Hrun as (hbs & h2 & c2 & h3 & c3 & d3 & Hhbs & Hchk & Hpl & _
                    & _ & Hcol & Hdup & Hcf & Hinv & _).
  destruct (pair_loop_char i elt_a (elements h) 0 h2 c2 [])
    as (cs & ds & Hc & Hd & Hcf3 & Hinv3 & Hcs & Hds).
  rewrite Hpl in Hc, Hd, Hcf3, Hinv3. cbn [fst snd] in Hc, Hd, Hcf3, Hinv3.
  simpl in Hd. subst c3 d3.
  assert (Hc2 : c2 = (if element_location elt_a <? 2 * hbs
                      then [FFFF_HEADER_COLLISION] else [])
                ∧ collisions_found h2
                  = collisions_found h
                    || (element_location elt_a <? 2 * hbs)
                ∧ invalid_elements_found h2
                  = invalid_elements_found h
                    || negb (element_validate elt_a
                               (element_location_min h)
                               (element_location_max h))).
  { unfold check_header_collision, check_element in Hchk.
    destruct (negb _); destruct (_ <? _); injection Hchk as <- <-;
      cbn; rewrite ?orb_true_r, ?orb_false_r; done. }
  destruct Hc2 as (-> & Hcf2 & Hinv2).
  exists hbs, ((if element_location elt_a <? 2 * hbs
                then [FFFF_HEADER_COLLISION] else []) ++ cs), ds.
  split_and!; try done.
  - rewrite Hcf, Hcf3, Hcf2.
    destruct (element_location elt_a <? 2 * hbs); simpl;
      rewrite ?orb_true_r, ?orb_false_r; done.
  - by rewrite Hinv, Hinv3, Hinv2.
  - split.
    + intros x. rewrite elem_of_app, Hcs. split.
      * intros [Hx | (m & b & -> & Hr & Hov)].
        -- left. destruct (Z.ltb_spec (element_location elt_a) (2 * hbs));
             [| by apply elem_of_nil in Hx].
           by apply list_elem_of_singleton in Hx as ->.
        -- right. apply (reached_live _ _ _ _ _ Hlive) in Hr as [Hb Hne].
           apply overlapb_true in Hov. exists m, b. done.
      * intros [[-> Hlt] | (j & b & -> & Hne & Hb & Hov)].
        -- left. destruct (Z.ltb_spec (element_location elt_a) (2 * hbs));
             [by apply list_elem_of_singleton | lia].
        -- right. exists j, b. split_and!; [done | |].
           ++ by apply (reached_live _ _ _ _ _ Hlive).
           ++ by apply overlapb_true.
    + intros x. rewrite Hds. split.
      * intros (m & b & -> & Hr & Hid).
        apply (reached_live _ _ _ _ _ Hlive) in Hr as [Hb Hne].
        apply same_identityb_true in Hid. exists m, b. done.
      * intros (j & b & -> & Hne & Hb & Hid). exists j, b.
        split_and!; [done | |].
        -- by apply (reached_live _ _ _ _ _ Hlive).
        -- by apply same_identityb_true.
Qed.

(** The whole scan, from the live entry at index [i] on: one pair of
    rows per remaining live entry, and the two flags. *)
Lemma table_loop_char rest : ∀ i h h',
  (∀ (m : nat) a, live_elements rest !! m = Some a →
     live_elements (elements h) !! (i + m)%nat = Some a) →
  table_loop i rest h = Some h' →
  ∃ rows drows,
    scan_frame h' = scan_frame h
    ∧ collisions h' = collisions h ++ rows
    ∧ duplicates h' = duplicates h ++ drows
    ∧ length rows = length (live_elements rest)
    ∧ length drows = length (live_elements rest)
    ∧ collisions_found h' = collisions_found h || existsb nonempty rows
    ∧ invalid_elements_found h'
      = invalid_elements_found h
        || existsb (λ a, negb (element_validate a (element_location_min h)
                                 (element_location_max h)))
             (live_elements rest)
    ∧ ∀ (m : nat) a,
        live_elements rest !! m = Some a →
        ∃ hbs row drow,
          header_block_size (erase_block_size h) = Some hbs
          ∧ rows !! m = Some row ∧ drows !! m = Some drow
          ∧ row_spec hbs (elements h) (i + m) a row drow.
Proof.
  induction rest as [|e rest IH]; intros i h h' Hsuf Hrun;
    cbn [table_loop live_elements] in *.
  { injection Hrun as <-. exists [], []. rewrite !app_nil_r, !orb_false_r.
    split_and!; try done. }
  destruct (element_type e =? FFFF_ELEMENT_END_OF_ELEMENT_TABLE) eqn:Hty.
  { injection Hrun as <-. exists [], []. rewrite !app_nil_r, !orb_false_r.
    split_and!; try done. }
  bind_inv Hrun. rename x into h1.
  assert (Hlive : live_elements (elements h) !! i = Some e).
  { specialize (Hsuf 0%nat e). rewrite Nat.add_0_r in Hsuf. by apply Hsuf. }
  destruct (table_step_char _ _ _ _ Hlive Hx)
    as (hbs & row & drow & Hhbs & Hfr1 & Hcol1 & Hdup1 & Hcf1 & Hinv1
        & Hspec).
  pose proof (scan_frame_elements _ _ Hfr1) as (Hel & Hebs & _).
  assert (Hmm : element_location_min h1 = element_location_min h
                ∧ element_location_max h1 = element_location_max h).
  { unfold scan_frame, validation_frame in Hfr1. injection Hfr1.
    intros. done. }
  destruct Hmm as [Hmin Hmax].
  destruct (IH (S i) h1 h') as (rows & drows & Hfr & Hcol & Hdup & Hlr
                                & Hld & Hcf & Hinv & Hrows).
  { intros m a Ha. rewrite Hel.
    replace (S i + m)%nat with (i + S m)%nat by lia. by apply Hsuf. }
  { exact Hrun. }
  exists (row :: rows), (drow :: drows). split_and!.
  - congruence.
  - by rewrite Hcol, Hcol1, <- app_assoc.
  - by rewrite Hdup, Hdup1, <- app_assoc.
  - simpl. lia.
  - simpl. lia.
  - rewrite Hcf, Hcf1. simpl. by rewrite orb_assoc.
  - rewrite Hinv, Hinv1, Hmin, Hmax. simpl. by rewrite orb_assoc.
  - intros [|m] a Ha; simpl in Ha.
    + injection Ha as <-. exists hbs, row, drow.
      rewrite Nat.add_0_r. done.
    + destruct (Hrows m a Ha) as (hbs' & row' & drow' & Hhbs' & Hr & Hd
                                  & Hspec').
      exists hbs', row', drow'. rewrite Hebs, Hel in *.
      replace (i + S m)%nat with (S i + m)%nat by lia. done.
Qed.

End Rows.

(** ** The element table check, as a whole *)

Section TableCheck.
Context `{K : FfffConsts} `{E : FfffElementOps}.

Lemma nonempty_elem (l : list Z) : nonempty l = true ↔ ∃ x, x ∈ l.
Proof.
  destruct l as [|x l]; simpl; split; try done.
  - by intros [x ?%elem_of_nil].
  - intros _. exists x. by left.
Qed.

(** The state after the check, row by row. *)
Lemma validate_element_table_char (h h' : Ffff) (ok : bool) :
  validate_element_table h = Some (h', ok) →
  length (collisions h') = length (live_elements (elements h))
  ∧ length (duplicates h') = length (live_elements (elements h))
  ∧ collisions_found h' = existsb nonempty (collisions h')
  ∧ invalid_elements_found h'
    = existsb (λ a, negb (element_validate a (element_location_min h)
                            (element_location_max h)))
        (live_elements (elements h))
  ∧ ok = negb (collisions_found h') && negb (invalid_elements_found h')
  ∧ ∀ (m : nat) a,
      live_elements (elements h) !! m = Some a →
      ∃ hbs row drow,
        header_block_size (erase_block_size h) = Some hbs
        ∧ collisions h' !! m = Some row ∧ duplicates h' !! m = Some drow
        ∧ row_spec hbs (elements h) m a row drow.
Proof.
  intros Hrun.
  pose proof (validate_element_table_verdict _ _ _ Hrun) as [_ Hok].
  unfold validate_element_table in Hrun. bind_inv Hrun.
  injection Hrun as <- _.
  apply table_loop_char in Hx
    as (rows & drows & _ & Hcol & Hdup & Hlr & Hld & Hcf & Hinv & Hrows);
    [| intros m a Ha; exact Ha].
  cbn in Hcol, Hdup, Hcf, Hinv, Hlr, Hld, Hrows.
  rewrite Hcol, Hdup. split_and!; try done.
Qed.


(** X3: the collision list of the live entry [a] at index [i] holds
    exactly the marker [FFFF_HEADER_COLLISION], when [a] starts below
    twice the header block size, and the indices of the other live
    entries whose byte range overlaps that of [a]: nothing else is
    ever reported. *)
Theorem collision_row_exact (h : Ffff) (hbs : Z) (i : nat)
    (a : FfffElement) :
  header_block_size (erase_block_size h) = Some hbs →
  live_elements (elements h) !! i = Some a →
  ∃ h' ok row,
    validate_element_table h = Some (h', ok)
    ∧ collisions h' !! i = Some row
    ∧ ∀ x, x ∈ row ↔
           (x = FFFF_HEADER_COLLISION ∧ element_location a < 2 * hbs)
           ∨ ∃ (j : nat) b, x = Z.of_nat j ∧ j ≠ i
                            ∧ live_elements (elements h) !! j = Some b
                            ∧ ranges_overlap a b.
Proof.
  intros Hhbs Hlive.
  destruct (validate_element_table_total h hbs Hhbs) as (h' & ok & Hrun).
  pose proof (validate_element_table_char _ _ _ Hrun)
    as (_ & _ & _ & _ & _ & Hrows).
  destruct (Hrows i a Hlive) as (hbs' & row & drow & Hhbs' & Hr & _
                                 & [Hspec _]).
  assert (hbs' = hbs) as -> by congruence.
  exists h', ok, row. done.
Qed.

(** X4: the duplicate list of the live entry [a] at index [i] holds
    exactly the indices of the other live entries with the type, id
    and generation of [a] (the per-index lists are right, whatever
    becomes of the aggregate flag). *)
Theorem duplicate_row_exact (h : Ffff) (hbs : Z) (i : nat)
    (a : FfffElement) :
  header_block_size (erase_block_size h) = Some hbs →
  live_elements (elements h) !! i = Some a →
  ∃ h' ok drow,
    validate_element_table h = Some (h', ok)
    ∧ duplicates h' !! i = Some drow
    ∧ ∀ x, x ∈ drow ↔
           ∃ (j : nat) b, x = Z.of_nat j ∧ j ≠ i
                          ∧ live_elements (elements h) !! j = Some b
                          ∧ same_identity a b.
Proof.
  intros Hhbs Hlive.
  destruct (validate_element_table_total h hbs Hhbs) as (h' & ok & Hrun).
  pose proof (validate_element_table_char _ _ _ Hrun)
    as (_ & _ & _ & _ & _ & Hrows).
  destruct (Hrows i a Hlive) as (hbs' & row & drow & _ & _ & Hd
                                 & [_ Hspec]).
  exists h', ok, drow. done.
Qed.

(** X5: a live entry that starts below twice the header block size
    makes the table check fail, with [FFFF_HEADER_COLLISION] in its
    collision list, whether or not another entry overlaps it. *)
Theorem header_region_guard (h : Ffff) (hbs : Z) (i : nat)
    (a : FfffElement) :
  header_block_size (erase_block_size h) = Some hbs →
  live_elements (elements h) !! i = Some a →
  element_location a < 2 * hbs →
  ∃ h' row,
    validate_element_table h = Some (h', false)
    ∧ collisions_found h' = true
    ∧ collisions h' !! i = Some row
    ∧ FFFF_HEADER_COLLISION ∈ row.
Proof.
  intros Hhbs Hlive Hlow.
  destruct (validate_element_table_total h hbs Hhbs) as (h' & ok & Hrun).
  pose proof (validate_element_table_char _ _ _ Hrun)
    as (_ & _ & Hcf & _ & Hok & Hrows).
  destruct (Hrows i a Hlive) as (hbs' & row & drow & Hhbs' & Hr & _
                                 & [Hspec _]).
  assert (hbs' = hbs) as -> by congruence.
  assert (Hin : FFFF_HEADER_COLLISION ∈ row) by (apply Hspec; by left).
  assert (Hfound : collisions_found h' = true).
  { rewrite Hcf. apply existsb_exists. exists row. split.
    - apply list_elem_of_In. by eapply list_elem_of_lookup_2.
    - apply nonempty_elem. eauto. }
  rewrite Hfound in Hok. simpl in Hok. subst ok.
  exists h', row. done.
Qed.

(** The verdict of a run of the element table check. *)
Lemma table_verdict_clean (h h' : Ffff) (ok : bool) (hbs : Z) :
  header_block_size (erase_block_size h) = Some hbs →
  validate_element_table h = Some (h', ok) →
  ok = true ↔
  ∀ (i : nat) a, live_elements (elements h) !! i = Some a →
                 clean_entry h hbs i a.
Proof.
  intros Hhbs Hrun.
  pose proof (validate_element_table_char _ _ _ Hrun)
    as (Hlr & _ & Hcf & Hinv & -> & Hrows).
  rewrite andb_true_iff, !negb_true_iff. split.
  - intros [Hnocol Hnoinv] i a Hlive.
    destruct (Hrows i a Hlive) as (hbs' & row & drow & Hhbs' & Hr & _
                                   & [Hspec _]).
    assert (hbs' = hbs) as -> by congruence.
    assert (Hempty : ∀ x, x ∉ row).
    { intros x Hx. rewrite Hcf in Hnocol.
      assert (existsb nonempty (collisions h') = true); [| congruence].
      apply existsb_exists. exists row. split.
      - apply list_elem_of_In. by eapply list_elem_of_lookup_2.
      - apply nonempty_elem. eauto. }
    unfold clean_entry. split_and!.
    + rewrite Hinv in Hnoinv.
      destruct (element_validate a _ _) eqn:Hval; [done |].
      assert (existsb
                (λ a0, negb (element_validate a0 (element_location_min h)
                               (element_location_max h)))
                (live_elements (elements h)) = true); [| congruence].
      apply existsb_exists. exists a. split.
      * apply list_elem_of_In. by eapply list_elem_of_lookup_2.
      * by rewrite Hval.
    + destruct (Z.le_gt_cases (2 * hbs) (element_location a)); [done |].
      exfalso. apply (Hempty FFFF_HEADER_COLLISION), Hspec. left.
      split; [done | lia].
    + intros j b Hne Hb Hov. apply (Hempty (Z.of_nat j)), Hspec.
      right. exists j, b. done.
  - intros Hclean. split.
    + rewrite Hcf. apply not_true_is_false. intros Hex.
      apply existsb_exists in Hex as (row & Hin & Hne).
      apply list_elem_of_In, list_elem_of_lookup in Hin as [i Hi].
      assert (Hlt : (i < length (live_elements (elements h)))%nat).
      { rewrite <- Hlr. by eapply lookup_lt_Some. }
      apply lookup_lt_is_Some in Hlt as [a Ha].
      destruct (Hrows i a Ha) as (hbs' & row' & drow & Hhbs' & Hr & _
                                  & [Hspec _]).
      assert (hbs' = hbs) as -> by congruence.
      assert (row' = row) as -> by congruence.
      apply nonempty_elem in Hne as [x Hx].
      destruct (Hclean i a Ha) as (_ & Hloc & Hnov).
      destruct (proj1 (Hspec x) Hx)
        as [[_ Hlow] | (j & b & _ & Hji & Hb & Hov)];
        [lia | by apply (Hnov j b)].
    + rewrite Hinv. apply not_true_is_false. intros Hex.
      apply existsb_exists in Hex as (a & Hin & Hbad).
      apply list_elem_of_In, list_elem_of_lookup in Hin as [i Hi].
      destruct (Hclean i a Hi) as (Hval & _). by rewrite Hval in Hbad.
Qed.

(** X6: the element table check returns [True] exactly when every
    live entry passes its own validation, starts at or after twice
    the header block size, and overlaps no other live entry.
    Duplicates play no part. *)
Theorem element_table_passes_iff (h : Ffff) (hbs : Z) :
  header_block_size (erase_block_size h) = Some hbs →
  ∃ h' ok,
    validate_element_table h = Some (h', ok)
    ∧ (ok = true ↔
       ∀ (i : nat) a, live_elements (elements h) !! i = Some a →
                      clean_entry h hbs i a).
Proof.
  intros Hhbs.
  destruct (validate_element_table_total h hbs Hhbs) as (h' & ok & Hrun).
  exists h', ok. split; [done |].
  by apply (table_verdict_clean h h' ok hbs).
Qed.

End TableCheck.

(** ** The header block size and the header validator *)

Section Validator.
Context `{K : FfffConsts} `{E : FfffElementOps}.

(** X1: when [header_block_size] returns a size, it is the least
    integer that is at least the erase block size and exceeds
    [FFFF_HDR_LENGTH], and it lies below
    [FFFF_MAX_HEADER_BLOCK_SIZE]; it returns [None] exactly when no
    such integer lies below the maximum. *)
Theorem header_block_size_spec (e : Z) :
  (∀ s, header_block_size e = Some s →
        e <= s ∧ FFFF_HDR_LENGTH < s < FFFF_MAX_HEADER_BLOCK_SIZE
        ∧ ∀ t, e <= t → FFFF_HDR_LENGTH < t → s <= t)
  ∧ (header_block_size e = None ↔
     FFFF_MAX_HEADER_BLOCK_SIZE <= Z.max e (FFFF_HDR_LENGTH + 1)).
Proof.
  rewrite header_block_size_closed. case_decide as Hlt; split.
  - intros s [= <-]. split_and!; lia.
  - split; [done | lia].
  - done.
  - split; [lia | done].
Qed.

(** The verdict that the validator returns is the one it records. *)
Lemma validate_ffff_header_recorded (h h' : Ffff) (v : hdr_validity) :
  validate_ffff_header h = Some (h', v) → header_validity h' = v.
Proof.
  unfold validate_ffff_header. intros Hrun.
  repeat match type of Hrun with
         | (if ?b then _ else _) = _ =>
             destruct b; [by injection Hrun as <- <- |]
         end.
  unfold padding_span in Hrun.
  match type of Hrun with
  | (if ?b then _ else _) = _ =>
      destruct b; [by injection Hrun as <- <- |]
  end.
  bind_inv Hrun. destruct x as [h1 ok].
  destruct (negb ok); by injection Hrun as <- <-.
Qed.

(** X7: a header that is not erased and whose leading or trailing
    sentinel differs from [FFFF_SENTINEL] is classified INVALID, and
    nothing but the verdict changes: no later check runs. *)
Theorem sentinel_mismatch_is_invalid (h : Ffff) :
  header_erased h = false →
  sentinel h ≠ FFFF_SENTINEL ∨ tail_sentinel h ≠ FFFF_SENTINEL →
  validate_ffff_header h
  = Some (set_header_validity FFFF_HDR_INVALID h, FFFF_HDR_INVALID).
Proof.
  unfold header_erased, validate_ffff_header. cbn. intros -> Hbad.
  destruct Hbad as [Hbad | Hbad].
  - by rewrite (bool_decide_eq_false_2 _ Hbad).
  - rewrite (bool_decide_eq_false_2 _ Hbad). by rewrite orb_true_r.
Qed.

(** X8: a header that is not erased, with both sentinels right, whose
    erase block size is no power of two or does not divide the flash
    image length, is classified INVALID, and nothing but the verdict
    changes. *)
Theorem bad_sizes_are_invalid (h : Ffff) :
  header_erased h = false →
  sentinel h = FFFF_SENTINEL → tail_sentinel h = FFFF_SENTINEL →
  is_power_of_2 (erase_block_size h) = false
  ∨ flash_image_length h `mod` erase_block_size h ≠ 0 →
  validate_ffff_header h
  = Some (set_header_validity FFFF_HDR_INVALID h, FFFF_HDR_INVALID).
Proof.
  unfold header_erased, validate_ffff_header. cbn.
  intros -> Hs Ht Hbad.
  rewrite (bool_decide_eq_true_2 _ Hs), (bool_decide_eq_true_2 _ Ht).
  cbn. destruct (is_power_of_2 (erase_block_size h)) eqn:Hpow; cbn;
    [| done].
  destruct Hbad as [Hbad | Hbad]; [done |].
  apply Z.eqb_neq in Hbad. by rewrite Hbad.
Qed.

(** X10: a header classified VALID is not erased, carries
    [FFFF_SENTINEL] at both ends, has a power of two as erase block
    size that divides the flash image length, and every live entry of
    its table is clean: valid on its own, beyond the two header
    blocks, and overlapping no other live entry. *)
Theorem valid_header_sound (h h' : Ffff) (hbs : Z) :
  header_block_size (erase_block_size h) = Some hbs →
  validate_ffff_header h = Some (h', FFFF_HDR_VALID) →
  header_erased h = false
  ∧ sentinel h = FFFF_SENTINEL ∧ tail_sentinel h = FFFF_SENTINEL
  ∧ is_power_of_2 (erase_block_size h) = true
  ∧ flash_image_length h `mod` erase_block_size h = 0
  ∧ ∀ (i : nat) a, live_elements (elements h) !! i = Some a →
                   clean_entry h hbs i a.
Proof.
  intros Hhbs Hrun. unfold header_erased.
  unfold validate_ffff_header in Hrun.
  match type of Hrun with
  | (if ?b then _ else _) = _ => destruct b eqn:Herased; [done |]
  end.
  match type of Hrun with
  | (if ?b then _ else _) = _ => destruct b eqn:Hsent; [done |]
  end.
  match type of Hrun with
  | (if ?b then _ else _) = _ => destruct b eqn:Hpow; [done |]
  end.
  match type of Hrun with
  | (if ?b then _ else _) = _ => destruct b eqn:Hmod; [done |]
  end.
  unfold padding_span in Hrun.
  match type of Hrun with
  | (if ?b then _ else _) = _ => destruct b eqn:Hpad; [done |]
  end.
  bind_inv Hrun. destruct x as [h1 ok].
  destruct ok; cbn [negb] in Hrun; [| done].
  cbn in Herased, Hsent, Hpow, Hmod.
  apply orb_false_iff in Hsent as [Hs Ht].
  apply negb_false_iff, bool_decide_eq_true in Hs, Ht.
  apply negb_false_iff in Hpow. apply negb_false_iff, Z.eqb_eq in Hmod.
  pose proof (table_verdict_clean
                (set_header_validity FFFF_HDR_VALID h) _ _ hbs Hhbs Hx)
    as Hiff.
  split_and!; try done. apply Hiff. reflexivity.
Qed.

End Validator.

(** ** The verdict depends on the header alone *)

Section Revalidation.
Context `{K : FfffConsts} `{E : FfffElementOps}.

(** Closes a goal [observed _ = observed _] from equal observations of
    the headers underneath. *)
Ltac observe :=
  unfold observed, validation_frame, header_fields in *; simpl in *;
  congruence.

Lemma observed_frame (h1 h2 : Ffff) :
  observed h1 = observed h2 → validation_frame h1 = validation_frame h2.
Proof. intros Heq. exact (f_equal (λ t, t.1.1.1.1.1) Heq). Qed.

Lemma pair_step_sim elt_a j elt_b h1 h2 c d :
  observed h1 = observed h2 →
  observed (pair_step elt_a j elt_b (h1, c, d)).1.1
  = observed (pair_step elt_a j elt_b (h2, c, d)).1.1
  ∧ (pair_step elt_a j elt_b (h1, c, d)).1.2
    = (pair_step elt_a j elt_b (h2, c, d)).1.2
  ∧ (pair_step elt_a j elt_b (h1, c, d)).2
    = (pair_step elt_a j elt_b (h2, c, d)).2.
Proof.
  intros Hobs. unfold pair_step.
  destruct (_ && _); destruct (_ && _ && _); cbn [fst snd];
    (split_and!; [observe | done | done]).
Qed.

Lemma pair_loop_sim i elt_a rest : ∀ j h1 h2 c d,
  observed h1 = observed h2 →
  observed (pair_loop i elt_a j rest (h1, c, d)).1.1
  = observed (pair_loop i elt_a j rest (h2, c, d)).1.1
  ∧ (pair_loop i elt_a j rest (h1, c, d)).1.2
    = (pair_loop i elt_a j rest (h2, c, d)).1.2
  ∧ (pair_loop i elt_a j rest (h1, c, d)).2
    = (pair_loop i elt_a j rest (h2, c, d)).2.
Proof.
  induction rest as [|e rest IH]; intros j h1 h2 c d Hobs;
    cbn [pair_loop]; [done |].
  destruct (Nat.eqb i j); [by apply IH |].
  destruct (element_type e =? _); [done |].
  destruct (pair_step_sim elt_a j e h1 h2 c d Hobs) as (Hh & Hc & Hd).
  destruct (pair_step elt_a j e (h1, c, d)) as [[h1' c1] d1].
  destruct (pair_step elt_a j e (h2, c, d)) as [[h2' c2] d2].
  cbn [fst snd] in Hh, Hc, Hd. subst c2 d2. by apply IH.
Qed.

Lemma table_step_sim i elt_a h1 h2 :
  observed h1 = observed h2 →
  match table_step i elt_a h1, table_step i elt_a h2 with
  | Some r1, Some r2 => observed r1 = observed r2
  | None, None => True
  | _, _ => False
  end.
Proof.
  intros Hobs. unfold table_step.
  assert (Hchk : observed (check_element elt_a h1)
                 = observed (check_element elt_a h2)).
  { unfold check_element.
    assert (element_location_min h1 = element_location_min h2
            ∧ element_location_max h1 = element_location_max h2)
      as [-> ->] by (split; observe).
    destruct (negb _); [observe | done]. }
  assert (Hebs : erase_block_size (check_element elt_a h1)
                 = erase_block_size (check_element elt_a h2))
    by observe.
  rewrite Hebs.
  destruct (header_block_size _) as [hbs|]; cbn [mbind option_bind];
    [| done].
  assert (Hhc : observed (check_header_collision elt_a hbs
                            (check_element elt_a h1)).1
                = observed (check_header_collision elt_a hbs
                              (check_element elt_a h2)).1
                ∧ (check_header_collision elt_a hbs
                     (check_element elt_a h1)).2
                  = (check_header_collision elt_a hbs
                       (check_element elt_a h2)).2).
  { unfold check_header_collision.
    destruct (_ <? _); cbn [fst snd]; (split; [observe | done]). }
  destruct (check_header_collision elt_a hbs (check_element elt_a h1))
    as [a1 c1].
  destruct (check_header_collision elt_a hbs (check_element elt_a h2))
    as [a2 c2].
  cbn [fst snd] in Hhc. destruct Hhc as [Ha <-].
  assert (Hel : elements a1 = elements a2) by observe.
  rewrite Hel.
  destruct (pair_loop_sim i elt_a (elements a2) 0 a1 a2 c1 [] Ha)
    as (Hh & Hc & Hd).
  destruct (pair_loop i elt_a 0 (elements a2) (a1, c1, []))
    as [[b1 x1] y1].
  destruct (pair_loop i elt_a 0 (elements a2) (a2, c1, []))
    as [[b2 x2] y2].
  cbn [fst snd] in Hh, Hc, Hd. subst x2 y2. observe.
Qed.

Lemma table_loop_sim rest : ∀ i h1 h2,
  observed h1 = observed h2 →
  match table_loop i rest h1, table_loop i rest h2 with
  | Some r1, Some r2 => observed r1 = observed r2
  | None, None => True
  | _, _ => False
  end.
Proof.
  induction rest as [|e rest IH]; intros i h1 h2 Hobs; cbn [table_loop];
    [done |].
  destruct (element_type e =? _); [done |].
  pose proof (table_step_sim i e h1 h2 Hobs) as Hstep.
  destruct (table_step i e h1) as [r1|], (table_step i e h2) as [r2|];
    cbn [mbind option_bind]; try done.
  by apply IH.
Qed.

(** The table check on two headers that the validator cannot tell
    apart. *)
Lemma validate_element_table_sim (h1 h2 : Ffff) :
  validation_frame h1 = validation_frame h2 →
  snd <$> validate_element_table h1 = snd <$> validate_element_table h2.
Proof.
  intros Hfr. unfold validate_element_table.
  assert (Hel : elements h1 = elements h2).
  { apply validation_frame_header_fields, header_fields_plan in Hfr.
    by destruct Hfr. }
  cbn [elements set_invalid_elements_found set_duplicates_found
       set_duplicates set_collisions_found set_collisions].
  rewrite Hel.
  match goal with
  | |- context [table_loop ?i ?l ?a ≫= _] =>
      match goal with
      | |- context [snd <$> (table_loop i l a ≫= _)
                    = snd <$> (table_loop i l ?b ≫= _)] =>
          pose proof (table_loop_sim l i a b) as Hsim
      end
  end.
  lapply Hsim; [clear Hsim; intros Hsim | observe].
  match type of Hsim with
  | match ?x with _ => _ end =>
      destruct x as [r1|];
      match type of Hsim with
      | match ?y with _ => _ end => destruct y as [r2|]
      end
  end; try done.
  assert (collisions_found r1 = collisions_found r2
          ∧ duplicates_found r1 = duplicates_found r2
          ∧ invalid_elements_found r1 = invalid_elements_found r2)
    as (Hc & Hd & Hi) by (split_and!; observe).
  cbn [mbind option_bind fmap option_fmap option_map snd].
  by rewrite Hc, Hd, Hi.
Qed.

Lemma validate_element_table_validity (h h' : Ffff) (ok : bool) :
  validate_element_table h = Some (h', ok) →
  header_validity h' = header_validity h.
Proof.
  unfold validate_element_table. intros Hrun. bind_inv Hrun.
  injection Hrun as <- _. apply table_loop_frame in Hx.
  exact (f_equal snd Hx).
Qed.

Lemma validation_frame_fields (h1 h2 : Ffff) :
  validation_frame h1 = validation_frame h2 →
  ffff_buf h1 = ffff_buf h2 ∧ header_offset h1 = header_offset h2
  ∧ sentinel h1 = sentinel h2 ∧ tail_sentinel h1 = tail_sentinel h2
  ∧ erase_block_size h1 = erase_block_size h2
  ∧ flash_image_length h1 = flash_image_length h2
  ∧ elements h1 = elements h2.
Proof.
  unfold validation_frame, header_fields. intros Heq.
  injection Heq. intros. done.
Qed.

Lemma validate_ffff_header_sim (h1 h2 : Ffff) :
  validation_frame h1 = validation_frame h2 →
  snd <$> validate_ffff_header h1 = snd <$> validate_ffff_header h2.
Proof.
  intros Hfr.
  pose proof (validation_frame_fields _ _ Hfr)
    as (Hbuf & Hoff & Hs & Ht & Hebs & Hlen & Hel).
  pose proof (validate_element_table_sim
                (set_header_validity FFFF_HDR_VALID h1)
                (set_header_validity FFFF_HDR_VALID h2) Hfr) as Htbl.
  unfold validate_ffff_header, padding_span.
  cbn [ffff_buf header_offset sentinel tail_sentinel erase_block_size
       flash_image_length elements set_header_validity].
  rewrite Hbuf, Hoff, Hs, Ht, Hebs, Hlen, Hel.
  repeat match goal with
         | |- snd <$> (if ?b then _ else _) = _ => destruct b; [done |]
         end.
  destruct (validate_element_table (set_header_validity FFFF_HDR_VALID h1))
    as [[r1 ok1]|] eqn:H1,
    (validate_element_table (set_header_validity FFFF_HDR_VALID h2))
    as [[r2 ok2]|] eqn:H2; cbn in Htbl; try done.
  injection Htbl as <-. cbn [mbind option_bind].
  apply validate_element_table_validity in H1, H2.
  destruct (negb ok1); cbn; [done |]. by rewrite H1, H2.
Qed.

(** X9: the verdict of the validator is a function of the header
    fields, the buffer, the header offset and the location range: two
    instances that agree on these get the same verdict, whatever
    diagnostics or verdict an earlier validation left on them. *)
Theorem verdict_depends_on_header_only (h1 h2 : Ffff) :
  validation_frame h1 = validation_frame h2 →
  snd <$> validate_ffff_header h1 = snd <$> validate_ffff_header h2.
Proof. apply validate_ffff_header_sim. Qed.

(** X11: validating again gives the same verdict: the header that a
    validation returns is classified as before by the next one. *)
Theorem revalidation_is_stable (h h' : Ffff) (v : hdr_validity) :
  validate_ffff_header h = Some (h', v) →
  ∃ h'', validate_ffff_header h' = Some (h'', v)
         ∧ header_validity h'' = v.
Proof.
  intros Hrun.
  pose proof (validate_ffff_header_frame _ _ _ Hrun) as Hfr.
  pose proof (validate_ffff_header_sim _ _ Hfr) as Hsame.
  rewrite Hrun in Hsame. cbn in Hsame.
  destruct (validate_ffff_header h') as [[h'' v']|] eqn:Hagain;
    cbn in Hsame; [| done].
  injection Hsame as ->. exists h''. split; [done |].
  by eapply validate_ffff_header_recorded.
Qed.

End Revalidation.

(** ** Decoding and encoding: bounds and errors *)

Section CodecEdges.
Context `{K : FfffConsts} `{E : FfffElementOps}.

Lemma unpack_loop_count (n : nat) : ∀ idx off h r,
  unpack_loop n idx off h = Some r →
  (length (elements r) <= length (elements h) + n)%nat.
Proof.
  induction n as [|n IH]; intros idx off h r Hrun; simpl in Hrun.
  { injection Hrun as <-. lia. }
  bind_inv Hrun. destruct x as [e u]. destruct u; simpl in Hrun.
  { injection Hrun as <-. lia. }
  apply IH in Hrun. cbn [elements set_elements] in Hrun.
  rewrite length_app in Hrun. simpl in Hrun. lia.
Qed.

Lemma unpack_fixed_range (h h0 : Ffff) :
  unpack_fixed h = Some h0 →
  elements h0 = []
  ∧ element_location_max h0 = flash_capacity h0
  ∧ ∃ hbs, header_block_size (erase_block_size h0) = Some hbs
           ∧ element_location_min h0 = 2 * hbs.
Proof.
  destruct h. unfold unpack_fixed. cbn. intros Hrun.
  repeat bind_inv Hrun. injection Hrun as <-. cbn.
  split_and!; [reflexivity | reflexivity |].
  exists x1. split; [exact Hx1 | reflexivity].
Qed.

Lemma scan_frame_range (h1 h2 : Ffff) :
  scan_frame h1 = scan_frame h2 →
  element_location_min h1 = element_location_min h2
  ∧ element_location_max h1 = element_location_max h2
  ∧ flash_capacity h1 = flash_capacity h2
  ∧ erase_block_size h1 = erase_block_size h2.
Proof.
  unfold scan_frame, validation_frame, header_fields. intros Heq.
  injection Heq. intros. done.
Qed.

(** X12: a header that [unpack] returns holds at most
    [FFFF_MAX_ELEMENTS] elements, and its range for element locations
    runs from twice the header block size of the decoded erase block
    size to the decoded flash capacity. *)
Theorem unpack_bounds (h h' : Ffff) :
  unpack h = Some h' →
  (length (elements h') <= Z.to_nat FFFF_MAX_ELEMENTS)%nat
  ∧ element_location_max h' = flash_capacity h'
  ∧ ∃ hbs, header_block_size (erase_block_size h') = Some hbs
           ∧ element_location_min h' = 2 * hbs.
Proof.
  intros Hrun. apply unpack_inv in Hrun as (h0 & h1 & v & Hf & Hl & Hv).
  apply unpack_fixed_range in Hf as (Hnil & Hmax & hbs & Hhbs & Hmin).
  pose proof (unpack_loop_count _ _ _ _ _ Hl) as Hcount.
  rewrite Hnil in Hcount. simpl in Hcount.
  apply unpack_loop_buf in Hl as [Hfr _].
  apply scan_frame_range in Hfr as (Hmin1 & Hmax1 & Hcap1 & Hebs1).
  cbn in Hmin1, Hmax1, Hcap1, Hebs1.
  pose proof (validate_ffff_header_frame _ _ _ Hv) as Hfr.
  assert (Hel : elements h' = elements h1).
  { apply validation_frame_header_fields, header_fields_plan in Hfr.
    by destruct Hfr. }
  assert (Hrange : element_location_min h' = element_location_min h1
                   ∧ element_location_max h' = element_location_max h1
                   ∧ flash_capacity h' = flash_capacity h1
                   ∧ erase_block_size h' = erase_block_size h1).
  { unfold validation_frame, header_fields in Hfr. injection Hfr.
    intros. done. }
  destruct Hrange as (-> & -> & -> & ->). rewrite Hel.
  split_and!; [done | congruence |].
  exists hbs. split; congruence.
Qed.

Lemma unpack_from_short (size : nat) (buf : list Z) (off : Z) :
  0 <= off → Z.of_nat (length buf) < off + Z.of_nat size →
  unpack_from size buf off = None.
Proof.
  intros Hoff Hshort. unfold unpack_from, struct_offset.
  destruct (Z.ltb_spec off 0); [lia |].
  destruct (Z.leb_spec (off + Z.of_nat size) (Z.of_nat (length buf)));
    [lia |].
  by rewrite andb_false_r.
Qed.

(** X13: [unpack] raises when the buffer ends before the 100 bytes of
    the fixed part at the header offset, or before the end of the
    trailing sentinel. *)
Theorem unpack_short_buffer_raises (h : Ffff) :
  0 <= header_offset h →
  Z.of_nat (length (ffff_buf h)) < header_offset h + 100
  ∨ (0 <= header_offset h + FFFF_HDR_OFF_TAIL_SENTINEL
     ∧ Z.of_nat (length (ffff_buf h))
       < header_offset h + FFFF_HDR_OFF_TAIL_SENTINEL + 16) →
  unpack h = None.
Proof.
  intros Hoff Hshort. unfold unpack.
  assert (Hfixed : unpack_fixed h = None); [| by rewrite Hfixed].
  unfold unpack_fixed.
  destruct Hshort as [Hshort | [Htail Hshort]].
  - by rewrite unpack_from_short by (cbn; lia).
  - destruct (unpack_from 100 _ _); cbn [mbind option_bind]; [| done].
    set (h1 := set_header_generation_number _ _).
    assert (Hb : ffff_buf h1 = ffff_buf h) by reflexivity.
    assert (Ho : header_offset h1 = header_offset h) by reflexivity.
    clearbody h1.
    by rewrite unpack_from_short by (rewrite ?Hb, ?Ho; cbn; lia).
Qed.

(** X14: [pack] raises when the flash capacity, the erase block size,
    the flash image length, the header generation number or
    [FFFF_HDR_LENGTH] does not fit an unsigned 32-bit field. *)
Theorem pack_out_of_range_raises (now : list Z) (h : Ffff) (v : Z) :
  v ∈ [flash_capacity h; erase_block_size h; FFFF_HDR_LENGTH;
       flash_image_length h; header_generation_number h] →
  ¬ (0 <= v < 2 ^ 32) →
  pack now h = None.
Proof.
  intros Hin Hout.
  assert (HL : pack_L v = None).
  { unfold pack_L.
    destruct (Z.leb_spec 0 v), (Z.ltb_spec v (2 ^ 32)); cbn; try done.
    lia. }
  assert (Hsizes : pack_LLLLL (flash_capacity h) (erase_block_size h)
                     FFFF_HDR_LENGTH (flash_image_length h)
                     (header_generation_number h) = None).
  { unfold pack_LLLLL.
    repeat (apply elem_of_cons in Hin as [<- | Hin];
            [rewrite HL;
             repeat match goal with
                    | |- context [pack_L ?x ≫= _] =>
                        destruct (pack_L x); cbn [mbind option_bind]
                    end; done |]).
    by apply elem_of_nil in Hin. }
  unfold pack. rewrite Hsizes.
  destruct (pack_into _ _ _); cbn [mbind option_bind]; [| done].
  destruct (if nonempty _ then _ else _); cbn [mbind option_bind]; done.
Qed.

(** The stages of a run of [pack]. *)
Lemma pack_inv_at (now : list Z) (h hp : Ffff) :
  pack now h = Some hp →
  ∃ b1 b2 sizes b3 b4 offF,
    pack_into (ffff_buf h) (header_offset h)
      (pack_s 16 (sentinel h) ++ pack_s 16 now) = Some b1
    ∧ (if nonempty (flash_image_name h)
       then pack_into b1
              (header_offset h + FFFF_HDR_OFF_FLASH_IMAGE_NAME)
              (pack_s 48 (flash_image_name h))
       else Some b1) = Some b2
    ∧ pack_LLLLL (flash_capacity h) (erase_block_size h) FFFF_HDR_LENGTH
        (flash_image_length h) (header_generation_number h) = Some sizes
    ∧ pack_into b2 (header_offset h + FFFF_HDR_OFF_FLASH_CAPACITY) sizes
      = Some b3
    ∧ pack_into b3 (header_offset h + FFFF_HDR_OFF_TAIL_SENTINEL)
        (pack_s 16 (tail_sentinel h)) = Some b4
    ∧ pack_elements (elements h) b4
        (header_offset h + FFFF_HDR_OFF_ELEMENT_TBL)
      = Some (ffff_buf hp, offF).
Proof.
  unfold pack. intros Hrun. repeat bind_inv Hrun.
  match goal with p : (list Z * Z)%type |- _ => destruct p as [bF offF] end.
  injection Hrun as <-. cbn [ffff_buf set_ffff_buf].
  eexists _, _, _, _, _, _. split_and!; try reflexivity; eassumption.
Qed.

(** The frames of the five writes of [pack], each within the header
    region. *)
Lemma pack_frames (now : list Z) (h hp : Ffff) :
  layout_ok → pack_writes_entry_only →
  0 <= header_offset h →
  Z.of_nat (length (elements h)) <= FFFF_MAX_ELEMENTS →
  pack now h = Some hp →
  ∃ b1 b2 b3 b4,
    agree_outside b1 (ffff_buf h) (header_offset h) (header_offset h + 32)
    ∧ (if nonempty (flash_image_name h)
       then agree_outside b2 b1 (header_offset h + 32)
              (header_offset h + 80)
       else b2 = b1)
    ∧ agree_outside b3 b2 (header_offset h + 80) (header_offset h + 100)
    ∧ agree_outside b4 b3
        (header_offset h + FFFF_HDR_OFF_TAIL_SENTINEL)
        (header_offset h + FFFF_HDR_OFF_TAIL_SENTINEL + 16)
    ∧ agree_outside (ffff_buf hp) b4
        (header_offset h + FFFF_HDR_OFF_ELEMENT_TBL)
        (header_offset h + FFFF_HDR_OFF_ELEMENT_TBL
         + Z.of_nat (length (elements h)) * FFFF_ELT_LENGTH).
Proof.
  intros (Hname & Hcap & Htbl & Helt & Hmax & Htail) Hwrite Hoff Hcount
    Hrun.
  apply pack_inv_at in Hrun
    as (b1 & b2 & sizes & b3 & b4 & offF & H1 & H2 & Hs & H3 & H4 & H5).
  rewrite Hname in H2. rewrite Hcap in H3.
  apply pack_LLLLL_inv in Hs as (Hslen & _).
  exists b1, b2, b3, b4. split_and!.
  - pose proof (pack_into_agree_outside _ _ _ _ H1 Hoff) as Ho.
    by rewrite length_app, !length_pack_s in Ho.
  - destruct (nonempty (flash_image_name h)).
    + assert (Hoff2 : 0 <= header_offset h + 32) by lia.
      pose proof (pack_into_agree_outside _ _ _ _ H2 Hoff2) as Ho.
      rewrite length_pack_s in Ho.
      by replace (header_offset h + 32 + Z.of_nat 48)
        with (header_offset h + 80) in Ho by lia.
    + by injection H2 as <-.
  - assert (Hoff3 : 0 <= header_offset h + 80) by lia.
    pose proof (pack_into_agree_outside _ _ _ _ H3 Hoff3) as Ho.
    rewrite Hslen in Ho.
    by replace (header_offset h + 80 + Z.of_nat 20)
      with (header_offset h + 100) in Ho by lia.
  - assert (Hoff4 : 0 <= header_offset h + FFFF_HDR_OFF_TAIL_SENTINEL)
      by nia.
    pose proof (pack_into_agree_outside _ _ _ _ H4 Hoff4) as Ho.
    by rewrite length_pack_s in Ho.
  - assert (Hoff5 : 0 <= header_offset h + FFFF_HDR_OFF_ELEMENT_TBL)
      by lia.
    by destruct (pack_elements_frame Hwrite Helt _ _ _ _ _ Hoff5 H5).
Qed.

Lemma agree_outside_chain (b1 b2 b3 : list Z) (lo hi : Z) :
  agree_outside b1 b2 lo hi → agree_outside b2 b3 lo hi →
  agree_outside b1 b3 lo hi.
Proof.
  intros [Hl1 H1] [Hl2 H2]. split; [congruence |].
  intros i Hi. by rewrite H1, H2.
Qed.

(** X15: [pack] keeps the length of the buffer and changes no byte
    outside the header region, from the header offset to the end of
    the trailing sentinel: element payloads beyond it are safe. *)
Theorem pack_writes_header_region_only (now : list Z) (h hp : Ffff) :
  layout_ok → pack_writes_entry_only →
  0 <= header_offset h →
  Z.of_nat (length (elements h)) <= FFFF_MAX_ELEMENTS →
  pack now h = Some hp →
  agree_outside (ffff_buf hp) (ffff_buf h) (header_offset h)
    (header_offset h + FFFF_HDR_OFF_TAIL_SENTINEL + 16).
Proof.
  intros Hlayout Hwrite Hoff Hcount Hrun.
  destruct (pack_frames now h hp Hlayout Hwrite Hoff Hcount Hrun)
    as (b1 & b2 & b3 & b4 & Ho1 & Ho2 & Ho3 & Ho4 & Ho5).
  destruct Hlayout as (Hname & Hcap & Htbl & Helt & Hmax & Htail).
  assert (Hused : Z.of_nat (length (elements h)) * FFFF_ELT_LENGTH
                  <= FFFF_MAX_ELEMENTS * FFFF_ELT_LENGTH) by nia.
  assert (Hused0 : 0 <= Z.of_nat (length (elements h)) * FFFF_ELT_LENGTH)
    by nia.
  eapply agree_outside_chain;
    [eapply agree_outside_widen; [exact Ho5 | lia | lia] |].
  eapply agree_outside_chain;
    [eapply agree_outside_widen; [exact Ho4 | lia | lia] |].
  eapply agree_outside_chain;
    [eapply agree_outside_widen; [exact Ho3 | lia | lia] |].
  eapply agree_outside_chain;
    [| eapply agree_outside_widen; [exact Ho1 | lia | lia]].
  destruct (nonempty (flash_image_name h)).
  - eapply agree_outside_widen; [exact Ho2 | lia | lia].
  - subst b2. apply agree_outside_refl.
Qed.

(** X16: with an empty flash image name, [pack] leaves the 48 bytes
    of the name field in the buffer as they were. *)
Theorem pack_empty_name_keeps_bytes (now : list Z) (h hp : Ffff) :
  layout_ok → pack_writes_entry_only →
  0 <= header_offset h →
  Z.of_nat (length (elements h)) <= FFFF_MAX_ELEMENTS →
  flash_image_name h = [] →
  pack now h = Some hp →
  agree_on (ffff_buf hp) (ffff_buf h)
    (header_offset h + FFFF_HDR_OFF_FLASH_IMAGE_NAME)
    (header_offset h + FFFF_HDR_OFF_FLASH_IMAGE_NAME + 48).
Proof.
  intros Hlayout Hwrite Hoff Hcount Hempty Hrun.
  destruct (pack_frames now h hp Hlayout Hwrite Hoff Hcount Hrun)
    as (b1 & b2 & b3 & b4 & Ho1 & Ho2 & Ho3 & Ho4 & Ho5).
  destruct Hlayout as (Hname & Hcap & Htbl & Helt & Hmax & Htail).
  rewrite Hempty in Ho2. cbn [nonempty] in Ho2. subst b2.
  rewrite Hname.
  eapply agree_on_trans;
    [eapply agree_outside_on; [exact Ho5 | lia] |].
  eapply agree_on_trans;
    [eapply agree_outside_on; [exact Ho4 | nia] |].
  eapply agree_on_trans;
    [eapply agree_outside_on; [exact Ho3 | lia] |].
  eapply agree_outside_on; [exact Ho1 | lia].
Qed.

End CodecEdges.

(** ** Adding an element: the blob in the flash buffer *)

Section Authoring.
Context `{K : FfffConsts} `{E : FfffElementOps}.

(** A successful [add_element]: the table had room, the element was
    initialised, appended, and its blob assigned into the buffer. *)
Lemma add_element_inv (h h' : Ffff) (ty id gen loc len : Z)
    (file : string) :
  add_element h ty id gen loc len file = (h', true) →
  ∃ e,
    element_init
      (new_element (Z.of_nat (length (elements h))) (flash_capacity h)
         (erase_block_size h) ty id gen loc len (Some file)) = Some e
    ∧ elements h' = elements h ++ [e]
    ∧ ffff_buf h'
      = py_slice_assign (ffff_buf h) (element_location e)
          (element_location e + Z.of_nat (length (tftf_buf e)))
          (tftf_buf e).
Proof.
  unfold add_element. intros Hrun.
  destruct (_ <? _); [| discriminate].
  destruct (element_init _) as [e |]; [| discriminate].
  injection Hrun as <-. by exists e.
Qed.

Lemma py_slice_assign_inside (buf v : list Z) (lo : Z) :
  0 <= lo <= Z.of_nat (length buf) →
  py_slice_assign buf lo (lo + Z.of_nat (length v)) v
  = take (Z.to_nat lo) buf ++ v
    ++ drop (Z.to_nat lo + length v) buf.
Proof.
  intros Hlo. unfold py_slice_assign, slice_index.
  destruct (Z.ltb_spec lo 0); [lia |].
  destruct (Z.ltb_spec (lo + Z.of_nat (length v)) 0); [lia |].
  rewrite (Z.min_l lo) by lia. f_equal. f_equal.
  destruct (Z.le_ge_cases (lo + Z.of_nat (length v))
              (Z.of_nat (length buf))).
  - f_equal. lia.
  - rewrite !drop_ge; [done | lia | lia].
Qed.

(** X17: a successful [add_element] appends the initialised element
    and, when its location lies inside the flash buffer (or at its
    end), puts the blob there: the blob reads back at the location,
    every other byte is as before, and the buffer grows only when the
    blob runs past its end. *)
Theorem add_element_loads_blob (h h' : Ffff) (ty id gen loc len : Z)
    (file : string) (e : FfffElement) :
  add_element h ty id gen loc len file = (h', true) →
  last (elements h') = Some e →
  0 <= element_location e <= Z.of_nat (length (ffff_buf h)) →
  elements h' = elements h ++ [e]
  ∧ py_slice (ffff_buf h') (element_location e)
      (element_location e + Z.of_nat (length (tftf_buf e)))
    = tftf_buf e
  ∧ (∀ i : nat,
       ¬ (element_location e <= Z.of_nat i
          < element_location e + Z.of_nat (length (tftf_buf e))) →
       ffff_buf h' !! i = ffff_buf h !! i)
  ∧ Z.of_nat (length (ffff_buf h'))
    = Z.max (Z.of_nat (length (ffff_buf h)))
        (element_location e + Z.of_nat (length (tftf_buf e))).
Proof.
  intros Hrun Hlast Hloc.
  apply add_element_inv in Hrun as (e0 & _ & Hel & Hbuf).
  rewrite Hel, last_snoc in Hlast. injection Hlast as ->.
  split; [done |]. rewrite Hbuf, py_slice_assign_inside by done.
  set (lo := element_location e) in *.
  set (v := tftf_buf e). set (buf := ffff_buf h) in *.
  assert (Htake : length (take (Z.to_nat lo) buf) = Z.to_nat lo)
    by (rewrite length_take; lia).
  split_and!.
  - unfold py_slice, slice_index.
    rewrite !length_app, Htake, length_drop.
    destruct (Z.ltb_spec lo 0); [lia |].
    destruct (Z.ltb_spec (lo + Z.of_nat (length v)) 0); [lia |].
    rewrite !Z.min_l by lia.
    rewrite drop_app_length' by done.
    replace (Z.to_nat (lo + Z.of_nat (length v) - lo)) with (length v)
      by lia.
    by rewrite take_app_length.
  - intros i Hi.
    destruct (decide (Z.of_nat i < lo)) as [Hlow | Hhigh].
    + rewrite lookup_app_l by lia.
      rewrite lookup_take_lt by lia. done.
    + rewrite lookup_app_r by lia.
      rewrite lookup_app_r by lia.
      rewrite lookup_drop. f_equal. lia.
  - rewrite !length_app, Htake, length_drop. lia.
Qed.

(** X18: when the element's location lies at or beyond the end of
    the flash buffer, [add_element] appends the blob to the buffer: the gap is
    not filled, so the blob does not start at its location. *)
Theorem add_element_beyond_end (h h' : Ffff) (ty id gen loc len : Z)
    (file : string) (e : FfffElement) :
  add_element h ty id gen loc len file = (h', true) →
  last (elements h') = Some e →
  Z.of_nat (length (ffff_buf h)) <= element_location e →
  ffff_buf h' = ffff_buf h ++ tftf_buf e.
Proof.
  intros Hrun Hlast Hloc.
  apply add_element_inv in Hrun as (e0 & _ & Hel & Hbuf).
  rewrite Hel, last_snoc in Hlast. injection Hlast as ->.
  rewrite Hbuf. unfold py_slice_assign, slice_index.
  destruct (Z.ltb_spec (element_location e) 0); [lia |].
  destruct (Z.ltb_spec
              (element_location e + Z.of_nat (length (tftf_buf e))) 0);
    [lia |].
  rewrite take_ge, drop_ge by lia. by rewrite app_nil_r.
Qed.

End Authoring.

(** ** Post-processing: the layout of the elements *)

Section Layout.
Context `{K : FfffConsts} `{E : FfffElementOps}.

Lemma set_element_location_same (e : FfffElement) :
  set_element_location (element_location e) e = e.
Proof. by destruct e. Qed.

(** What the scan does to each element. *)
Lemma layout_loop_inv (il ebs : Z) (elts elts' : list FfffElement)
    (loc0 locF : Z) :
  layout_loop il ebs elts loc0 = Some (elts', locF) →
  length elts' = length elts
  ∧ locF = match last elts' with
           | Some l =>
               next_boundary (element_location l + element_length l) ebs
           | None => loc0
           end
  ∧ ∀ (i : nat) e, elts !! i = Some e →
      ∃ e', elts' !! i = Some e'
        ∧ e' = set_element_location (element_location e') e
        ∧ (element_location e ≠ 0 → e' = e)
        ∧ (il ≠ 0 → element_location e' + element_length e' < il)
        ∧ (element_location e = 0 →
           match i with
           | O => element_location e' = loc0
           | S j =>
               ∃ p, elts' !! j = Some p
                    ∧ element_location e'
                      = next_boundary
                          (element_location p + element_length p) ebs
           end).
Proof.
  revert elts' loc0 locF.
  induction elts as [| e rest IH]; intros elts' loc0 locF Hrun.
  { injection Hrun as <- <-. split_and!; [done | done |].
    intros i e Hi. by rewrite lookup_nil in Hi. }
  cbn [layout_loop] in Hrun.
  set (e1 := if element_location e =? 0
             then set_element_location loc0 e else e) in *.
  destruct (negb (il =? 0)
            && (element_location e1 + element_length e1 >=? il))
    eqn:Hguard; [discriminate |].
  bind_inv Hrun. destruct x as [rest' loc1].
  injection Hrun as <- <-.
  destruct (IH _ _ _ Hx) as (Hlen & Hloc & Hall).
  split_and!.
  - rewrite !length_cons. by rewrite Hlen.
  - rewrite Hloc. destruct rest' as [| r rest']; [done |].
    rewrite last_cons_cons.
    destruct (last (r :: rest')) eqn:Hl; [done |].
    by apply last_None in Hl.
  - intros [| k] a Ha.
    + injection Ha as <-. exists e1. split; [done |].
      subst e1. split_and!.
      * destruct (element_location e =? 0);
          [by destruct e | by rewrite set_element_location_same].
      * intros Hne.
        by destruct (Z.eqb_spec (element_location e) 0).
      * intros Hil. apply andb_false_iff in Hguard as [Hg | Hg].
        -- apply negb_false_iff, Z.eqb_eq in Hg. lia.
        -- rewrite Z.geb_leb in Hg. apply Z.leb_gt in Hg. lia.
      * intros Hz. rewrite Hz. cbn. by destruct e.
    + cbn [lookup list_lookup] in Ha.
      destruct (Hall _ _ Ha) as (a' & Ha' & Heq & Hkeep & Hfit & Hpos).
      exists a'. split_and!; try done.
      intros Hz. specialize (Hpos Hz). destruct k as [| j].
      * exists e1. split; [done |]. done.
      * destruct Hpos as (p & Hp & Hpl). by exists p.
Qed.

(** The planning stage: the scan starts at the first element's
    location, and the image length is the final cursor when it was
    left at 0. *)
Lemma post_process_layout_inv (h hp : Ffff) :
  post_process_layout h = Some hp →
  ∃ first elts locF,
    elements h !! 0%nat = Some first
    ∧ layout_loop (flash_image_length h) (erase_block_size h)
        (elements h) (element_location first) = Some (elts, locF)
    ∧ elements hp = elts
    ∧ flash_image_length hp
      = (if flash_image_length h =? 0 then locF
         else flash_image_length h)
    ∧ erase_block_size hp = erase_block_size h.
Proof.
  unfold post_process_layout.
  cbn [elements flash_image_length erase_block_size
       set_erase_block_mask].
  intros Hrun. bind_inv Hrun. bind_inv Hrun.
  destruct x0 as [elts locF]. injection Hrun as <-.
  exists x, elts, locF. split_and!; try done.
  - by destruct (flash_image_length _ =? 0).
  - by destruct (flash_image_length _ =? 0).
  - by destruct (flash_image_length _ =? 0).
Qed.

(** A run of [post_process] went through its planning stage, whose
    elements and image length it kept. *)
Lemma post_process_plan (now_field now_pack : list Z) (h h' : Ffff) :
  post_process now_field now_pack h = Some h' →
  ∃ hp, post_process_layout h = Some hp
        ∧ elements h' = elements hp
        ∧ flash_image_length h' = flash_image_length hp.
Proof.
  intros Hrun.
  destruct (post_process_layout h) as [hp |] eqn:Hplan.
  - exists hp. split; [done |].
    by apply (post_process_keeps_plan now_field now_pack h hp h').
  - unfold post_process in Hrun. by rewrite Hplan in Hrun.
Qed.

(** The scan of a run of [post_process]. *)
Lemma post_process_scan (now_field now_pack : list Z) (h h' : Ffff) :
  post_process now_field now_pack h = Some h' →
  ∃ first locF,
    elements h !! 0%nat = Some first
    ∧ layout_loop (flash_image_length h) (erase_block_size h)
        (elements h) (element_location first)
      = Some (elements h', locF)
    ∧ flash_image_length h'
      = (if flash_image_length h =? 0 then locF
         else flash_image_length h).
Proof.
  intros Hrun.
  apply post_process_plan in Hrun as (hp & Hplan & Hel & Hil).
  apply post_process_layout_inv in Hplan
    as (first & elts & locF & Hfirst & Hscan & Helts & Hlen & _).
  exists first, locF. rewrite Hel, Hil, Helts. done.
Qed.

(** What a run of [post_process] does to each element. *)
Lemma post_process_elements (now_field now_pack : list Z)
    (h h' : Ffff) (i : nat) (e : FfffElement) :
  post_process now_field now_pack h = Some h' →
  elements h !! i = Some e →
  ∃ e', elements h' !! i = Some e'
    ∧ e' = set_element_location (element_location e') e
    ∧ (i = 0%nat ∨ element_location e ≠ 0 → e' = e)
    ∧ ∀ (j : nat) p, i = S j → element_location e = 0 →
        elements h' !! j = Some p →
        element_location e'
        = next_boundary (element_location p + element_length p)
            (erase_block_size h).
Proof.
  intros Hrun Hi.
  apply post_process_scan in Hrun
    as (first & locF & Hfirst & Hscan & _).
  apply layout_loop_inv in Hscan as (Hlen & _ & Hall).
  destruct (Hall _ _ Hi) as (e' & He' & Heq & Hkeep & _ & Hpos).
  exists e'. split_and!; try done.
  - intros [-> | Hne]; [| by apply Hkeep].
    assert (first = e) as -> by congruence.
    destruct (decide (element_location e = 0)) as [Hz | Hnz];
      [| by apply Hkeep].
    specialize (Hpos Hz). cbn in Hpos.
    rewrite Heq, Hpos. apply set_element_location_same.
  - intros j p -> Hz Hp. destruct (Hpos Hz) as (p' & Hp' & Hpl).
    congruence.
Qed.

(** X19: [post_process] keeps the number and the order of the
    elements and changes nothing in an element but a location that
    was 0: the first element and every element with a location are
    kept as they are; a later element without one is placed at the
    next erase-block boundary after the end of its predecessor. *)
Theorem post_process_placement (now_field now_pack : list Z)
    (h h' : Ffff) :
  post_process now_field now_pack h = Some h' →
  length (elements h') = length (elements h)
  ∧ ∀ (i : nat) e, elements h !! i = Some e →
      ∃ e', elements h' !! i = Some e'
        ∧ e' = set_element_location (element_location e') e
        ∧ (i = 0%nat ∨ element_location e ≠ 0 → e' = e)
        ∧ ∀ (j : nat) p, i = S j → element_location e = 0 →
            elements h' !! j = Some p →
            element_location e'
            = next_boundary (element_location p + element_length p)
                (erase_block_size h).
Proof.
  intros Hrun. split.
  - apply post_process_scan in Hrun
      as (first & locF & Hfirst & Hscan & _).
    by apply layout_loop_inv in Hscan as (Hlen & _ & _).
  - intros i e Hi.
    by apply (post_process_elements now_field now_pack h h' i e).
Qed.

(** X20: the image length after [post_process].  A given image
    length is kept, and every element ends before it; an image
    length left at 0 becomes the erase-block boundary after the end
    of the last element. *)
Theorem post_process_image_length (now_field now_pack : list Z)
    (h h' : Ffff) :
  post_process now_field now_pack h = Some h' →
  (flash_image_length h ≠ 0 →
   flash_image_length h' = flash_image_length h
   ∧ ∀ e, e ∈ elements h' →
       element_location e + element_length e < flash_image_length h')
  ∧ (flash_image_length h = 0 →
     ∃ l, last (elements h') = Some l
          ∧ flash_image_length h'
            = next_boundary (element_location l + element_length l)
                (erase_block_size h)).
Proof.
  intros Hrun.
  apply post_process_scan in Hrun
    as (first & locF & Hfirst & Hscan & Hil).
  apply layout_loop_inv in Hscan as (Hlen & HlocF & Hall).
  split.
  - intros Hne.
    destruct (Z.eqb_spec (flash_image_length h) 0); [done |].
    split; [done |]. intros e He.
    apply list_elem_of_lookup in He as [i Hi].
    assert (is_Some (elements h !! i)) as [a Ha].
    { apply lookup_lt_is_Some. rewrite <- Hlen.
      by eapply lookup_lt_Some. }
    destruct (Hall _ _ Ha) as (e' & He' & _ & _ & Hfit & _).
    assert (e' = e) as -> by congruence.
    rewrite Hil. by apply Hfit.
  - intros Hz. rewrite Hz in Hil. cbn in Hil.
    destruct (last (elements h')) as [l |] eqn:Hlast.
    + exists l. split; [done |]. by rewrite Hil, HlocF.
    + apply last_None in Hlast.
      destruct (elements h) as [| a rest]; [done |].
      by rewrite Hlast in Hlen.
Qed.

(** X21: [post_process] raises on an empty element table, and when
    an image length is given and an element with a location ends at
    or beyond it. *)
Theorem post_process_raises (now_field now_pack : list Z) (h : Ffff) :
  (elements h = [] → post_process now_field now_pack h = None)
  ∧ (∀ e, flash_image_length h ≠ 0 → e ∈ elements h →
       element_location e ≠ 0 →
       flash_image_length h
       <= element_location e + element_length e →
       post_process now_field now_pack h = None).
Proof.
  split.
  - intros Hel. unfold post_process, post_process_layout.
    cbn [elements set_erase_block_mask]. by rewrite Hel.
  - intros e Hne He Hloc Hover.
    destruct (post_process now_field now_pack h) as [h' |] eqn:Hrun;
      [| done].
    exfalso.
    apply post_process_scan in Hrun
      as (first & locF & Hfirst & Hscan & Hil).
    apply layout_loop_inv in Hscan as (_ & _ & Hall).
    apply list_elem_of_lookup in He as [i Hi].
    destruct (Hall _ _ Hi) as (e' & _ & _ & Hkeep & Hfit & _).
    rewrite (Hkeep Hloc) in Hfit. specialize (Hfit Hne). lia.
Qed.

(** Modelled from the spec: what the specification says of
    [next_boundary] holds of the definition when the block size is
    positive. *)
Lemma next_boundary_spec (location block_size : Z) :
  0 < block_size →
  location <= next_boundary location block_size < location + block_size
  ∧ next_boundary location block_size mod block_size = 0.
Proof.
  intros Hpos. unfold next_boundary.
  split; [| apply Z.mod_mul; lia].
  pose proof (Z.div_mod (location + (block_size - 1)) block_size
                ltac:(lia)) as Hdm.
  pose proof (Z.mod_pos_bound (location + (block_size - 1)) block_size
                Hpos) as Hb.
  lia.
Qed.

(** X22: with a positive erase block size, an element that
    [post_process] places starts on an erase-block boundary, at or
    after the end of its predecessor and less than a block after
    it. *)
Theorem placed_after_predecessor (now_field now_pack : list Z)
    (h h' : Ffff) (j : nat) (e p e' : FfffElement) :
  post_process now_field now_pack h = Some h' →
  0 < erase_block_size h →
  elements h !! S j = Some e → element_location e = 0 →
  elements h' !! j = Some p → elements h' !! S j = Some e' →
  element_location p + element_length p <= element_location e'
  ∧ element_location e'
    < element_location p + element_length p + erase_block_size h
  ∧ element_location e' mod erase_block_size h = 0.
Proof.
  intros Hrun Hpos He Hz Hp He'.
  destruct (post_process_elements _ _ _ _ _ _ Hrun He)
    as (e2 & He2 & _ & _ & Hplace).
  assert (e2 = e') as -> by congruence.
  rewrite (Hplace j p eq_refl Hz Hp).
  destruct (next_boundary_spec
              (element_location p + element_length p)
              (erase_block_size h) Hpos) as [[Hlo Hhi] Hmod].
  done.
Qed.

Lemma post_process_layout_keeps (h hp : Ffff) :
  post_process_layout h = Some hp →
  (flash_image_name hp, erase_block_mask hp, flash_capacity hp,
   erase_block_size hp, header_generation_number hp)
  = (flash_image_name h, Some (erase_block_size h - 1),
     flash_capacity h, erase_block_size h, header_generation_number h).
Proof.
  destruct h. unfold post_process_layout. cbn. intros Hrun.
  bind_inv Hrun. bind_inv Hrun. destruct x0 as [elts locF].
  injection Hrun as <-. by destruct (_ =? 0).
Qed.

(** What "fill in and/or trim selected FFFF fields" does. *)
Lemma post_process_fields_inv (now_field : list Z) (h : Ffff) :
  flash_image_name (post_process_fields now_field h)
  = py_slice (flash_image_name h) 0 FFFF_FLASH_IMAGE_NAME_LENGTH
  ∧ sentinel (post_process_fields now_field h) = FFFF_SENTINEL
  ∧ tail_sentinel (post_process_fields now_field h) = FFFF_SENTINEL
  ∧ timestamp (post_process_fields now_field h) = now_field
  ∧ erase_block_mask (post_process_fields now_field h)
    = erase_block_mask h
  ∧ flash_capacity (post_process_fields now_field h) = flash_capacity h
  ∧ erase_block_size (post_process_fields now_field h)
    = erase_block_size h
  ∧ header_generation_number (post_process_fields now_field h)
    = header_generation_number h.
Proof.
  destruct h as [? ? name ? ? ? ? ? ? ? ? ? ? ? ? ? ? ? ? ? ? ? ?].
  unfold post_process_fields. cbn.
  destruct name as [| c name]; cbn; split_and!; try done.
  unfold py_slice. by rewrite drop_nil, take_nil.
Qed.

Lemma validation_frame_stamps (h h' : Ffff) :
  validation_frame h = validation_frame h' →
  (sentinel h, tail_sentinel h, timestamp h, flash_image_name h,
   erase_block_mask h, flash_capacity h, erase_block_size h,
   header_generation_number h)
  = (sentinel h', tail_sentinel h', timestamp h', flash_image_name h',
     erase_block_mask h', flash_capacity h', erase_block_size h',
     header_generation_number h').
Proof.
  unfold validation_frame, header_fields. intros Heq.
  injection Heq. intros. congruence.
Qed.

(** X23: the fields that [post_process] stamps: both sentinels, the
    time stamp, the name cut to the width of its field, and the
    erase block mask; the capacity, the erase block size and the
    generation number are kept. *)
Theorem post_process_stamps (now_field now_pack : list Z)
    (h h' : Ffff) :
  post_process now_field now_pack h = Some h' →
  sentinel h' = FFFF_SENTINEL
  ∧ tail_sentinel h' = FFFF_SENTINEL
  ∧ timestamp h' = now_field
  ∧ flash_image_name h'
    = py_slice (flash_image_name h) 0 FFFF_FLASH_IMAGE_NAME_LENGTH
  ∧ erase_block_mask h' = Some (erase_block_size h - 1)
  ∧ flash_capacity h' = flash_capacity h
  ∧ erase_block_size h' = erase_block_size h
  ∧ header_generation_number h' = header_generation_number h.
Proof.
  unfold post_process. intros Hrun.
  bind_inv Hrun. rename x into hp, Hx into Hplan.
  bind_inv Hrun. destruct x as [h1 ok1]. rename Hx into Htable.
  bind_inv Hrun. rename x into h2, Hx into Hpack.
  bind_inv Hrun. destruct x as [h3 v]. injection Hrun as <-.
  rename Hx into Hval.
  apply validate_ffff_header_frame, validation_frame_stamps in Hval.
  apply validate_element_table_frame, validation_frame_stamps
    in Htable.
  apply pack_frame in Hpack. rewrite Hpack in Hval. clear Hpack.
  pose proof (post_process_layout_keeps _ _ Hplan) as Hp.
  injection Hp as Hp1 Hp2 Hp3 Hp4 Hp5.
  injection Htable as _ _ _ Ht1 Ht2 Ht3 Ht4 Ht5.
  destruct (post_process_fields_inv now_field h1)
    as (Hname & Hrest).
  destruct Hrest as (Hr1 & Hr2 & Hr3 & Hr4 & Hr5 & Hr6 & Hr7).
  set (hf := post_process_fields now_field h1) in *. clearbody hf.
  cbn [sentinel tail_sentinel timestamp flash_image_name
       erase_block_mask flash_capacity erase_block_size
       header_generation_number set_ffff_buf] in Hval.
  injection Hval as Hv1 Hv2 Hv3 Hv4 Hv5 Hv6 Hv7 Hv8.
  split_and!; congruence.
Qed.

End Layout.

(** ** Comparing two headers *)

Section Comparison.
Context `{K : FfffConsts}.
Variable element_same_as : FfffElement → FfffElement → bool.

Lemma same_as_loop_Forall2 (self other : list FfffElement) :
  length self = length other →
  same_as_loop element_same_as self other = true
  ↔ Forall2 (λ a b, element_same_as a b = true) self other.
Proof.
  revert other. induction self as [| a self IH];
    intros [| b other] Hlen; try discriminate.
  - split; [constructor | done].
  - cbn [same_as_loop]. injection Hlen as Hlen.
    rewrite Forall2_cons. rewrite <- (IH _ Hlen).
    destruct (element_same_as a b); cbn; intuition congruence.
Qed.

(** X24: [same_as] holds exactly when both tables have the same
    number of elements, the elements at the same index are the same
    by the elements' own comparison, and the ten header fields,
    among them the time stamp and the padding, are equal; the flash
    buffer, the header offset and the validation results are not
    looked at. *)
Theorem same_as_true_iff (self other : Ffff) :
  same_as element_same_as self other = true
  ↔ Forall2 (λ a b, element_same_as a b = true)
      (elements self) (elements other)
    ∧ sentinel self = sentinel other
    ∧ timestamp self = timestamp other
    ∧ flash_image_name self = flash_image_name other
    ∧ flash_capacity self = flash_capacity other
    ∧ erase_block_size self = erase_block_size other
    ∧ header_size self = header_size other
    ∧ flash_image_length self = flash_image_length other
    ∧ header_generation_number self = header_generation_number other
    ∧ padding self = padding other
    ∧ tail_sentinel self = tail_sentinel other.
Proof.
  unfold same_as.
  destruct (Nat.eqb_spec (length (elements self))
              (length (elements other))) as [Hlen | Hlen].
  - rewrite andb_true_l.
    pose proof (same_as_loop_Forall2 _ _ Hlen) as Hloop.
    destruct (same_as_loop _ _ _) eqn:Hl; cbn [negb].
    + rewrite !andb_true_iff, !bool_decide_eq_true, !Z.eqb_eq.
      pose proof (proj1 Hloop eq_refl). tauto.
    + split; [discriminate |]. intros [Hall _].
      apply Hloop in Hall. discriminate.
  - cbn. split; [discriminate |]. intros [Hall _].
    by apply Forall2_length in Hall.
Qed.

End Comparison.

(** ** The constructor *)

Section Construction.
Context `{K : FfffConsts}.

(** X25: the constructor raises exactly when no header block size
    below [FFFF_MAX_HEADER_BLOCK_SIZE] exists for the erase block
    size; otherwise the new header has an empty element table, is
    marked VALID, and admits element locations from twice the larger
    of the erase block size and [FFFF_HDR_LENGTH + 1] up to the
    image length. *)
Theorem constructor_range (buf : list Z) (offset : Z) (name : list Z)
    (capacity ebs image_length generation : Z) :
  (Ffff_init buf offset name capacity ebs image_length generation = None
   ↔ FFFF_MAX_HEADER_BLOCK_SIZE <= Z.max ebs (FFFF_HDR_LENGTH + 1))
  ∧ ∀ h,
      Ffff_init buf offset name capacity ebs image_length generation
      = Some h →
      elements h = []
      ∧ header_validity h = FFFF_HDR_VALID
      ∧ element_location_min h = 2 * Z.max ebs (FFFF_HDR_LENGTH + 1)
      ∧ element_location_max h = image_length.
Proof.
  unfold Ffff_init. rewrite header_block_size_closed.
  case_decide as Hfit; cbn [mbind option_bind].
  - split; [split; [discriminate | lia] |].
    intros h Hh. by injection Hh as <-.
  - split; [split; [lia | done] | discriminate].
Qed.

End Construction.

(** ** Where the header codec writes and reads *)

Section CodecPlacement.
Context `{K : FfffConsts} `{E : FfffElementOps}.

(** The time stamp that [pack] takes from the clock is in the buffer
    afterwards, in the 16 bytes after the leading sentinel. *)
Lemma pack_stamps_buffer (now : list Z) (h hp : Ffff) :
  layout_ok → pack_writes_entry_only →
  0 <= header_offset h →
  pack now h = Some hp →
  unpack_from 16 (ffff_buf hp) (header_offset h + 16)
  = Some (pack_s 16 now).
Proof.
  intros (Hname & Hcap & Htbl & Helt & Hmax & Htail) Hwrite Hoff Hrun.
  apply pack_inv_at in Hrun
    as (b1 & b2 & sizes & b3 & b4 & offF & H1 & H2 & Hs & H3 & H4 & H5).
  rewrite Hname in H2. rewrite Hcap in H3.
  apply pack_LLLLL_inv in Hs as (Hslen & _).
  set (o := Z.to_nat (header_offset h)).
  assert (Ho : Z.of_nat o = header_offset h) by lia.
  (* the first write *)
  pose proof (pack_into_inv _ _ _ _ H1 Hoff) as [Hfit _].
  rewrite length_app, !length_pack_s in Hfit.
  pose proof (pack_into_length _ _ _ _ H1 Hoff) as Hl1.
  assert (R1 : take 16 (drop (o + 16) b1) = pack_s 16 now).
  { rewrite (pack_into_read_at _ _ _ _ (o + 16) 16 16 H1 Hoff)
      by (rewrite ?length_app, ?length_pack_s; lia).
    rewrite drop_app_length' by (by rewrite length_pack_s).
    apply take_ge. rewrite length_pack_s. lia. }
  (* the name *)
  assert (take 16 (drop (o + 16) b2) = pack_s 16 now
          ∧ length b2 = length b1) as [R2 Hl2].
  { destruct (nonempty (flash_image_name h)).
    - assert (Hoff2 : 0 <= header_offset h + 32) by lia.
      pose proof (pack_into_agree_outside _ _ _ _ H2 Hoff2) as Hout.
      split; [| apply Hout].
      rewrite <- R1. apply (agree_outside_read _ _ _ _ _ _ Hout). lia.
    - injection H2 as <-. done. }
  (* the sizes *)
  assert (Hoff3 : 0 <= header_offset h + 80) by lia.
  pose proof (pack_into_agree_outside _ _ _ _ H3 Hoff3) as Hout3.
  assert (R3 : take 16 (drop (o + 16) b3) = pack_s 16 now).
  { rewrite <- R2. apply (agree_outside_read _ _ _ _ _ _ Hout3). lia. }
  (* the trailing sentinel *)
  assert (Hoff4 : 0 <= header_offset h + FFFF_HDR_OFF_TAIL_SENTINEL)
    by nia.
  pose proof (pack_into_agree_outside _ _ _ _ H4 Hoff4) as Hout4.
  assert (R4 : take 16 (drop (o + 16) b4) = pack_s 16 now).
  { rewrite <- R3. apply (agree_outside_read _ _ _ _ _ _ Hout4). nia. }
  (* the element table *)
  assert (Hoff5 : 0 <= header_offset h + FFFF_HDR_OFF_ELEMENT_TBL)
    by lia.
  destruct (pack_elements_frame Hwrite Helt _ _ _ _ _ Hoff5 H5)
    as [_ Hout5].
  assert (R5 : take 16 (drop (o + 16) (ffff_buf hp)) = pack_s 16 now).
  { rewrite <- R4. apply (agree_outside_read _ _ _ _ _ _ Hout5). lia. }
  rewrite unpack_from_ok.
  - replace (Z.to_nat (header_offset h + 16)) with (o + 16)%nat by lia.
    by rewrite R5.
  - lia.
  - destruct Hout5 as [-> _], Hout4 as [-> _], Hout3 as [-> _].
    rewrite Hl2, Hl1. lia.
Qed.

(** C9: [pack] changes the buffer and nothing else: the instance it
    returns is the one it was given, every field included, the
    [timestamp] attribute among them, with the new buffer.  The time
    stamp that [pack] reads from the clock goes into the buffer, into
    the 16 bytes after the leading sentinel, and nowhere else: so
    whenever the clock reading differs from the [timestamp] attribute
    (both taken at the width of the field), the time stamp in the
    buffer is not the attribute's.  The header offset is not
    negative, and the element codec writes only its own entry. *)
Theorem C9_pack_only_writes_buffer (now : list Z) (h h' : Ffff) :
  layout_ok → pack_writes_entry_only →
  0 <= header_offset h →
  pack now h = Some h' →
  h' = set_ffff_buf (ffff_buf h') h
  ∧ timestamp h' = timestamp h
  ∧ unpack_from 16 (ffff_buf h') (header_offset h' + 16)
    = Some (pack_s 16 now)
  ∧ (pack_s 16 now ≠ pack_s 16 (timestamp h) →
     unpack_from 16 (ffff_buf h') (header_offset h' + 16)
     ≠ Some (pack_s 16 (timestamp h'))).
Proof.
  intros Hlayout Hwrite Hoff Hrun.
  pose proof (pack_stamps_buffer now h h' Hlayout Hwrite Hoff Hrun)
    as Hstamp.
  apply pack_frame in Hrun.
  assert (Hts : timestamp h' = timestamp h) by by rewrite Hrun.
  assert (Hho : header_offset h' = header_offset h) by by rewrite Hrun.
  rewrite Hho, Hts, Hstamp. split_and!; try done.
  intros Hne Heq. by injection Heq.
Qed.

(** What [unpack_fixed] reads, and where. *)
Lemma unpack_fixed_reads (h h0 : Ffff) :
  unpack_fixed h = Some h0 →
  ∃ raw,
    unpack_from 100 (ffff_buf h) (header_offset h) = Some raw
    ∧ unpack_from 16 (ffff_buf h)
        (header_offset h + FFFF_HDR_OFF_TAIL_SENTINEL)
      = Some (tail_sentinel h0)
    ∧ (sentinel h0, timestamp h0, flash_image_name h0,
       flash_capacity h0, erase_block_size h0, header_size h0,
       flash_image_length h0, header_generation_number h0)
      = (field 0 16 raw, field 16 16 raw, field 32 48 raw,
         unpack_L (field 80 4 raw), unpack_L (field 84 4 raw),
         unpack_L (field 88 4 raw), unpack_L (field 92 4 raw),
         unpack_L (field 96 4 raw))
    ∧ ffff_buf h0 = ffff_buf h ∧ elements h0 = [].
Proof.
  destruct h. unfold unpack_fixed. cbn. intros Hrun.
  repeat bind_inv Hrun. injection Hrun as <-. cbn.
  eexists. split_and!; try reflexivity; eassumption.
Qed.

(** The scalar header fields that two instances with the same header
    fields share. *)
Lemma header_fields_scalars (h1 h2 : Ffff) :
  header_fields h1 = header_fields h2 →
  elements h1 = elements h2
  ∧ tail_sentinel h1 = tail_sentinel h2
  ∧ (sentinel h1, timestamp h1, flash_image_name h1,
     flash_capacity h1, erase_block_size h1, header_size h1,
     flash_image_length h1, header_generation_number h1)
    = (sentinel h2, timestamp h2, flash_image_name h2,
       flash_capacity h2, erase_block_size h2, header_size h2,
       flash_image_length h2, header_generation_number h2).
Proof.
  unfold header_fields. intros Heq. injection Heq. intros.
  split_and!; congruence.
Qed.

(** What the loop of [unpack] appends: the entries decoded one after
    the other from [offset] on, up to the first one that decodes as
    unused, or [n] of them. *)
Lemma unpack_loop_reads (n : nat) : ∀ idx off h r,
  unpack_loop n idx off h = Some r →
  ∃ new,
    elements r = elements h ++ new
    ∧ (length new <= n)%nat
    ∧ (∀ (j : nat) e, new !! j = Some e →
         element_unpack
           (new_element (idx + Z.of_nat j) (flash_capacity h)
              (erase_block_size h) 0 0 0 0 0 None)
           (ffff_buf h) (off + Z.of_nat j * FFFF_ELT_LENGTH)
         = Some (e, false))
    ∧ ((length new < n)%nat →
       ∃ e,
         element_unpack
           (new_element (idx + Z.of_nat (length new)) (flash_capacity h)
              (erase_block_size h) 0 0 0 0 0 None)
           (ffff_buf h)
           (off + Z.of_nat (length new) * FFFF_ELT_LENGTH)
         = Some (e, true)).
Proof.
  induction n as [| n IH]; intros idx off h r Hrun.
  { injection Hrun as <-. exists []. rewrite app_nil_r.
    split_and!; [done | done | | cbn; lia].
    intros j e Hj. by rewrite lookup_nil in Hj. }
  cbn [unpack_loop] in Hrun. bind_inv Hrun.
  destruct x as [e unused]. destruct unused; cbn [negb] in Hrun.
  - injection Hrun as <-. exists []. rewrite app_nil_r.
    split_and!; [done | cbn; lia | |].
    + intros j a Hj. by rewrite lookup_nil in Hj.
    + intros _. exists e. cbn [length].
      replace (idx + Z.of_nat 0) with idx by lia.
      replace (off + Z.of_nat 0 * FFFF_ELT_LENGTH) with off by lia.
      done.
  - destruct (IH _ _ _ _ Hrun) as (new & Hel & Hlen & Hall & Hstop).
    cbn [elements flash_capacity erase_block_size ffff_buf
         set_elements] in Hel, Hall, Hstop.
    exists (e :: new). split_and!.
    + by rewrite Hel, <- app_assoc.
    + cbn [length]. lia.
    + intros [| j] a Hj.
      * injection Hj as <-.
        replace (idx + Z.of_nat 0) with idx by lia.
        replace (off + Z.of_nat 0 * FFFF_ELT_LENGTH) with off by lia.
        done.
      * cbn [lookup list_lookup] in Hj. specialize (Hall j a Hj).
        replace (idx + Z.of_nat (S j)) with (idx + 1 + Z.of_nat j)
          by lia.
        replace (off + Z.of_nat (S j) * FFFF_ELT_LENGTH)
          with (off + FFFF_ELT_LENGTH + Z.of_nat j * FFFF_ELT_LENGTH)
          by lia.
        done.
    + intros Hlt. cbn [length] in Hlt |- *.
      destruct Hstop as [a Ha]; [lia |]. exists a.
      replace (idx + Z.of_nat (S (length new)))
        with (idx + 1 + Z.of_nat (length new)) by lia.
      replace (off + Z.of_nat (S (length new)) * FFFF_ELT_LENGTH)
        with (off + FFFF_ELT_LENGTH
              + Z.of_nat (length new) * FFFF_ELT_LENGTH) by lia.
      done.
Qed.

(** C10: what [unpack] reads, and where.  The fixed fields are the
    100 bytes at the header offset and the trailing sentinel is the
    16 bytes at [header_offset + FFFF_HDR_OFF_TAIL_SENTINEL].  The
    element table is read at the absolute offsets
    [FFFF_HDR_OFF_ELEMENT_TBL + i * FFFF_ELT_LENGTH], in which the
    header offset plays no part: the element at index [i] is the
    entry decoded there, and the table ends at the first entry there
    that decodes as unused, or at [FFFF_MAX_ELEMENTS] entries.  So
    the entries are determined by the table region of the first
    header copy: a second buffer that agrees with the first on that
    region decodes to the same entries at any header offset, whatever
    it holds at [header_offset + FFFF_HDR_OFF_ELEMENT_TBL] (here the
    element decoder is assumed to read only the entry it is pointed
    at). *)
Theorem C10_unpack_reads_absolute_table (h h' : Ffff) :
  unpack h = Some h' →
  (∃ raw,
     unpack_from 100 (ffff_buf h) (header_offset h) = Some raw
     ∧ (sentinel h', timestamp h', flash_image_name h',
        flash_capacity h', erase_block_size h', header_size h',
        flash_image_length h', header_generation_number h')
       = (field 0 16 raw, field 16 16 raw, field 32 48 raw,
          unpack_L (field 80 4 raw), unpack_L (field 84 4 raw),
          unpack_L (field 88 4 raw), unpack_L (field 92 4 raw),
          unpack_L (field 96 4 raw)))
  ∧ unpack_from 16 (ffff_buf h)
      (header_offset h + FFFF_HDR_OFF_TAIL_SENTINEL)
    = Some (tail_sentinel h')
  ∧ (length (elements h') <= Z.to_nat FFFF_MAX_ELEMENTS)%nat
  ∧ (∀ (i : nat) e, elements h' !! i = Some e →
       element_unpack
         (new_element (Z.of_nat i) (flash_capacity h')
            (erase_block_size h') 0 0 0 0 0 None)
         (ffff_buf h)
         (FFFF_HDR_OFF_ELEMENT_TBL + Z.of_nat i * FFFF_ELT_LENGTH)
       = Some (e, false))
  ∧ ((length (elements h') < Z.to_nat FFFF_MAX_ELEMENTS)%nat →
     ∃ e,
       element_unpack
         (new_element (Z.of_nat (length (elements h')))
            (flash_capacity h') (erase_block_size h') 0 0 0 0 0 None)
         (ffff_buf h)
         (FFFF_HDR_OFF_ELEMENT_TBL
          + Z.of_nat (length (elements h')) * FFFF_ELT_LENGTH)
       = Some (e, true))
  ∧ (unpack_reads_entry_only →
     0 <= FFFF_HDR_OFF_ELEMENT_TBL → 0 <= FFFF_ELT_LENGTH →
     ∀ h2 h2',
       length (ffff_buf h) = length (ffff_buf h2) →
       agree_on (ffff_buf h) (ffff_buf h2) FFFF_HDR_OFF_ELEMENT_TBL
         (FFFF_HDR_OFF_ELEMENT_TBL
          + FFFF_MAX_ELEMENTS * FFFF_ELT_LENGTH) →
       unpack h2 = Some h2' →
       element_entry <$> elements h' = element_entry <$> elements h2').
Proof.
  intros Hrun.
  pose proof Hrun as Hrun0.
  apply unpack_inv in Hrun as (h0 & h1 & v & Hfixed & Hloop & Hval).
  apply unpack_fixed_reads in Hfixed
    as (raw & Hraw & Htail & Hscal & Hbuf & Hnil).
  pose proof (unpack_loop_buf _ _ _ _ _ Hloop) as [Hfr _].
  apply scan_frame_validation_frame, validation_frame_header_fields,
    header_fields_scalars in Hfr as (_ & Htl1 & Hsc1).
  cbn [sentinel timestamp flash_image_name flash_capacity
       erase_block_size header_size flash_image_length
       header_generation_number tail_sentinel set_elements]
    in Htl1, Hsc1.
  apply unpack_loop_reads in Hloop
    as (new & Hel & Hlen & Hall & Hstop).
  rewrite Hnil, app_nil_l in Hel. rewrite Hbuf in Hall, Hstop.
  apply validate_ffff_header_frame, validation_frame_header_fields,
    header_fields_scalars in Hval as (Hel' & Htl' & Hsc').
  rewrite Hsc1 in Hsc'. rewrite Hel in Hel'.
  assert (flash_capacity h0 = flash_capacity h'
          ∧ erase_block_size h0 = erase_block_size h') as [Hc He].
  { injection Hsc' as _ _ _ Hc He _ _ _. by rewrite Hc, He. }
  rewrite Hc, He in Hall, Hstop.
  rewrite Hel', Htl', Htl1, Hsc', Hscal.
  split_and!; try done.
  - by exists raw.
  - intros Hlocal Htbl Helt h2 h2' Hlen2 Hagree Hrun2.
    rewrite <- Hel'.
    exact (unpack_table_determined h h2 h' h2' Hlocal Htbl Helt Hlen2
             Hagree Hrun0 Hrun2).
Qed.

End CodecPlacement.

(** ** The properties above at sample inputs *)

Module MoreExamples.
Import Sample Cases.

Lemma header_block_size_spec_64 :
  (64 <= 513
   ∧ FFFF_HDR_LENGTH < 513 < FFFF_MAX_HEADER_BLOCK_SIZE
   ∧ ∀ t, 64 <= t → FFFF_HDR_LENGTH < t → 513 <= t)
  ∧ header_block_size 65536 = None.
Proof.
  split.
  - apply (proj1 (header_block_size_spec 64) 513).
    vm_compute. reflexivity.
  - apply (proj2 (header_block_size_spec 65536)).
    vm_compute. discriminate.
Defined.


Lemma collision_row_exact_overlapping :
  ∃ h' ok row,
    validate_element_table overlapping = Some (h', ok)
    ∧ collisions h' !! 0%nat = Some row
    ∧ ∀ x, x ∈ row ↔
           (x = FFFF_HEADER_COLLISION
            ∧ element_location (elt 0 1 5 2 4096 256) < 2 * 513)
           ∨ ∃ (j : nat) b,
               x = Z.of_nat j ∧ j ≠ 0%nat
               ∧ live_elements (elements overlapping) !! j = Some b
               ∧ ranges_overlap (elt 0 1 5 2 4096 256) b.
Proof.
  apply (collision_row_exact overlapping 513 0 (elt 0 1 5 2 4096 256));
    vm_compute; reflexivity.
Defined.

Lemma duplicate_row_exact_two_duplicates :
  ∃ h' ok drow,
    validate_element_table (authored [] two_duplicates) = Some (h', ok)
    ∧ duplicates h' !! 0%nat = Some drow
    ∧ ∀ x, x ∈ drow ↔
           ∃ (j : nat) b,
             x = Z.of_nat j ∧ j ≠ 0%nat
             ∧ live_elements (elements (authored [] two_duplicates))
               !! j = Some b
             ∧ same_identity (elt 0 1 5 2 2048 100) b.
Proof.
  apply (duplicate_row_exact (authored [] two_duplicates) 513 0
           (elt 0 1 5 2 2048 100));
    vm_compute; reflexivity.
Defined.

Lemma header_region_guard_low_element :
  ∃ h' row,
    validate_element_table low_element = Some (h', false)
    ∧ collisions_found h' = true
    ∧ collisions h' !! 0%nat = Some row
    ∧ FFFF_HEADER_COLLISION ∈ row.
Proof.
  apply (header_region_guard low_element 513 0 (elt 0 1 5 2 512 100));
    vm_compute; reflexivity.
Defined.

Lemma element_table_passes_iff_overlapping :
  ∃ h' ok,
    validate_element_table overlapping = Some (h', ok)
    ∧ (ok = true ↔
       ∀ (i : nat) a,
         live_elements (elements overlapping) !! i = Some a →
         clean_entry overlapping 513 i a).
Proof.
  apply (element_table_passes_iff overlapping 513).
  vm_compute. reflexivity.
Defined.

Lemma sentinel_mismatch_before_decoding :
  validate_ffff_header (loading image_with_duplicates 0)
  = Some (set_header_validity FFFF_HDR_INVALID
            (loading image_with_duplicates 0), FFFF_HDR_INVALID).
Proof.
  apply sentinel_mismatch_is_invalid.
  - vm_compute. reflexivity.
  - left. vm_compute. discriminate.
Defined.

Lemma bad_sizes_odd_blocks :
  validate_ffff_header odd_blocks
  = Some (set_header_validity FFFF_HDR_INVALID odd_blocks,
          FFFF_HDR_INVALID).
Proof.
  apply bad_sizes_are_invalid.
  - vm_compute. reflexivity.
  - vm_compute. reflexivity.
  - vm_compute. reflexivity.
  - left. vm_compute. reflexivity.
Defined.

Lemma verdict_of_decoded_flagged :
  snd <$> validate_ffff_header decoded
  = snd <$> validate_ffff_header decoded_flagged.
Proof.
  apply verdict_depends_on_header_only. vm_compute. reflexivity.
Defined.

Lemma valid_header_sound_decoded :
  header_erased decoded = false
  ∧ sentinel decoded = FFFF_SENTINEL
  ∧ tail_sentinel decoded = FFFF_SENTINEL
  ∧ is_power_of_2 (erase_block_size decoded) = true
  ∧ flash_image_length decoded `mod` erase_block_size decoded = 0
  ∧ ∀ (i : nat) a,
      live_elements (elements decoded) !! i = Some a →
      clean_entry decoded 513 i a.
Proof.
  eapply (valid_header_sound decoded _ 513); vm_compute; reflexivity.
Defined.

Lemma revalidation_of_decoded :
  ∃ h' v,
    validate_ffff_header decoded = Some (h', v)
    ∧ ∃ h'', validate_ffff_header h' = Some (h'', v)
             ∧ header_validity h'' = v.
Proof.
  eexists _, _. split; [vm_compute; reflexivity |].
  apply (revalidation_is_stable decoded). vm_compute. reflexivity.
Defined.

Lemma unpack_bounds_image_with_duplicates :
  ∃ h',
    unpack (loading image_with_duplicates 0) = Some h'
    ∧ (length (elements h') <= Z.to_nat FFFF_MAX_ELEMENTS)%nat
    ∧ element_location_max h' = flash_capacity h'
    ∧ ∃ hbs, header_block_size (erase_block_size h') = Some hbs
             ∧ element_location_min h' = 2 * hbs.
Proof.
  eexists. split; [vm_compute; reflexivity |].
  apply (unpack_bounds (loading image_with_duplicates 0)).
  vm_compute. reflexivity.
Defined.

Lemma unpack_truncated_raises : unpack truncated = None.
Proof.
  apply unpack_short_buffer_raises.
  - vm_compute. discriminate.
  - left. vm_compute. reflexivity.
Defined.

Lemma pack_oversized_raises : pack clock oversized = None.
Proof.
  apply (pack_out_of_range_raises clock oversized (2 ^ 32)).
  - constructor.
  - vm_compute. intros [_ Hlt]. discriminate Hlt.
Defined.

Lemma pack_stamped_header_region :
  ∃ hp,
    pack clock stamped = Some hp
    ∧ agree_outside (ffff_buf hp) (ffff_buf stamped)
        (header_offset stamped)
        (header_offset stamped + FFFF_HDR_OFF_TAIL_SENTINEL + 16).
Proof.
  eexists. split; [vm_compute; reflexivity |].
  apply (pack_writes_header_region_only clock stamped).
  - apply Examples.sample_layout_ok.
  - apply Examples.sample_pack_writes_entry_only.
  - vm_compute. discriminate.
  - vm_compute. discriminate.
  - vm_compute. reflexivity.
Defined.

Lemma pack_stamped_keeps_name_bytes :
  ∃ hp,
    pack clock stamped = Some hp
    ∧ agree_on (ffff_buf hp) (ffff_buf stamped)
        (header_offset stamped + FFFF_HDR_OFF_FLASH_IMAGE_NAME)
        (header_offset stamped + FFFF_HDR_OFF_FLASH_IMAGE_NAME + 48).
Proof.
  eexists. split; [vm_compute; reflexivity |].
  apply (pack_empty_name_keeps_bytes clock stamped).
  - apply Examples.sample_layout_ok.
  - apply Examples.sample_pack_writes_entry_only.
  - vm_compute. discriminate.
  - vm_compute. discriminate.
  - vm_compute. reflexivity.
  - vm_compute. reflexivity.
Defined.

Lemma add_element_loads_blob_fresh :
  elements with_blob = elements fresh ++ [blob_element]
  ∧ py_slice (ffff_buf with_blob) (element_location blob_element)
      (element_location blob_element
       + Z.of_nat (length (tftf_buf blob_element)))
    = tftf_buf blob_element
  ∧ (∀ i : nat,
       ¬ (element_location blob_element <= Z.of_nat i
          < element_location blob_element
            + Z.of_nat (length (tftf_buf blob_element))) →
       ffff_buf with_blob !! i = ffff_buf fresh !! i)
  ∧ Z.of_nat (length (ffff_buf with_blob))
    = Z.max (Z.of_nat (length (ffff_buf fresh)))
        (element_location blob_element
         + Z.of_nat (length (tftf_buf blob_element))).
Proof.
  apply (add_element_loads_blob fresh with_blob 1 5 2 2048 100 "blob"
           blob_element).
  - vm_compute. reflexivity.
  - vm_compute. reflexivity.
  - vm_compute. split; discriminate.
Defined.

Lemma add_element_beyond_end_short_flash :
  ffff_buf short_with_blob
  = ffff_buf short_flash ++ tftf_buf blob_element.
Proof.
  apply (add_element_beyond_end short_flash short_with_blob 1 5 2 2048
           100 "blob" blob_element).
  - vm_compute. reflexivity.
  - vm_compute. reflexivity.
  - vm_compute. discriminate.
Defined.

Lemma post_process_placement_to_be_placed :
  ∃ h',
    post_process clock clock to_be_placed = Some h'
    ∧ length (elements h') = length (elements to_be_placed)
    ∧ ∀ (i : nat) e, elements to_be_placed !! i = Some e →
        ∃ e', elements h' !! i = Some e'
          ∧ e' = set_element_location (element_location e') e
          ∧ (i = 0%nat ∨ element_location e ≠ 0 → e' = e)
          ∧ ∀ (j : nat) p, i = S j → element_location e = 0 →
              elements h' !! j = Some p →
              element_location e'
              = next_boundary (element_location p + element_length p)
                  (erase_block_size to_be_placed).
Proof.
  eexists. split; [vm_compute; reflexivity |].
  apply (post_process_placement clock clock to_be_placed).
  vm_compute. reflexivity.
Defined.

Lemma post_process_image_length_to_be_placed :
  ∃ h',
    post_process clock clock to_be_placed = Some h'
    ∧ (flash_image_length to_be_placed ≠ 0 →
       flash_image_length h' = flash_image_length to_be_placed
       ∧ ∀ e, e ∈ elements h' →
           element_location e + element_length e
           < flash_image_length h')
    ∧ (flash_image_length to_be_placed = 0 →
       ∃ l, last (elements h') = Some l
            ∧ flash_image_length h'
              = next_boundary (element_location l + element_length l)
                  (erase_block_size to_be_placed)).
Proof.
  eexists. split; [vm_compute; reflexivity |].
  apply (post_process_image_length clock clock to_be_placed).
  vm_compute. reflexivity.
Defined.

Lemma post_process_raises_on_samples :
  post_process clock clock fresh = None
  ∧ post_process clock clock past_the_image = None.
Proof.
  split.
  - apply (proj1 (post_process_raises clock clock fresh)).
    vm_compute. reflexivity.
  - apply (proj2 (post_process_raises clock clock past_the_image)
             (elt 0 1 5 2 8000 500)).
    + vm_compute. discriminate.
    + constructor.
    + vm_compute. discriminate.
    + vm_compute. discriminate.
Defined.

Lemma placed_after_predecessor_second :
  element_location (elt 0 1 5 2 0 100)
  + element_length (elt 0 1 5 2 0 100)
  <= element_location (elt 1 1 6 2 128 250)
  ∧ element_location (elt 1 1 6 2 128 250)
    < element_location (elt 0 1 5 2 0 100)
      + element_length (elt 0 1 5 2 0 100)
      + erase_block_size to_be_placed
  ∧ element_location (elt 1 1 6 2 128 250)
    `mod` erase_block_size to_be_placed = 0.
Proof.
  eapply (placed_after_predecessor clock clock to_be_placed _ 0
            (elt 1 1 6 2 0 250) (elt 0 1 5 2 0 100)
            (elt 1 1 6 2 128 250));
    vm_compute; reflexivity.
Defined.

Lemma post_process_stamps_to_be_named :
  ∃ h',
    post_process clock clock to_be_named = Some h'
    ∧ sentinel h' = FFFF_SENTINEL
    ∧ tail_sentinel h' = FFFF_SENTINEL
    ∧ timestamp h' = clock
    ∧ flash_image_name h'
      = py_slice (flash_image_name to_be_named) 0
          FFFF_FLASH_IMAGE_NAME_LENGTH
    ∧ erase_block_mask h' = Some (erase_block_size to_be_named - 1)
    ∧ flash_capacity h' = flash_capacity to_be_named
    ∧ erase_block_size h' = erase_block_size to_be_named
    ∧ header_generation_number h'
      = header_generation_number to_be_named.
Proof.
  eexists. split; [vm_compute; reflexivity |].
  apply (post_process_stamps clock clock to_be_named).
  vm_compute. reflexivity.
Defined.

Lemma same_as_named_abc_elsewhere :
  same_as entry_same_as named_abc named_abc_elsewhere = true.
Proof.
  apply (proj2 (same_as_true_iff entry_same_as named_abc
                  named_abc_elsewhere)).
  split; [repeat constructor | vm_compute; repeat split].
Defined.

Lemma constructor_range_samples :
  Ffff_init [] 0 [] 8192 65536 8192 0 = None
  ∧ elements fresh = []
  ∧ header_validity fresh = FFFF_HDR_VALID
  ∧ element_location_min fresh = 2 * Z.max 64 (FFFF_HDR_LENGTH + 1)
  ∧ element_location_max fresh = 8192.
Proof.
  split.
  - apply (proj1 (constructor_range [] 0 [] 8192 65536 8192 0)).
    vm_compute. discriminate.
  - apply (proj2 (constructor_range (replicate (Z.to_nat 8192) 0) 0 []
                    8192 64 8192 0)).
    vm_compute. reflexivity.
Defined.

Lemma C9_pack_restamped :
  ∃ h',
    pack clock restamped = Some h'
    ∧ h' = set_ffff_buf (ffff_buf h') restamped
    ∧ timestamp h' = timestamp restamped
    ∧ unpack_from 16 (ffff_buf h') (header_offset h' + 16)
      = Some (pack_s 16 clock)
    ∧ unpack_from 16 (ffff_buf h') (header_offset h' + 16)
      ≠ Some (pack_s 16 (timestamp h')).
Proof.
  eexists. split; [vm_compute; reflexivity |].
  edestruct (C9_pack_only_writes_buffer clock restamped)
    as (Hsame & Hts & Hbuf & Hdiff).
  - apply Examples.sample_layout_ok.
  - apply Examples.sample_pack_writes_entry_only.
  - vm_compute. discriminate.
  - vm_compute. reflexivity.
  - split_and!; [exact Hsame | exact Hts | exact Hbuf |].
    apply Hdiff. vm_compute. congruence.
Defined.

Lemma C10_newer_copy_reads_first_table :
  ∃ h' h2',
    unpack newer_copy = Some h'
    ∧ unpack newer_copy_empty = Some h2'
    ∧ header_generation_number h' = 7
    ∧ element_entry <$> elements h' = [(1, 5, 2, 2048, 100)]
    ∧ unpack_from 16 (ffff_buf newer_copy)
        (header_offset newer_copy + FFFF_HDR_OFF_TAIL_SENTINEL)
      = Some (tail_sentinel h')
    ∧ (∀ (i : nat) e, elements h' !! i = Some e →
         element_unpack
           (new_element (Z.of_nat i) (flash_capacity h')
              (erase_block_size h') 0 0 0 0 0 None)
           (ffff_buf newer_copy)
           (FFFF_HDR_OFF_ELEMENT_TBL + Z.of_nat i * FFFF_ELT_LENGTH)
         = Some (e, false))
    ∧ element_entry <$> elements h' = element_entry <$> elements h2'.
Proof.
  eexists _, _.
  split; [vm_compute; reflexivity |].
  split; [vm_compute; reflexivity |].
  match goal with
  | |- header_generation_number ?x = _ ∧ _ => set (hd := x)
  end.
  assert (Hrun : unpack newer_copy = Some hd)
    by (vm_compute; reflexivity).
  destruct (C10_unpack_reads_absolute_table newer_copy hd Hrun)
    as (_ & Htail & _ & Hall & _ & Hrel).
  split; [vm_compute; reflexivity |].
  split; [vm_compute; reflexivity |].
  split_and!; [exact Htail | exact Hall |].
  apply (Hrel Examples.sample_unpack_reads_entry_only)
    with (h2 := newer_copy_empty).
  - vm_compute. discriminate.
  - vm_compute. discriminate.
  - vm_compute. reflexivity.
  - apply (Examples.agree_on_of_read _ _ 100 380). vm_compute.
    reflexivity.
  - vm_compute. reflexivity.
Defined.

End MoreExamples.
